(** * Galvanize: the StateGraph engine

    A shallow embedding of the engine of src/webpack.config.js, lines
    105-152 and 325-551 (the code of galvanize.ts): the dependency extractor
    ([PropGetReporter], [ExtractDeriver]), [ThrottleRequest], and the class
    [StateGraph] with its constructor, [watch], [watch_all], [push],
    [push_fast], [push_accurate], [update] and [dispatch_change], followed
    by the properties of the engine; and of the property classes of lines
    174-296: the handles on the state of a graph and [ObjectProperty].

    Modelling conventions.
    - Keys are strings.  A JavaScript object used as a record with
      enumerable string keys is an association list in enumeration order
      ([Batch], the [derivers] table, the arguments of the constructor);
      objects that are only indexed by key are [gmap]s ([state], [deps],
      [watchers]).  Keys that look like array indices, which JavaScript
      enumerates first, and symbols, which it does not enumerate, are left
      out.
    - These objects are object literals: a lookup [o[name]] that finds no
      own property goes on to [Object.prototype], and [name in o] holds for
      the names found there.  The host says which names [Object.prototype]
      has ([toString], [valueOf], [constructor], ...); its members are
      functions or objects: they are truthy, they are not arrays and they
      have none of the properties the engine reads ([func], [params],
      [is_request], [order], [forEach], [filter], [push]), so using one
      where the engine expects an array or a deriver throws a [TypeError].
      Nobody adds to [Object.prototype].  An operation that throws has no
      result, as one that does not return: [None].  The name [__proto__] is
      read as the other names of [Object.prototype] are; an assignment
      under it would replace the prototype of the object, and the engine
      makes one only in operations that throw at this name.
    - A function of the state map is a tree of property reads ([Fn]): it is
      total, it does not throw and it has no effect besides the reads.  A
      watcher is known by its identity and by the calls it receives.
      Derivers and watchers do not call back into the graph.
    - The [properties] argument of the constructor (state owned by an
      external [Property]) is not part of the model: [state] is a plain
      map.  Of the [Property] classes, the handles that [prop], [wrapped]
      and [navigate] make on a graph are modelled with the getter and the
      setter of [value], and [ObjectProperty] with [value], [watch] and
      [on_changed] over a heap of external objects and watcher arrays; the
      [watch] method of the handles and the two delete methods of
      [NavigatedProperty] are not.
    - What the JavaScript runtime keeps outside the graph object is the
      [Runtime] record: the private [in_progress] flag of every throttle
      closure, the promises that have not settled yet with the reactions
      attached to them, and the sequence of observable calls (watcher
      invocations, calls of request functions, [console.error], rejections
      that no handler takes).  A promise settles in a step of its own,
      [settle], with an outcome given by the environment.
    - Loops that the source writes as [while] take a [fuel] argument and
      return [None] when it runs out; that enough fuel gives a result is
      proved where the loop ends on every input. *)

From Stdlib Require Import ZArith Lia Sorted.
From stdpp Require Import base option list relations gmap strings pretty.

Set Default Proof Using "Type".
#[local] Set Warnings "-clear-no-such-hyp,-register-all".

(** [StateKey]: the keys are taken as strings. *)
Abbreviation StateKey := string (only parsing).

(** A watcher callback, by identity. *)
Abbreviation Watcher := nat (only parsing).

(** What the host supplies for a type [V] of JavaScript values: the value
    [undefined], the collation [a.localeCompare(b)], and the members of
    [Object.prototype], by name. *)
Class Host (V : Type) : Type := {
  undefined : V;
  localeCompare : string → string → comparison;
  Object_prototype : StateKey → option V
}.

(** What the host supplies for values that are objects: [obj[key]], which
    throws a [TypeError] ([None]) when [obj] is [undefined] or [null], and
    the copy [{...obj, [key]: value}]. *)
Class HostObject (V : Type) : Type := {
  get_member : V → StateKey → option V;
  spread_with : V → StateKey → V → V
}.

(** What [o[name]] finds in an object literal [o]: a property of [o]
    itself, a member of [Object.prototype], or nothing ([undefined]). *)
Inductive Member (A : Type) : Type :=
| Own (a : A)
| Inherited
| Absent.
Arguments Own {A} a.
Arguments Inherited {A}.
Arguments Absent {A}.

Section Galvanize.

Context {V : Type} `{!Host V}.


(** ** Data model *)

(** A function of the state map, as the sequence of top-level property
    reads it performs, each continued on the value that was read. *)
Inductive Fn (R : Type) : Type :=
| Return (r : R)
| Read (name : StateKey) (k : V → Fn R).
Arguments Return {R} r.
Arguments Read {R} name k.

(** Applying [fn] to an object whose property reads are answered by
    [getter], a handler with a private store [S]. *)
Fixpoint invoke {S R : Type} (getter : StateKey → S → V * S) (fn : Fn R) (s : S)
  : R * S :=
  match fn with
  | Return r => (r, s)
  | Read name k => let '(v, s') := getter name s in invoke getter (k v) s'
  end.

(** Reading [name] from the state object: a property that the object does
    not own is looked up in [Object.prototype], and is [undefined] when it
    is not there either. *)
Definition state_get (st : gmap string V) (name : StateKey) : V :=
  match st !! name with
  | Some v => v
  | None => default undefined (Object_prototype name)
  end.

Definition plain_getter (st : gmap string V) (name : StateKey) (s : unit)
  : V * unit := (state_get st name, s).

(** The proxy of [PropGetReporter(fetched)]: the [get] trap pushes the name
    on [fetched] and returns [undefined]. *)
Definition PropGetReporter (name : StateKey) (fetched : list StateKey)
  : V * list StateKey := (undefined, fetched ++ [name]).

(** An asynchronous request function: a plain function (identified by
    [rid]) whose body says whether a promise is returned ([true]) or [null]
    ([false]), or the closure built by [ThrottleRequest] around another
    request function, with its own [in_progress] cell. *)
Inductive RequestFn : Type :=
| Plain (rid : nat) (body : Fn bool)
| Throttled (cell : nat) (request : RequestFn).

Inductive DeriverFn : Type :=
| Sync (fn : Fn V)
| Async (r : RequestFn).

Record ExplicitlyDerived : Type := mkDerived {
  params : list StateKey;
  func : DeriverFn;
  order : option string
}.

(** The flag [is_request] goes with the kind of [func]. *)
Definition is_request (d : ExplicitlyDerived) : bool :=
  match func d with Async _ => true | Sync _ => false end.

Inductive Mode : Type := fast | accurate.

Definition Batch := list (StateKey * V).

Record StateGraph : Type := mkStateGraph {
  state : gmap string V;
  push_default_mode : Mode;
  derivers : list (StateKey * ExplicitlyDerived);
  deps : gmap string (list StateKey);
  global_watchers : list Watcher;
  watchers : gmap string (list Watcher)
}.

Inductive Event : Type :=
| Notified (watcher : Watcher) (key : StateKey)
| Requested (rid : nat)
| ConsoleError (reason : V)
| UnhandledRejection (reason : V).

Inductive Reaction : Type :=
| ClearInProgress (cell : nat)
| Deliver (key : StateKey).

#[global] Instance Reaction_eq_dec : EqDecision Reaction.
Proof. solve_decision. Defined.

Record Promise : Type := mkPromise {
  pid : nat;
  reactions : list Reaction
}.

Record Runtime : Type := mkRuntime {
  in_progress : gmap nat bool;
  promises : list Promise;
  next_promise : nat;
  events : list Event
}.

Record World : Type := mkWorld {
  graph : StateGraph;
  runtime : Runtime
}.

Inductive Outcome : Type :=
| Resolved (value : V)
| Rejected (reason : V).

(** ** Objects as association lists *)

(** [o[name]] *)
Fixpoint obj_get {A : Type} (name : StateKey) (o : list (StateKey * A)) : option A :=
  match o with
  | [] => None
  | (k, a) :: o' => if decide (k = name) then Some a else obj_get name o'
  end.

(** [o[name] = a]: an existing key keeps its place, a new one goes last. *)
Fixpoint obj_set {A : Type} (name : StateKey) (a : A) (o : list (StateKey * A))
  : list (StateKey * A) :=
  match o with
  | [] => [(name, a)]
  | (k, b) :: o' =>
      if decide (k = name) then (k, a) :: o' else (k, b) :: obj_set name a o'
  end.

(** [{...o1, ...o2}] *)
Definition obj_spread {A : Type} (o1 o2 : list (StateKey * A)) : list (StateKey * A) :=
  foldl (λ o '(k, a), obj_set k a o) o1 o2.

(** [Object.keys(o)] *)
Definition obj_keys {A : Type} (o : list (StateKey * A)) : list StateKey := o.*1.

(** [Object.assign(state, newState)] *)
Definition obj_assign (st : gmap string V) (newState : Batch) : gmap string V :=
  foldl (λ st '(k, v), <[k := v]> st) st newState.

(** ** Lookups in object literals *)

(** [name] is the name of a member of [Object.prototype]. *)
Definition inherited (name : StateKey) : bool :=
  match Object_prototype name with
  | Some _ => true
  | None => false
  end.

Definition ordinary (name : StateKey) : Prop := inherited name = false.

(** [this.derivers[name]]: the table owns the names the constructor was
    given, whatever they are. *)
Definition member {A : Type} (name : StateKey) (o : list (StateKey * A)) : Member A :=
  match obj_get name o with
  | Some a => Own a
  | None => if inherited name then Inherited else Absent
  end.

(** [this.deps[name]] and [this.watchers[name]].  These objects are only
    written by [o[name] = (o[name] || [])] and, for [watchers], by the
    assignment of [o[name].filter(..)]: under a name of [Object.prototype]
    they hold the inherited member or a copy of it, never an array. *)
Definition array_at {A : Type} (name : StateKey) (o : gmap string (list A))
  : Member (list A) :=
  if inherited name then Inherited
  else match o !! name with
       | Some a => Own a
       | None => Absent
       end.

(** [name in o] *)
Definition in_object {A : Type} (name : StateKey) (o : list (StateKey * A)) : bool :=
  bool_decide (name ∈ obj_keys o) || inherited name.

(** ** Field updates *)

Definition with_state (f : gmap string V → gmap string V) (w : World) : World :=
  let g := graph w in
  {| graph := {| state := f (state g);
                 push_default_mode := push_default_mode g;
                 derivers := derivers g;
                 deps := deps g;
                 global_watchers := global_watchers g;
                 watchers := watchers g |};
     runtime := runtime w |}.

Definition with_watchers (f : gmap string (list Watcher) → gmap string (list Watcher))
    (w : World) : World :=
  let g := graph w in
  {| graph := {| state := state g;
                 push_default_mode := push_default_mode g;
                 derivers := derivers g;
                 deps := deps g;
                 global_watchers := global_watchers g;
                 watchers := f (watchers g) |};
     runtime := runtime w |}.

Definition with_global_watchers (f : list Watcher → list Watcher) (w : World) : World :=
  let g := graph w in
  {| graph := {| state := state g;
                 push_default_mode := push_default_mode g;
                 derivers := derivers g;
                 deps := deps g;
                 global_watchers := f (global_watchers g);
                 watchers := watchers g |};
     runtime := runtime w |}.

Definition with_runtime (f : Runtime → Runtime) (w : World) : World :=
  {| graph := graph w; runtime := f (runtime w) |}.

Definition emit (es : list Event) (rt : Runtime) : Runtime :=
  {| in_progress := in_progress rt;
     promises := promises rt;
     next_promise := next_promise rt;
     events := events rt ++ es |}.

Definition flag (cell : nat) (rt : Runtime) : bool :=
  default false (in_progress rt !! cell).

Definition set_flag (cell : nat) (b : bool) (rt : Runtime) : Runtime :=
  {| in_progress := <[cell := b]> (in_progress rt);
     promises := promises rt;
     next_promise := next_promise rt;
     events := events rt |}.

(** A new pending promise; its identity is [next_promise rt]. *)
Definition new_promise (rt : Runtime) : Runtime :=
  {| in_progress := in_progress rt;
     promises := promises rt ++ [{| pid := next_promise rt; reactions := [] |}];
     next_promise := S (next_promise rt);
     events := events rt |}.

(** [p.then(..)], [p.catch(..)], [p.finally(..)]: one more reaction on the
    chain that hangs from promise [p]. *)
Definition add_reaction (p : nat) (r : Reaction) (rt : Runtime) : Runtime :=
  {| in_progress := in_progress rt;
     promises :=
       (λ pr, if decide (pid pr = p)
              then {| pid := pid pr; reactions := reactions pr ++ [r] |}
              else pr) <$> promises rt;
     next_promise := next_promise rt;
     events := events rt |}.

Definition remove_promise (p : nat) (rt : Runtime) : Runtime :=
  {| in_progress := in_progress rt;
     promises := filter (λ pr, pid pr ≠ p) (promises rt);
     next_promise := next_promise rt;
     events := events rt |}.

(** ** Dependency extractor and throttle *)

(** Calling a request function on an object whose reads go to [getter].
    The result is the promise returned, if any. *)
Fixpoint call_request {S : Type} (getter : StateKey → S → V * S) (r : RequestFn)
    (s : S) (rt : Runtime) : option nat * S * Runtime :=
  match r with
  | Plain rid body =>
      let rt := emit [Requested rid] rt in
      let '(p, s) := invoke getter body s in
      if (p : bool) then (Some (next_promise rt), s, new_promise rt)
      else (None, s, rt)
  | Throttled cell request =>
      if flag cell rt then (None, s, rt)
      else
        let '(p, s, rt) := call_request getter request s rt in
        match p with
        | Some p =>
            let rt := set_flag cell true rt in
            (Some p, s, add_reaction p (ClearInProgress cell) rt)
        | None => (None, s, rt)
        end
  end.

(** [ThrottleRequest(request)]: a closure with a fresh [in_progress = false]. *)
Definition ThrottleRequest (request : RequestFn) (rt : Runtime) : RequestFn * Runtime :=
  let cell := fresh (dom (in_progress rt)) in
  (Throttled cell request, set_flag cell false rt).

(** [ExtractDeriver(fn)]: [fn] is called once on the reporter and what it
    returns is dropped: a promise it returns is left with the [finally] of
    the throttle closures it went through and with no handler.  The
    functions of the model do not throw, so the [catch] branch is not
    reached. *)
Definition ExtractDeriver (fn : DeriverFn) (rt : Runtime) : ExplicitlyDerived * Runtime :=
  let proplist := [] in
  match fn with
  | Sync f =>
      let '(_, proplist) := invoke PropGetReporter f proplist in
      ({| params := proplist; func := fn; order := None |}, rt)
  | Async r =>
      let '(_, proplist, rt) := call_request PropGetReporter r proplist rt in
      ({| params := proplist; func := fn; order := None |}, rt)
  end.

(** The keys read by [fn] when every read is answered by [undefined], in
    the order of the reads. *)
Fixpoint probe_reads {R : Type} (fn : Fn R) : list StateKey :=
  match fn with
  | Return _ => []
  | Read name k => name :: probe_reads (k undefined)
  end.

(** ** Watcher registry *)

(** [watch(name, watcher)]; the closure it returns is
    [unwatch name watcher].  Under a name that [Object.prototype] has,
    [this.watchers[name] || []] is the inherited member and [a.push] is not
    a function: [None]. *)
Definition watch (name : StateKey) (watcher : Watcher) (w : World) : option World :=
  match array_at name (watchers (graph w)) with
  | Own a => Some (with_watchers (λ ws, <[name := a ++ [watcher]]> ws) w)
  | Absent => Some (with_watchers (λ ws, <[name := [watcher]]> ws) w)
  | Inherited => None
  end.

(** [() => this.watchers[name] = this.watchers[name].filter(x => x !== watcher)].
    Calling [filter] on a missing list, or on an inherited member, throws:
    [None]. *)
Definition unwatch (name : StateKey) (watcher : Watcher) (w : World) : option World :=
  match array_at name (watchers (graph w)) with
  | Own a => Some (with_watchers (λ ws, <[name := filter (λ x, x ≠ watcher) a]> ws) w)
  | Absent | Inherited => None
  end.

(** [watch_all(watcher)]; the closure it returns is [unwatch_all watcher]. *)
Definition watch_all (watcher : Watcher) (w : World) : World :=
  with_global_watchers (λ ws, ws ++ [watcher]) w.

Definition unwatch_all (watcher : Watcher) (w : World) : World :=
  with_global_watchers (λ ws, filter (λ x, x ≠ watcher) ws) w.

(** [dispatch_change(key)]: [w && w.forEach(..)] throws on an inherited
    member, which is truthy and has no [forEach]. *)
Definition dispatch_change (key : StateKey) (w : World) : option World :=
  match array_at key (watchers (graph w)) with
  | Own a =>
      Some (with_runtime
              (emit ((λ watcher, Notified watcher key) <$> (a ++ global_watchers (graph w))))
              w)
  | Absent =>
      Some (with_runtime
              (emit ((λ watcher, Notified watcher key) <$> global_watchers (graph w))) w)
  | Inherited => None
  end.

(** ** Propagation engine *)

(** [update(key, newState)].  When [this.derivers[key]] is an inherited
    member, it is truthy, its [is_request] is [undefined] and its [func] is
    not a function: [None]. *)
Definition update (key : StateKey) (newState : Batch) (w : World) : option World :=
  match member key (derivers (graph w)) with
  | Own d =>
      match func d with
      | Async r =>
          if in_object key newState then dispatch_change key w
          else
            let '(x, _, rt) :=
              call_request (plain_getter (state (graph w))) r () (runtime w) in
            match x with
            | Some x => Some (with_runtime (λ _, add_reaction x (Deliver key) rt) w)
            | None => Some (with_runtime (λ _, rt) w)
            end
      | Sync f =>
          let '(v, _) := invoke (plain_getter (state (graph w))) f () in
          dispatch_change key (with_state (λ st, <[key := v]> st) w)
      end
  | Inherited => None
  | Absent => Some w
  end.

(** [push_fast]: the loop, then the whole.  [dep.forEach] throws when
    [this.deps[n]] is an inherited member. *)
Fixpoint push_fast_loop (fuel : nat) (newState : Batch)
    (queue visited : list StateKey) (w : World) : option (list StateKey * World) :=
  match queue with
  | [] => Some (visited, w)
  | n :: queue =>
      match fuel with
      | 0 => None
      | S fuel =>
          let visited := visited ++ [n] in
          match update n newState w with
          | Some w =>
              match array_at n (deps (graph w)) with
              | Own dep => push_fast_loop fuel newState (queue ++ dep) visited w
              | Absent => push_fast_loop fuel newState queue visited w
              | Inherited => None
              end
          | None => None
          end
      end
  end.

Definition push_fast (fuel : nat) (newState : Batch) (w : World)
  : option (list StateKey * World) :=
  let visited := [] in
  let queue := obj_keys newState in
  let w := with_state (λ st, obj_assign st newState) w in
  push_fast_loop fuel newState queue visited w.

(** [Set<StateKey>]: the elements in insertion order, each once. *)
Definition set_has (x : StateKey) (s : list StateKey) : bool := bool_decide (x ∈ s).
Definition set_add (x : StateKey) (s : list StateKey) : list StateKey :=
  if set_has x s then s else s ++ [x].
Definition set_delete (x : StateKey) (s : list StateKey) : list StateKey :=
  filter (λ y, y ≠ x) s.

(** The first loop of [push_accurate]; [dep.filter] throws on an inherited
    member. *)
Fixpoint closure_loop (fuel : nat) (w : World) (queue to_be_updated : list StateKey)
  : option (list StateKey) :=
  match queue with
  | [] => Some to_be_updated
  | front :: queue =>
      match fuel with
      | 0 => None
      | S fuel =>
          let to_be_updated := set_add front to_be_updated in
          match array_at front (deps (graph w)) with
          | Own dep =>
              closure_loop fuel w
                (queue ++ filter (λ d, negb (set_has d to_be_updated)) dep)
                to_be_updated
          | Absent => closure_loop fuel w queue to_be_updated
          | Inherited => None
          end
      end
  end.

(** [canUpdate(key)]; an inherited member is truthy and has no [params]. *)
Definition canUpdate (w : World) (to_be_updated : list StateKey) (key : StateKey)
  : option bool :=
  match member key (derivers (graph w)) with
  | Own d =>
      Some (foldl (λ acc x, acc && x) true
              ((λ d, negb (set_has d to_be_updated)) <$> params d))
  | Inherited => None
  | Absent => Some true
  end.

(** One [for (const u of to_be_updated)] pass.  [us] is what is left to
    visit: the body removes the visited element only, so the iteration runs
    over the elements the set had when the pass began. *)
Fixpoint stabilize_pass (newState : Batch) (us : list StateKey)
    (to_be_updated order : list StateKey) (any_updated : bool) (w : World)
  : option (list StateKey * list StateKey * bool * World) :=
  match us with
  | [] => Some (to_be_updated, order, any_updated, w)
  | u :: us =>
      match canUpdate w to_be_updated u with
      | Some true =>
          match update u newState w with
          | Some w =>
              stabilize_pass newState us (set_delete u to_be_updated) (order ++ [u]) true w
          | None => None
          end
      | Some false => stabilize_pass newState us to_be_updated order any_updated w
      | None => None
      end
  end.

(** [while (to_be_updated.size > 0) { ... if (!any_updated) break; }] *)
Fixpoint stabilize (fuel : nat) (newState : Batch)
    (to_be_updated order : list StateKey) (w : World)
  : option (list StateKey * list StateKey * World) :=
  match to_be_updated with
  | [] => Some (to_be_updated, order, w)
  | _ :: _ =>
      match fuel with
      | 0 => None
      | S fuel =>
          match stabilize_pass newState to_be_updated to_be_updated order false w with
          | Some (to_be_updated, order, any_updated, w) =>
              if any_updated then stabilize fuel newState to_be_updated order w
              else Some (to_be_updated, order, w)
          | None => None
          end
      end
  end.

(** [Array.prototype.sort(cmp)]: the stable sort. *)
Fixpoint sort_insert {A : Type} (cmp : A → A → comparison) (x : A) (l : list A) : list A :=
  match l with
  | [] => [x]
  | y :: l' =>
      match cmp x y with
      | Gt => y :: sort_insert cmp x l'
      | _ => x :: l
      end
  end.

Definition array_sort {A : Type} (cmp : A → A → comparison) (l : list A) : list A :=
  foldr (sort_insert cmp) [] l.

(** [this.derivers[a]?.order || String(a)]: the empty string is falsy, and
    so is the [order] of an inherited member, which is [undefined]. *)
Definition tie_break (w : World) (a : StateKey) : string :=
  match obj_get a (derivers (graph w)) with
  | Some d =>
      match order d with
      | Some o => if decide (o = "") then a else o
      | None => a
      end
  | None => a
  end.

Definition cycle_compare (w : World) (a b : StateKey) : comparison :=
  localeCompare (tie_break w a) (tie_break w b).

(** The last loop of [push_accurate], over the sorted array. *)
Fixpoint cycle_fallback (newState : Batch) (us : list StateKey)
    (to_be_updated order : list StateKey) (w : World)
  : option (list StateKey * list StateKey * World) :=
  match us with
  | [] => Some (to_be_updated, order, w)
  | u :: us =>
      match update u newState w with
      | Some w => cycle_fallback newState us (set_delete u to_be_updated) (order ++ [u]) w
      | None => None
      end
  end.

Definition push_accurate (fuel : nat) (newState : Batch) (w : World)
  : option (list StateKey * World) :=
  match closure_loop fuel w (obj_keys newState) [] with
  | None => None
  | Some to_be_updated =>
      let order := [] in
      let w := with_state (λ st, obj_assign st newState) w in
      match stabilize fuel newState to_be_updated order w with
      | None => None
      | Some (to_be_updated, order, w) =>
          match to_be_updated with
          | _ :: _ =>
              let sorted := array_sort (cycle_compare w) to_be_updated in
              match cycle_fallback newState sorted to_be_updated order w with
              | Some (_, order, w) => Some (order, w)
              | None => None
              end
          | [] => Some (order, w)
          end
      end
  end.

(** [push(newState, mode = null)]; [None] when the call does not return:
    the loop of [push_fast] does not end, or a lookup throws. *)
Definition push (fuel : nat) (newState : Batch) (mode : option Mode) (w : World)
  : option (list StateKey * World) :=
  match default (push_default_mode (graph w)) mode with
  | fast => push_fast fuel newState w
  | accurate => push_accurate fuel newState w
  end.

(** ** Settlement of a pending promise *)

(** The reactions of the chain, in the order they were attached:
    [finally(() => in_progress = false)] of every throttle closure the
    promise went through, then [then(value => this.push({[key]: value}))
    .catch(reason => console.error(reason))] of [update].  When that [push]
    does not return, [react] has no result: [None].  (A [push] that throws
    is caught by the [catch], which logs the error; what the graph is like
    then is not followed.) *)
Fixpoint react (fuel : nat) (o : Outcome) (rs : list Reaction) (w : World) : option World :=
  match rs with
  | [] => Some w
  | ClearInProgress cell :: rs =>
      react fuel o rs (with_runtime (set_flag cell false) w)
  | Deliver key :: rs =>
      match o with
      | Resolved value =>
          match push fuel [(key, value)] None w with
          | Some (_, w) => react fuel o rs w
          | None => None
          end
      | Rejected reason =>
          react fuel o rs (with_runtime (emit [ConsoleError reason]) w)
      end
  end.

Definition is_deliver (r : Reaction) : bool :=
  match r with
  | Deliver _ => true
  | ClearInProgress _ => false
  end.

(** A rejection that comes to the end of a chain on which [update] has
    put no [catch] is an unhandled rejection, of which the host is told
    after the reactions have run. *)
Definition report_unhandled (o : Outcome) (rs : list Reaction) (w : World) : World :=
  match o with
  | Rejected reason =>
      if existsb is_deliver rs then w
      else with_runtime (emit [UnhandledRejection reason]) w
  | Resolved _ => w
  end.

(** Promise [p] settles with outcome [o]. *)
Definition settle (fuel : nat) (p : nat) (o : Outcome) (w : World) : option World :=
  match list_find (λ pr, pid pr = p) (promises (runtime w)) with
  | Some (_, pr) =>
      report_unhandled o (reactions pr)
        <$> react fuel o (reactions pr) (with_runtime (remove_promise p) w)
  | None => Some w
  end.

(** ** Construction *)

Inductive DeriverArg : Type :=
| AutoDerived (fn : Fn V)
| Explicit (d : ExplicitlyDerived).

Inductive RequestArg : Type :=
| AutoDerivedRequest (r : RequestFn)
| ExplicitRequest (ps : list StateKey) (r : RequestFn) (o : option string).

(** [StateGraphArgs], without [properties].  An entry whose value is falsy
    is [None]. *)
Record StateGraphArgs : Type := mkArgs {
  args_derivers : list (StateKey * option DeriverArg);
  args_requests : list (StateKey * option RequestArg);
  args_defaults : option Batch
}.

Definition entries {A : Type} (o : list (StateKey * option A)) : list (StateKey * A) :=
  omap (λ '(name, value), (λ a, (name, a)) <$> value) o.

Definition from_deriver_arg (value : DeriverArg) (rt : Runtime)
  : ExplicitlyDerived * Runtime :=
  match value with
  | AutoDerived fn => ExtractDeriver (Sync fn) rt
  | Explicit d => (d, rt)
  end.

Definition from_request_arg (value : RequestArg) (rt : Runtime)
  : ExplicitlyDerived * Runtime :=
  match value with
  | AutoDerivedRequest r => ExtractDeriver (Async r) rt
  | ExplicitRequest ps r o => ({| params := ps; func := Async r; order := o |}, rt)
  end.

(** [Object.fromEntries(es.map(f))], the calls of [f] in order. *)
Fixpoint from_entries {A : Type} (f : A → Runtime → ExplicitlyDerived * Runtime)
    (es : list (StateKey * A)) (acc : list (StateKey * ExplicitlyDerived))
    (rt : Runtime) : list (StateKey * ExplicitlyDerived) * Runtime :=
  match es with
  | [] => (acc, rt)
  | (name, value) :: es =>
      let '(d, rt) := f value rt in
      from_entries f es (obj_set name d acc) rt
  end.

(** [const a = (this.deps[dep] = (this.deps[dep] || [])); a.push(name)]:
    under a name of [Object.prototype], [a] is the inherited member and
    [a.push] is not a function. *)
Definition add_dep (name : StateKey) (ds : gmap string (list StateKey)) (dep : StateKey)
  : option (gmap string (list StateKey)) :=
  match array_at dep ds with
  | Own a => Some (<[dep := a ++ [name]]> ds)
  | Absent => Some (<[dep := [name]]> ds)
  | Inherited => None
  end.

(** [for (const name in this.derivers) if (hasOwnProperty ..)
    for (const dep of deriver.params) ..] *)
Definition build_deps (ders : list (StateKey * ExplicitlyDerived))
  : option (gmap string (list StateKey)) :=
  foldl (λ acc '(name, deriver),
           ds ← acc;
           foldl (λ acc dep, ds ← acc; add_dep name ds dep) (Some ds) (params deriver))
        (Some ∅) ders.

Definition new_StateGraph (fuel : nat) (args : StateGraphArgs) (rt : Runtime)
  : option World :=
  let '(ders1, rt) := from_entries from_deriver_arg (entries (args_derivers args)) [] rt in
  let '(ders2, rt) := from_entries from_request_arg (entries (args_requests args)) [] rt in
  match build_deps (obj_spread ders1 ders2) with
  | Some index =>
      let this :=
        {| graph := {| state := ∅;
                       push_default_mode := accurate;
                       derivers := obj_spread ders1 ders2;
                       deps := index;
                       global_watchers := [];
                       watchers := ∅ |};
           runtime := rt |} in
      match args_defaults args with
      | Some defaults => snd <$> push fuel defaults None this
      | None => Some this
      end
  | None => None
  end.

(** ** The lists of the index and of the registry *)

(** The dependents that the index lists for [n], none when it has no list. *)
Definition this_deps (w : World) (n : StateKey) : list StateKey :=
  default [] (deps (graph w) !! n).

(** The watchers registered for [key], then those registered for all
    keys. *)
Definition notified (key : StateKey) (g : StateGraph) : list Watcher :=
  default [] (watchers g !! key) ++ global_watchers g.

(** ** The engine on ordinary names *)

(** The operations above with every lookup taken as one under a name that
    [Object.prototype] does not have: total wherever the loops end.  They
    are a device of the proofs: the operations are shown to agree with
    them when every name they look up is ordinary and to have no result
    otherwise, and the statements about the engine are about the
    operations above. *)

(** [dispatch_change(key)] *)
Definition dispatch_change_ok (key : StateKey) (w : World) : World :=
  with_runtime (emit ((λ watcher, Notified watcher key) <$> notified key (graph w))) w.

(** [update(key, newState)] *)
Definition update_ok (key : StateKey) (newState : Batch) (w : World) : World :=
  match obj_get key (derivers (graph w)) with
  | Some d =>
      match func d with
      | Async r =>
          if bool_decide (key ∈ obj_keys newState) then dispatch_change_ok key w
          else
            let '(x, _, rt) :=
              call_request (plain_getter (state (graph w))) r () (runtime w) in
            match x with
            | Some x => with_runtime (λ _, add_reaction x (Deliver key) rt) w
            | None => with_runtime (λ _, rt) w
            end
      | Sync f =>
          let '(v, _) := invoke (plain_getter (state (graph w))) f () in
          dispatch_change_ok key (with_state (λ st, <[key := v]> st) w)
      end
  | None => w
  end.

(** [push_fast]: the loop, then the whole. *)
Fixpoint push_fast_loop_ok (fuel : nat) (newState : Batch)
    (queue visited : list StateKey) (w : World) : option (list StateKey * World) :=
  match queue with
  | [] => Some (visited, w)
  | n :: queue =>
      match fuel with
      | 0 => None
      | S fuel =>
          let visited := visited ++ [n] in
          let w := update_ok n newState w in
          let dep := this_deps w n in
          push_fast_loop_ok fuel newState (queue ++ dep) visited w
      end
  end.

Definition push_fast_ok (fuel : nat) (newState : Batch) (w : World)
  : option (list StateKey * World) :=
  let visited := [] in
  let queue := obj_keys newState in
  let w := with_state (λ st, obj_assign st newState) w in
  push_fast_loop_ok fuel newState queue visited w.

(** The first loop of [push_accurate]. *)
Fixpoint closure_loop_ok (fuel : nat) (w : World) (queue to_be_updated : list StateKey)
  : option (list StateKey) :=
  match queue with
  | [] => Some to_be_updated
  | front :: queue =>
      match fuel with
      | 0 => None
      | S fuel =>
          let to_be_updated := set_add front to_be_updated in
          let dep := this_deps w front in
          closure_loop_ok fuel w
            (queue ++ filter (λ d, negb (set_has d to_be_updated)) dep)
            to_be_updated
      end
  end.

(** [canUpdate(key)] *)
Definition canUpdate_ok (w : World) (to_be_updated : list StateKey) (key : StateKey) : bool :=
  match obj_get key (derivers (graph w)) with
  | Some d =>
      foldl (λ acc x, acc && x) true
        ((λ d, negb (set_has d to_be_updated)) <$> params d)
  | None => true
  end.

(** One [for (const u of to_be_updated)] pass. *)
Fixpoint stabilize_pass_ok (newState : Batch) (us : list StateKey)
    (to_be_updated order : list StateKey) (any_updated : bool) (w : World)
  : list StateKey * list StateKey * bool * World :=
  match us with
  | [] => (to_be_updated, order, any_updated, w)
  | u :: us =>
      if canUpdate_ok w to_be_updated u then
        stabilize_pass_ok newState us (set_delete u to_be_updated) (order ++ [u]) true
          (update_ok u newState w)
      else stabilize_pass_ok newState us to_be_updated order any_updated w
  end.

(** [while (to_be_updated.size > 0) { ... if (!any_updated) break; }] *)
Fixpoint stabilize_ok (fuel : nat) (newState : Batch)
    (to_be_updated order : list StateKey) (w : World)
  : option (list StateKey * list StateKey * World) :=
  match to_be_updated with
  | [] => Some (to_be_updated, order, w)
  | _ :: _ =>
      match fuel with
      | 0 => None
      | S fuel =>
          let '(to_be_updated, order, any_updated, w) :=
            stabilize_pass_ok newState to_be_updated to_be_updated order false w in
          if any_updated then stabilize_ok fuel newState to_be_updated order w
          else Some (to_be_updated, order, w)
      end
  end.

(** The last loop of [push_accurate], over the sorted array. *)
Fixpoint cycle_fallback_ok (newState : Batch) (us : list StateKey)
    (to_be_updated order : list StateKey) (w : World)
  : list StateKey * list StateKey * World :=
  match us with
  | [] => (to_be_updated, order, w)
  | u :: us =>
      cycle_fallback_ok newState us (set_delete u to_be_updated) (order ++ [u])
        (update_ok u newState w)
  end.

Definition push_accurate_ok (fuel : nat) (newState : Batch) (w : World)
  : option (list StateKey * World) :=
  match closure_loop_ok fuel w (obj_keys newState) [] with
  | None => None
  | Some to_be_updated =>
      let order := [] in
      let w := with_state (λ st, obj_assign st newState) w in
      match stabilize_ok fuel newState to_be_updated order w with
      | None => None
      | Some (to_be_updated, order, w) =>
          match to_be_updated with
          | _ :: _ =>
              let sorted := array_sort (cycle_compare w) to_be_updated in
              let '(_, order, w) :=
                cycle_fallback_ok newState sorted to_be_updated order w in
              Some (order, w)
          | [] => Some (order, w)
          end
      end
  end.

(** [push(newState, mode = null)] *)
Definition push_ok (fuel : nat) (newState : Batch) (mode : option Mode) (w : World)
  : option (list StateKey * World) :=
  match default (push_default_mode (graph w)) mode with
  | fast => push_fast_ok fuel newState w
  | accurate => push_accurate_ok fuel newState w
  end.

(** The index of the constructor. *)
Definition add_dep_ok (name : StateKey) (ds : gmap string (list StateKey)) (dep : StateKey)
  : gmap string (list StateKey) :=
  <[dep := default [] (ds !! dep) ++ [name]]> ds.

Definition build_deps_ok (ders : list (StateKey * ExplicitlyDerived))
  : gmap string (list StateKey) :=
  foldl (λ ds '(name, deriver), foldl (add_dep_ok name) ds (params deriver)) ∅ ders.

(** The constructor. *)
Definition new_StateGraph_ok (fuel : nat) (args : StateGraphArgs) (rt : Runtime)
  : option World :=
  let '(ders1, rt) := from_entries from_deriver_arg (entries (args_derivers args)) [] rt in
  let '(ders2, rt) := from_entries from_request_arg (entries (args_requests args)) [] rt in
  let this :=
    {| graph := {| state := ∅;
                   push_default_mode := accurate;
                   derivers := obj_spread ders1 ders2;
                   deps := build_deps_ok (obj_spread ders1 ders2);
                   global_watchers := [];
                   watchers := ∅ |};
       runtime := rt |} in
  match args_defaults args with
  | Some defaults => snd <$> push_ok fuel defaults None this
  | None => Some this
  end.

(** ** Notions used in the statements *)

(** [fn(state)] *)
Definition apply_fn {R : Type} (fn : Fn R) (st : gmap string V) : R :=
  (invoke (plain_getter st) fn ()).1.

(** The world after [Object.assign(this.state, newState)]. *)
Definition assigned (newState : Batch) (w : World) : World :=
  with_state (λ st, obj_assign st newState) w.

(** [update(k, newState)] for every [k] of [ks], from left to right. *)
Definition updates (newState : Batch) (ks : list StateKey) (w : World) : option World :=
  foldl (λ acc k, w ← acc; update k newState w) (Some w) ks.

(** The same on ordinary names. *)
Definition updates_ok (newState : Batch) (ks : list StateKey) (w : World) : World :=
  foldl (λ w k, update_ok k newState w) w ks.

(** What [update] never writes. *)
Definition static (w : World)
  : Mode * list (StateKey * ExplicitlyDerived) * gmap string (list StateKey)
    * list Watcher * gmap string (list Watcher) :=
  (push_default_mode (graph w), derivers (graph w), deps (graph w),
   global_watchers (graph w), watchers (graph w)).

(** The pending set once the keys of [done] have been updated. *)
Definition pending_after (closure done : list StateKey) : list StateKey :=
  filter (λ k, k ∉ done) closure.

(** Every key of [order] was eligible when its turn came: none of the
    [params] of its deriver was pending any more. *)
Definition eligible_in_turn (w : World) (closure order : list StateKey) : Prop :=
  ∀ l1 u l2, order = l1 ++ u :: l2 →
    canUpdate w (pending_after closure l1) u = Some true.

(** The same on ordinary names. *)
Definition eligible_in_turn_ok (w : World) (closure order : list StateKey) : Prop :=
  ∀ l1 u l2, order = l1 ++ u :: l2 → canUpdate_ok w (pending_after closure l1) u = true.

(** The invariant of the two update loops of [push_accurate]: [w0] is the
    world after the batch was assigned, [closure] the set computed by the
    first loop. *)
Definition accurate_inv (newState : Batch) (w0 : World) (closure : list StateKey)
    (to_be_updated order : list StateKey) (w : World) : Prop :=
  to_be_updated = pending_after closure order
  ∧ NoDup order
  ∧ order ⊆ closure
  ∧ w = updates_ok newState order w0.

(** [x] may stand before [y] in a sorted array: [cmp(x, y) <= 0]. *)
Definition not_after {A : Type} (cmp : A → A → comparison) (x y : A) : Prop :=
  cmp x y ≠ Gt.

(** A set that holds every key found in the dependency index. *)
Definition index_keys (w : World) : gset string :=
  ⋃ ((λ kv, list_to_set kv.2) <$> map_to_list (deps (graph w))).

(** The index of a graph is the one the constructor builds from its
    derivers. *)
Definition indexed (w : World) : Prop :=
  build_deps (derivers (graph w)) = Some (deps (graph w)).

(** The same on ordinary names. *)
Definition indexed_ok (w : World) : Prop :=
  deps (graph w) = build_deps_ok (derivers (graph w)).


(** ** Notions used for requests *)

(** The [in_progress] cells a request function goes through, outermost
    first, and the plain function at its core. *)
Fixpoint cells_of (r : RequestFn) : list nat :=
  match r with
  | Plain _ _ => []
  | Throttled cell request => cell :: cells_of request
  end.

Fixpoint rid_of (r : RequestFn) : nat :=
  match r with
  | Plain rid _ => rid
  | Throttled _ request => rid_of request
  end.

Fixpoint body_of (r : RequestFn) : Fn bool :=
  match r with
  | Plain _ body => body
  | Throttled _ request => body_of request
  end.

Definition set_flags (cells : list nat) (b : bool) (rt : Runtime) : Runtime :=
  foldr (λ cell rt, set_flag cell b rt) rt cells.

(** The runtime once [r] has called its plain function and got a promise:
    the call is on record, the promise is pending with the [finally]
    reactions of the closures, innermost first, and their flags are set. *)
Definition started (r : RequestFn) (rt : Runtime) : Runtime :=
  {| in_progress := in_progress (set_flags (cells_of r) true rt);
     promises :=
       promises rt
       ++ [{| pid := next_promise rt;
              reactions := ClearInProgress <$> reverse (cells_of r) |}];
     next_promise := S (next_promise rt);
     events := events rt ++ [Requested (rid_of r)] |}.

(** The pending promises whose settlement clears [cell]. *)
Definition outstanding (cell : nat) (rt : Runtime) : list Promise :=
  filter (λ pr, ClearInProgress cell ∈ reactions pr) (promises rt).

(** The invariant of the runtime: promise identities are not reused, the
    reactions of a promise are the [finally] of closures followed by the
    deliveries of [update], and a cell is set exactly when one pending
    promise is to clear it. *)
Definition single_flight (rt : Runtime) : Prop :=
  (∀ pr, pr ∈ promises rt → pid pr < next_promise rt)
  ∧ NoDup (pid <$> promises rt)
  ∧ (∀ pr, pr ∈ promises rt →
       ∃ cells keys, reactions pr = (ClearInProgress <$> cells) ++ (Deliver <$> keys))
  ∧ ∀ cell, length (outstanding cell rt) = if flag cell rt then 1 else 0.

(** The calls of the plain function [rid] on record. *)
Definition is_requested (rid : nat) (e : Event) : bool :=
  match e with
  | Requested r => bool_decide (r = rid)
  | _ => false
  end.

Definition requested (rid : nat) (rt : Runtime) : nat :=
  length (filter (λ e, is_requested rid e = true) (events rt)).

(** [pr'] is [pr] with, possibly, more reactions. *)
Definition extends (pr pr' : Promise) : Prop :=
  pid pr' = pid pr ∧ ∀ x, x ∈ reactions pr → x ∈ reactions pr'.

(** ** Notions used for whole graphs *)

(** [fn] reads nothing but the keys of [keys]. *)
Definition reads_within {R : Type} (keys : list StateKey) (fn : Fn R) : Prop :=
  ∀ st st' : gmap string V,
    (∀ k, k ∈ keys → st !! k = st' !! k) → apply_fn fn st = apply_fn fn st'.

(** Every synchronous deriver reads nothing but its [params]. *)
Definition honest (w : World) : Prop :=
  ∀ k d f, obj_get k (derivers (graph w)) = Some d → func d = Sync f →
    reads_within (params d) f.

(** The reads of [fn] are the same whatever the values read. *)
Fixpoint uniform {R : Type} (fn : Fn R) : Prop :=
  match fn with
  | Return _ => True
  | Read _ k => ∀ v, probe_reads (k v) = probe_reads (k undefined) ∧ uniform (k v)
  end.

(** [rank] goes down along the index: the graph has no dependency cycle. *)
Definition ranked (w : World) (rank : StateKey → nat) : Prop :=
  ∀ k d, d ∈ this_deps w k → rank d < rank k.

(** The number of visits that [key] causes in [push_fast] when the
    dependents of a key are at most [r] levels deep. *)
Fixpoint weight (w : World) (r : nat) (key : StateKey) : nat :=
  match r with
  | 0 => 1
  | S r' => S (sum_list_with (weight w r') (this_deps w key))
  end.

(** The calls of watchers on record, in call order. *)
Definition notification (e : Event) : option (Watcher * StateKey) :=
  match e with
  | Notified watcher key => Some (watcher, key)
  | _ => None
  end.

Definition notifications (rt : Runtime) : list (Watcher * StateKey) :=
  omap notification (events rt).

(** [update(key, newState)] reaches [dispatch_change(key)]: the deriver of
    [key] is synchronous, or it is a request and [key] is in the batch. *)
Definition announces (newState : Batch) (w : World) (key : StateKey) : bool :=
  match obj_get key (derivers (graph w)) with
  | Some d =>
      match func d with
      | Sync _ => true
      | Async _ => in_object key newState
      end
  | None => false
  end.

(** The same on ordinary names. *)
Definition announces_ok (newState : Batch) (w : World) (key : StateKey) : bool :=
  match obj_get key (derivers (graph w)) with
  | Some d =>
      match func d with
      | Sync _ => true
      | Async _ => bool_decide (key ∈ obj_keys newState)
      end
  | None => false
  end.

(** The watcher calls of [update(key, newState)]. *)
Definition announced_ok (newState : Batch) (w : World) (key : StateKey)
  : list (Watcher * StateKey) :=
  if announces_ok newState w key then (λ watcher, (watcher, key)) <$> notified key (graph w)
  else [].

(** [d] is [k] or depends on it, directly or through other keys: it is
    reached from [k] along the index. *)
Inductive reaches (w : World) (k : StateKey) : StateKey → Prop :=
| reaches_refl : reaches w k k
| reaches_dep d d' : reaches w k d → d' ∈ this_deps w d → reaches w k d'.

(** The index lists no name of [Object.prototype] as a dependent. *)
Definition ordinary_index (w : World) : Prop :=
  ∀ k d, d ∈ this_deps w k → ordinary d.

(** ** Notions used for runs *)

(** One step of a run in which promise [p] does not settle: a call of
    [push], of [watch], of [watch_all] or of a closure they returned, that
    returns, or the settlement of another promise. *)
Inductive step_besides (p : nat) (w w' : World) : Prop :=
| step_push fuel newState mode order :
    push fuel newState mode w = Some (order, w') → step_besides p w w'
| step_settle fuel q o :
    q ≠ p → settle fuel q o w = Some w' → step_besides p w w'
| step_watch name watcher :
    watch name watcher w = Some w' → step_besides p w w'
| step_unwatch name watcher :
    unwatch name watcher w = Some w' → step_besides p w w'
| step_watch_all watcher :
    w' = watch_all watcher w → step_besides p w w'
| step_unwatch_all watcher :
    w' = unwatch_all watcher w → step_besides p w w'.

(** [w'] comes after [w] in a run in which [p] does not settle. *)
Definition later (p : nat) : World → World → Prop := rtc (step_besides p).

(** ** Property handles on the state of a graph *)

Context `{!HostObject V}.

(** The handles reached from [StateGraph.prop] by [wrapped] and [navigate].
    Such a handle has no [onset] callback of its own: [prop] passes none,
    [navigate] hands on the [onset] of its base, and the callback that
    [StateGraphProperty.wrapped] installs calls the missing [onset] of its
    base.  The [watch] method of a handle is not modelled.  An absent
    [getter] or [setter] is [None]. *)
Inductive Property : Type :=
| StateGraphProperty (propname : StateKey)
| WrappedProperty (base : Property) (getter setter : option (V → V))
| NavigatedProperty (base : Property) (key : StateKey).


(** [wrapped(getter, setter)] and [navigate(key)] of any handle. *)
Definition wrapped (getter setter : option (V → V)) (p : Property) : Property :=
  WrappedProperty p getter setter.

Definition navigate (key : StateKey) (p : Property) : Property :=
  NavigatedProperty p key.

(** [get propname()] *)
Fixpoint propname (p : Property) : StateKey :=
  match p with
  | StateGraphProperty propname => propname
  | WrappedProperty base _ _ => propname base
  | NavigatedProperty _ key => key
  end.

(** [f ? f(x) : x] *)
Definition map_with (f : option (V → V)) (x : V) : V :=
  match f with
  | Some f => f x
  | None => x
  end.

(** [get value()]; [None] is the [TypeError] of reading a member of
    [undefined] or [null]. *)
Fixpoint get_value (p : Property) (w : World) : option V :=
  match p with
  | StateGraphProperty propname => Some (state_get (state (graph w)) propname)
  | WrappedProperty base getter _ =>
      x ← get_value base w; Some (map_with getter x)
  | NavigatedProperty base key =>
      obj ← get_value base w; get_member obj key
  end.

(** [set value(newValue)]; [None] when the setter throws or the [push] at
    the bottom does not return. *)
Fixpoint set_value (fuel : nat) (p : Property) (newValue : V) (w : World)
  : option World :=
  match p with
  | StateGraphProperty propname => snd <$> push fuel [(propname, newValue)] None w
  | WrappedProperty base _ setter => set_value fuel base (map_with setter newValue) w
  | NavigatedProperty base key =>
      obj ← get_value base w; set_value fuel base (spread_with obj key newValue) w
  end.

(** The key of the graph that a handle reads and writes. *)
Fixpoint root (p : Property) : StateKey :=
  match p with
  | StateGraphProperty propname => propname
  | WrappedProperty base _ _ => root base
  | NavigatedProperty base _ => root base
  end.

(** Every [getter] of the handle undoes its [setter]. *)
Fixpoint lawful (p : Property) : Prop :=
  match p with
  | StateGraphProperty _ => True
  | WrappedProperty base getter setter =>
      lawful base ∧ ∀ x, map_with getter (map_with setter x) = x
  | NavigatedProperty base _ => lawful base
  end.


End Galvanize.
Arguments Fn : clear implicits.
Arguments Return {V R} r.
Arguments Read {V R} name k.
Arguments RequestFn : clear implicits.
Arguments DeriverFn : clear implicits.
Arguments ExplicitlyDerived : clear implicits.
Arguments Batch : clear implicits.
Arguments StateGraph : clear implicits.
Arguments Event : clear implicits.
Arguments Runtime : clear implicits.
Arguments World : clear implicits.
Arguments Outcome : clear implicits.
Arguments DeriverArg : clear implicits.
Arguments RequestArg : clear implicits.
Arguments StateGraphArgs : clear implicits.
Arguments Property : clear implicits.

(** ** [ObjectProperty]: a property of an external object *)

Module ObjectProperty.

(** A callback handed to a property ([onset], a watcher), by identity. *)
Abbreviation PropertyWatcher := nat (only parsing).

Section ObjectProperty.

Context {V : Type} `{!Host V}.

(** What lives outside the instance: the external objects, the arrays of
    watchers (an array can be passed to several instances) and the calls of
    callbacks on record, each with the [propname] of the property it was
    given. *)
Record Heap : Type := mkHeap {
  objects : gmap nat (gmap string V);
  arrays : gmap nat (list PropertyWatcher);
  calls : list (PropertyWatcher * StateKey)
}.

(** The fields of an instance: [state] and [watchers] are references. *)
Record t : Type := mk {
  state : nat;
  propname : StateKey;
  watchers : nat;
  onset : option PropertyWatcher
}.

(** [new ObjectProperty(state, propname, watchers = [], onset)]: without a
    [watchers] argument the instance gets an array of its own. *)
Definition new (state : nat) (propname : StateKey) (watchers : option nat)
    (onset : option PropertyWatcher) (h : Heap) : t * Heap :=
  match watchers with
  | Some a => (mk state propname a onset, h)
  | None =>
      let a := fresh (dom (arrays h)) in
      (mk state propname a onset,
       {| objects := objects h; arrays := <[a := []]> (arrays h); calls := calls h |})
  end.

(** [get value()]: the external object is an object literal, read as the
    state of a graph is; [None] when the reference is dangling. *)
Definition get_value (p : t) (h : Heap) : option V :=
  obj ← objects h !! state p; Some (state_get obj (propname p)).

(** [this.onset && this.onset(this); this.watchers.forEach(w => w(this))] *)
Definition on_changed (p : t) (h : Heap) : option Heap :=
  ws ← arrays h !! watchers p;
  Some {| objects := objects h;
          arrays := arrays h;
          calls := calls h ++ ((λ c, (c, propname p)) <$> (option_list (onset p) ++ ws)) |}.

(** [set value(newValue)] *)
Definition set_value (p : t) (newValue : V) (h : Heap) : option Heap :=
  obj ← objects h !! state p;
  on_changed p
    {| objects := <[state p := <[propname p := newValue]> obj]> (objects h);
       arrays := arrays h;
       calls := calls h |}.

(** [watch(watcher)]: [this.watchers.push(watcher)]. *)
Definition watch (p : t) (watcher : PropertyWatcher) (h : Heap) : option Heap :=
  ws ← arrays h !! watchers p;
  Some {| objects := objects h;
          arrays := <[watchers p := ws ++ [watcher]]> (arrays h);
          calls := calls h |}.

(** The closure that [watch] returns:
    [() => this.watchers = this.watchers.filter(x => x !== watcher)].
    [filter] makes a new array, and the field of the instance is set to
    it. *)
Definition unwatch (p : t) (watcher : PropertyWatcher) (h : Heap) : option (t * Heap) :=
  ws ← arrays h !! watchers p;
  let a := fresh (dom (arrays h)) in
  Some (mk (state p) (propname p) a (onset p),
        {| objects := objects h;
           arrays := <[a := filter (λ x, x ≠ watcher) ws]> (arrays h);
           calls := calls h |}).

End ObjectProperty.
End ObjectProperty.

Arguments ObjectProperty.Heap : clear implicits.

(** ** A host for the examples *)

(** Values of the examples: [undefined], [NaN], integers small enough
    for [+] to be exact, strings, and the members of [Object.prototype], by
    name. *)
Inductive JsValue : Type :=
| JUndefined
| JNaN
| JNum (n : Z)
| JString (s : string)
| JBuiltin (name : string).

(** The names of the members of [Object.prototype]. *)
Definition Object_prototype_names : list string :=
  ["constructor"; "__defineGetter__"; "__defineSetter__"; "hasOwnProperty";
   "__lookupGetter__"; "__lookupSetter__"; "isPrototypeOf";
   "propertyIsEnumerable"; "toString"; "valueOf"; "__proto__"; "toLocaleString"].

(** [String(a)]: the member [constructor] is the function [Object], the
    member [__proto__] reads as [Object.prototype] itself, the others are
    functions that have their own names. *)
Definition js_string (a : JsValue) : string :=
  match a with
  | JUndefined => "undefined"
  | JNaN => "NaN"
  | JNum n => pretty n
  | JString s => s
  | JBuiltin name =>
      if decide (name = "__proto__") then "[object Object]"
      else "function " +:+ (if decide (name = "constructor") then "Object" else name)
           +:+ "() { [native code] }"
  end.

(** [a + b]: the sum of two numbers; the concatenation of the operands as
    strings as soon as one of them is a string, a function or an object;
    [NaN] when [undefined] or [NaN] meets a number. *)
Definition js_add (a b : JsValue) : JsValue :=
  match a, b with
  | JNum x, JNum y => JNum (x + y)
  | (JString _ | JBuiltin _), _ | _, (JString _ | JBuiltin _) =>
      JString (js_string a +:+ js_string b)
  | _, _ => JNaN
  end.

(** The collation of the examples, after the root collation of the
    Unicode CLDR on the printable characters of ASCII: the space, the
    punctuation, the symbols, the digits and the letters, in this order;
    a letter and its capital differ only when nothing else does, and then
    the small letter comes first.  Other characters come after the letters,
    by code. *)
Definition collation_order : list nat :=
  [32; 95; 45; 44; 59; 58; 33; 63; 46; 39; 34; 40; 41; 91; 93; 123; 125; 64; 42;
   47; 92; 38; 35; 37; 96; 94; 43; 60; 61; 62; 124; 126; 36;
   48; 49; 50; 51; 52; 53; 54; 55; 56; 57].

Definition is_capital (c : nat) : bool := (65 <=? c)%nat && (c <=? 90)%nat.

Definition is_small (c : nat) : bool := (97 <=? c)%nat && (c <=? 122)%nat.

(** The first weight of a character: its place among the characters that
    differ at the first level. *)
Definition primary_weight (c : nat) : nat :=
  if is_small c then 100 + (c - 97)
  else if is_capital c then 100 + (c - 65)
  else match list_find (λ x, x = c) collation_order with
       | Some (i, _) => i
       | None => 1000 + c
       end.

(** The weight that tells a capital from its small letter. *)
Definition case_weight (c : nat) : nat := if is_capital c then 1 else 0.

Definition char_codes (s : string) : list nat :=
  (λ c, Ascii.nat_of_ascii c) <$> String.list_ascii_of_string s.

Fixpoint compare_weights (a b : list nat) : comparison :=
  match a, b with
  | [], [] => Eq
  | [], _ :: _ => Lt
  | _ :: _, [] => Gt
  | x :: a, y :: b =>
      match Nat.compare x y with
      | Eq => compare_weights a b
      | c => c
      end
  end.

Definition locale_compare (a b : string) : comparison :=
  match compare_weights (primary_weight <$> char_codes a) (primary_weight <$> char_codes b) with
  | Eq => compare_weights (case_weight <$> char_codes a) (case_weight <$> char_codes b)
  | c => c
  end.

#[export] Instance js_host : Host JsValue :=
  {| undefined := JUndefined;
     localeCompare := locale_compare;
     Object_prototype name :=
       if bool_decide (name ∈ Object_prototype_names) then Some (JBuiltin name) else None |}.

Definition empty_runtime : Runtime JsValue :=
  {| in_progress := ∅; promises := []; next_promise := 0; events := [] |}.

(** [new StateGraph({ defaults: {A: 0}, derivers: {B: state => state.A + 5} })] *)
Definition B_plus_5 : Fn JsValue JsValue :=
  Read "A" (λ a, Return (js_add a (JNum 5))).

Definition example_args : StateGraphArgs JsValue :=
  {| args_derivers := [("B", Some (AutoDerived B_plus_5))];
     args_requests := [];
     args_defaults := Some [("A", JNum 0)] |}.

(** [fn] reads the same key twice: [state => state.A + state.A]. *)
Definition A_plus_A : Fn JsValue JsValue :=
  Read "A" (λ a, Read "A" (λ a', Return (js_add a a'))).

Definition example_graph : option (World JsValue) :=
  new_StateGraph 5 example_args empty_runtime.



Definition plus_1 (name : StateKey) : Fn JsValue JsValue :=
  Read name (λ v, Return (js_add v (JNum 1))).

(** [derivers: {src: s => s.peer, peer: s => s.src, mid: s => s.src + 1,
    leaf: s => s.mid + 1}]: the chain [src → mid → leaf], whose head is in
    a cycle with [peer]. *)
Definition side_cycle_args : StateGraphArgs JsValue :=
  {| args_derivers :=
       [("src", Some (AutoDerived (Read "peer" (λ v, Return v))));
        ("peer", Some (AutoDerived (Read "src" (λ v, Return v))));
        ("mid", Some (AutoDerived (plus_1 "src")));
        ("leaf", Some (AutoDerived (plus_1 "mid")))];
     args_requests := [];
     args_defaults := None |}.

Definition side_cycle_graph : option (World JsValue) :=
  new_StateGraph 5 side_cycle_args empty_runtime.

(** [defaults: {A: 0}, derivers: {C: s => s.B + 1, B: s => s.A + 5}] *)
Definition chain_args : StateGraphArgs JsValue :=
  {| args_derivers :=
       [("C", Some (AutoDerived (plus_1 "B")));
        ("B", Some (AutoDerived B_plus_5))];
     args_requests := [];
     args_defaults := Some [("A", JNum 0)] |}.

Definition chain_graph : option (World JsValue) :=
  new_StateGraph 5 chain_args empty_runtime.

(** [derivers: {X: s => s.Y + 1, Y: s => s.X + 1}] *)
Definition cycle_args : StateGraphArgs JsValue :=
  {| args_derivers :=
       [("X", Some (AutoDerived (plus_1 "Y")));
        ("Y", Some (AutoDerived (plus_1 "X")))];
     args_requests := [];
     args_defaults := None |}.

Definition cycle_graph : option (World JsValue) :=
  new_StateGraph 5 cycle_args empty_runtime.

(** The same cycle with tie-break strings that reverse the order of the
    names. *)
Definition ordered_cycle_args : StateGraphArgs JsValue :=
  {| args_derivers :=
       [("X", Some (Explicit {| params := ["Y"]; func := Sync (plus_1 "Y");
                                order := Some "b" |}));
        ("Y", Some (Explicit {| params := ["X"]; func := Sync (plus_1 "X");
                                order := Some "a" |}))];
     args_requests := [];
     args_defaults := None |}.

Definition ordered_cycle_graph : option (World JsValue) :=
  new_StateGraph 5 ordered_cycle_args empty_runtime.

(** [derivers: {a: s => s.B + 1, B: s => s.a + 1}]: a cycle between two
    names that the collation and the order of the character codes put in
    different orders. *)
Definition mixed_case_args : StateGraphArgs JsValue :=
  {| args_derivers :=
       [("a", Some (AutoDerived (plus_1 "B")));
        ("B", Some (AutoDerived (plus_1 "a")))];
     args_requests := [];
     args_defaults := None |}.

Definition mixed_case_graph : option (World JsValue) :=
  new_StateGraph 5 mixed_case_args empty_runtime.

(** The cycle with an empty tie-break string for [X] and the string
    ["W"] for [Y]. *)
Definition empty_order_args : StateGraphArgs JsValue :=
  {| args_derivers :=
       [("X", Some (Explicit {| params := ["Y"]; func := Sync (plus_1 "Y");
                                order := Some "" |}));
        ("Y", Some (Explicit {| params := ["X"]; func := Sync (plus_1 "X");
                                order := Some "W" |}))];
     args_requests := [];
     args_defaults := None |}.

Definition empty_order_graph : option (World JsValue) :=
  new_StateGraph 5 empty_order_args empty_runtime.



(** [requests: {R: {params: ["A"], func: request}}] with a request
    function that returns a promise, plain or wrapped by
    [ThrottleRequest]; watcher [0] is registered for [R]. *)
Definition request_args (r : RequestFn JsValue) : StateGraphArgs JsValue :=
  {| args_derivers := [];
     args_requests := [("R", Some (ExplicitRequest ["A"] r None))];
     args_defaults := None |}.

Definition unwatched_request_graph : option (World JsValue) :=
  new_StateGraph 5 (request_args (Plain 0 (Return true))) empty_runtime.

Definition request_graph : option (World JsValue) :=
  unwatched_request_graph ≫= watch "R" 0.

Definition throttled_graph : option (World JsValue) :=
  let '(r, rt) := ThrottleRequest (Plain 0 (Return true)) empty_runtime in
  new_StateGraph 5 (request_args r) rt.

(** [watch] in sequence. *)
Definition then_watch (name : StateKey) (watcher : Watcher)
    (w : option (World JsValue)) : option (World JsValue) :=
  w ← w; watch name watcher w.

(** The two cycles with watcher [0] on [X] and watcher [1] on [Y], after
    [push({Y: 1})]. *)
Definition watched_cycle : option (World JsValue) :=
  then_watch "Y" 1 (then_watch "X" 0 cycle_graph).

Definition watched_ordered_cycle : option (World JsValue) :=
  then_watch "Y" 1 (then_watch "X" 0 ordered_cycle_graph).

(** The example graph with watcher [0] registered for all keys and twice
    for [B], after one call of a closure that [watch] returned. *)
Definition resubscribed_graph : option (World JsValue) :=
  w ← then_watch "B" 0 (then_watch "B" 0 (watch_all 0 <$> example_graph));
  unwatch "B" 0 w.

(** [push] and [settle] in sequence. *)
Definition then_push (newState : Batch JsValue) (mode : option Mode)
    (w : option (World JsValue)) : option (World JsValue) :=
  w ← w; snd <$> push 5 newState mode w.

Definition then_settle (p : nat) (o : Outcome JsValue)
    (w : option (World JsValue)) : option (World JsValue) :=
  w ← w; settle 5 p o w.

Definition empty_world : World JsValue :=
  {| graph := {| state := ∅;
                 push_default_mode := accurate;
                 derivers := [];
                 deps := ∅;
                 global_watchers := [];
                 watchers := ∅ |};
     runtime := empty_runtime |}.

(** The world of an example, once built. *)
Definition the (w : option (World JsValue)) : World JsValue := default empty_world w.

(** [state[key]] in the world of an example. *)
Definition value_at (key : StateKey) (w : option (World JsValue)) : option JsValue :=
  w ← w; state (graph w) !! key.

(** What [push(newState, mode)] returns in the world of an example. *)
Definition order_of (newState : Batch JsValue) (mode : option Mode)
    (w : option (World JsValue)) : option (list StateKey) :=
  w ← w; fst <$> push 5 newState mode w.

(** The same with [fuel] steps for the loops. *)
Definition order_of_with (fuel : nat) (newState : Batch JsValue) (mode : option Mode)
    (w : option (World JsValue)) : option (list StateKey) :=
  w ← w; fst <$> push fuel newState mode w.

Definition events_of (w : option (World JsValue)) : option (list (Event JsValue)) :=
  w ← w; Some (events (runtime w)).

(** The throttled graph after [push({A: 1})], and the promise then
    pending. *)
Definition in_flight_world : World JsValue :=
  the (then_push [("A", JNum 1)] None throttled_graph).

Definition in_flight_promise : Promise :=
  {| pid := 0; reactions := [ClearInProgress 0; Deliver "R"] |}.

(** The request graph after [push({A: 1})], the resolution of its promise
    with [42] and a second [push({A: 2})]: promise [1] is pending. *)
Definition second_request : option (World JsValue) :=
  then_push [("A", JNum 2)] None
    (then_settle 0 (Resolved (JNum 42)) (then_push [("A", JNum 1)] None request_graph)).

(** The request graph after [push({A: 1})], where promise [0] is pending
    with the delivery for [R], and after a second [push({A: 2})]. *)
Definition first_request : option (World JsValue) :=
  then_push [("A", JNum 1)] None request_graph.

Definition two_requests : option (World JsValue) :=
  then_push [("A", JNum 2)] None first_request.

Definition first_promise : Promise := {| pid := 0; reactions := [Deliver "R"] |}.

(** ** A host with objects *)

(** Values with members: [undefined], integers, object literals and the
    members of [Object.prototype], by name. *)
Inductive JsData : Type :=
| DUndefined
| DNum (n : Z)
| DObject (members : list (string * JsData))
| DBuiltin (name : string).

#[export] Instance data_host : Host JsData :=
  {| undefined := DUndefined;
     localeCompare := locale_compare;
     Object_prototype name :=
       if bool_decide (name ∈ Object_prototype_names) then Some (DBuiltin name) else None |}.

(** The names of the members of [Number.prototype]. *)
Definition Number_prototype_names : list string :=
  ["constructor"; "toExponential"; "toFixed"; "toLocaleString"; "toPrecision";
   "toString"; "valueOf"].

(** [obj[key]] throws on [undefined]; on an object literal it is the
    member the object owns, else the member of [Object.prototype], else
    [undefined]; on a number it is [undefined] at a name that neither
    [Number.prototype] nor [Object.prototype] has.  What a number has at
    the other names, and what the members of [Object.prototype] have, is
    not described here: [None] as well.  [{...obj, [key]: value}] spreads
    the members that an object literal owns, and nothing out of
    [undefined], a number or a function. *)
#[export] Instance data_objects : HostObject JsData :=
  {| get_member obj key :=
       match obj with
       | DUndefined => None
       | DNum _ =>
           if bool_decide (key ∈ Number_prototype_names ++ Object_prototype_names)
           then None else Some DUndefined
       | DObject members =>
           Some (match obj_get key members with
                 | Some v => v
                 | None => default DUndefined (Object_prototype key)
                 end)
       | DBuiltin _ => None
       end;
     spread_with obj key value :=
       match obj with
       | DObject members => DObject (obj_set key value members)
       | _ => DObject [(key, value)]
       end |}.

(** A rank for the chain [A → B → C] of [chain_graph]. *)
Definition chain_rank (key : StateKey) : nat :=
  if decide (key = "A") then 2 else if decide (key = "B") then 1 else 0.

(** The chain with watcher [0] on [B] and watcher [1] on all keys. *)
Definition watched_chain : World JsValue :=
  the (watch_all 1 <$> (chain_graph ≫= watch "B" 0)).

(** [derivers: {R: s => s.A + 5, B: {params: ["A"], func: s => s.A + 5}},
    requests: {R: {params: ["A"], func: request}}]: the name [R] is given
    twice. *)
Definition override_args : StateGraphArgs JsValue :=
  {| args_derivers :=
       [("R", Some (AutoDerived B_plus_5));
        ("B", Some (Explicit {| params := ["A"]; func := Sync B_plus_5; order := None |}))];
     args_requests := [("R", Some (ExplicitRequest ["A"] (Plain 0 (Return true)) None))];
     args_defaults := None |}.

(** A request function wrapped by [ThrottleRequest] in a runtime that has
    the flag of the closure. *)
Definition throttled_request : RequestFn JsValue := Throttled 0 (Plain 0 (Return true)).

Definition throttle_runtime : Runtime JsValue := set_flag 0 false empty_runtime.

(** [defaults: {user: {name: 1, age: 2}}, derivers: {label: s => s.user}]
    over values with members, and the handles [prop("user")],
    [prop("user").navigate("name")], [prop("user").navigate("age")] and
    [prop("label")]. *)
Definition data_runtime : Runtime JsData :=
  {| in_progress := ∅; promises := []; next_promise := 0; events := [] |}.

Definition the_user : Fn JsData JsData := Read "user" (λ v, Return v).

Definition profile_args : StateGraphArgs JsData :=
  {| args_derivers := [("label", Some (AutoDerived the_user))];
     args_requests := [];
     args_defaults :=
       Some [("user", DObject [("name", DNum 1); ("age", DNum 2)])] |}.

Definition data_world : World JsData :=
  {| graph := {| state := ∅;
                 push_default_mode := accurate;
                 derivers := [];
                 deps := ∅;
                 global_watchers := [];
                 watchers := ∅ |};
     runtime := data_runtime |}.

Definition profile_graph : World JsData :=
  default data_world (new_StateGraph 5 profile_args data_runtime).

Definition user_prop : Property JsData := StateGraphProperty "user".

Definition user_name : Property JsData := navigate "name" user_prop.

Definition user_age : Property JsData := navigate "age" user_prop.





(** * Properties *)

Section Properties.

Context {V : Type} `{!Host V}.

Implicit Types (w : World V) (rt : Runtime V) (g : StateGraph V).
Implicit Types (key name : StateKey) (newState : Batch V).

(** ** Dependency extractor *)

Lemma invoke_reporter {R : Type} (fn : Fn V R) (fetched : list StateKey) :
  (invoke PropGetReporter fn fetched).2 = fetched ++ probe_reads fn.
Proof.
  revert fetched. induction fn as [r | name k IH]; intros fetched; simpl.
  - by rewrite app_nil_r.
  - rewrite IH. by rewrite <- app_assoc.
Qed.

(** C4 (amended): a bare function is called once on the reporter, every
    read of the reporter gives [undefined], the value returned by the call
    is dropped, and [params] lists every read in the order of the reads: a
    key read several times is listed as many times.  The same holds for a
    bare request function, whose call is on record. *)
Theorem ExtractDeriver_lists_every_read (fn : Fn V V) (rid : nat) (body : Fn V bool) rt :
  (∀ name fetched, (PropGetReporter name fetched).1 = undefined)
  ∧ ExtractDeriver (Sync fn) rt
    = ({| params := probe_reads fn; func := Sync fn; order := None |}, rt)
  ∧ (ExtractDeriver (Async (Plain rid body)) rt).1
    = {| params := probe_reads body; func := Async (Plain rid body); order := None |}
  ∧ events (ExtractDeriver (Async (Plain rid body)) rt).2 = events rt ++ [Requested rid].
Proof.
  split; [done |]. split.
  - unfold ExtractDeriver.
    pose proof (invoke_reporter fn []) as Hfetched.
    destruct (invoke PropGetReporter fn []) as [v proplist].
    simpl in Hfetched. by subst proplist.
  - unfold ExtractDeriver, call_request.
    pose proof (invoke_reporter body []) as Hfetched.
    destruct (invoke PropGetReporter body []) as [[|] proplist];
      simpl in Hfetched; by subst proplist.
Qed.

(** ** Watcher registry *)

Lemma filter_ne_idemp (watcher : Watcher) (a : list Watcher) :
  filter (λ x, x ≠ watcher) (filter (λ x, x ≠ watcher) a) = filter (λ x, x ≠ watcher) a.
Proof.
  induction a as [| x a IH]; [done |].
  rewrite filter_cons. case_decide as Hx; [| done].
  rewrite filter_cons. rewrite decide_True by done. by rewrite IH.
Qed.

Lemma not_elem_of_filter_ne (watcher : Watcher) (a : list Watcher) :
  watcher ∉ filter (λ x, x ≠ watcher) a.
Proof. intros Hin. apply list_elem_of_filter in Hin as [Hne _]. by apply Hne. Qed.

Lemma count_notified key g (watcher : Watcher) :
  filter (λ x, x = watcher) (notified key g)
  = filter (λ x, x = watcher) (default [] (watchers g !! key))
    ++ filter (λ x, x = watcher) (global_watchers g).
Proof. unfold notified. by rewrite filter_app. Qed.

Lemma filter_eq_of_filter_ne (watcher : Watcher) (a : list Watcher) :
  filter (λ x, x = watcher) (filter (λ x, x ≠ watcher) a) = [].
Proof.
  induction a as [| x a IH]; [done |].
  rewrite (filter_cons (λ x, x ≠ watcher)). case_decide as Hx; [| done].
  rewrite filter_cons. by rewrite decide_False.
Qed.

(** ** What [update] does to the graph *)

Lemma update_static_ok key newState w : static (update_ok key newState w) = static w.
Proof.
  unfold update_ok, static.
  destruct (obj_get key (derivers (graph w))) as [d |]; [| done].
  destruct (func d) as [f | r].
  - by destruct (invoke (plain_getter (state (graph w))) f ()).
  - case_bool_decide; [done |].
    destruct (call_request _ r () (runtime w)) as [[[x |] u] rt]; done.
Qed.

Lemma update_state_ok key newState w :
  state (graph (update_ok key newState w))
  = match obj_get key (derivers (graph w)) with
    | Some d =>
        match func d with
        | Sync f => <[key := apply_fn f (state (graph w))]> (state (graph w))
        | Async _ => state (graph w)
        end
    | None => state (graph w)
    end.
Proof.
  unfold update_ok, apply_fn.
  destruct (obj_get key (derivers (graph w))) as [d |]; [| done].
  destruct (func d) as [f | r].
  - by destruct (invoke (plain_getter (state (graph w))) f ()).
  - case_bool_decide; [done |].
    destruct (call_request _ r () (runtime w)) as [[[x |] u] rt]; done.
Qed.

Lemma update_no_deriver_ok key newState w :
  obj_get key (derivers (graph w)) = None → update_ok key newState w = w.
Proof. intros Hnone. unfold update_ok. by rewrite Hnone. Qed.

Lemma static_derivers w w' : static w = static w' → derivers (graph w) = derivers (graph w').
Proof. unfold static. by intros [= _ ? _ _ _]. Qed.

Lemma static_deps w w' : static w = static w' → deps (graph w) = deps (graph w').
Proof. unfold static. by intros [= _ _ ? _ _]. Qed.

Lemma assigned_static newState w : static (assigned newState w) = static w.
Proof. done. Qed.

Lemma updates_static_ok newState ks w : static (updates_ok newState ks w) = static w.
Proof.
  revert w. induction ks as [| k ks IH]; intros w; [done |].
  change (updates_ok newState (k :: ks) w)
    with (updates_ok newState ks (update_ok k newState w)).
  rewrite IH. apply update_static_ok.
Qed.

Lemma updates_app_ok newState ks1 ks2 w :
  updates_ok newState (ks1 ++ ks2) w = updates_ok newState ks2 (updates_ok newState ks1 w).
Proof. unfold updates_ok. by rewrite foldl_app. Qed.

Lemma canUpdate_static_ok w w' tbu key :
  static w = static w' → canUpdate_ok w tbu key = canUpdate_ok w' tbu key.
Proof. intros Hs. unfold canUpdate_ok. by rewrite (static_derivers _ _ Hs). Qed.

Lemma this_deps_static w w' n : static w = static w' → this_deps w n = this_deps w' n.
Proof. intros Hs. unfold this_deps. by rewrite (static_deps _ _ Hs). Qed.

Lemma tie_break_static w w' a : static w = static w' → tie_break w a = tie_break w' a.
Proof. intros Hs. unfold tie_break. by rewrite (static_derivers _ _ Hs). Qed.

(** [map(f).reduce((acc, x) => acc && x, true)] is the conjunction. *)
Lemma foldl_andb_true {A : Type} (f : A → bool) (l : list A) (acc : bool) :
  foldl (λ acc x, acc && x) acc (f <$> l) = true ↔ acc = true ∧ ∀ p, p ∈ l → f p = true.
Proof.
  revert acc. induction l as [| a l IH]; intros acc; simpl.
  - split; [intros ->; split; [done | by intros p ?%elem_of_nil] | by intros [-> _]].
  - rewrite IH. rewrite andb_true_iff. split.
    + intros [[-> Ha] Hl]. split; [done |].
      intros p [-> | Hp]%elem_of_cons; [done | by apply Hl].
    + intros [-> Hl]. split; [split; [done |] |].
      * apply Hl. by left.
      * intros p Hp. apply Hl. by right.
Qed.

Lemma canUpdate_true_ok w tbu key :
  canUpdate_ok w tbu key = true ↔
  ∀ d, obj_get key (derivers (graph w)) = Some d → ∀ p, p ∈ params d → p ∉ tbu.
Proof.
  unfold canUpdate_ok. destruct (obj_get key (derivers (graph w))) as [d |].
  - rewrite foldl_andb_true. unfold set_has. split.
    + intros [_ Hall] d' [= <-] p Hp Hin.
      apply Hall in Hp. apply negb_true_iff, bool_decide_eq_false in Hp. by apply Hp.
    + intros Hall. split; [done |]. intros p Hp.
      apply negb_true_iff, bool_decide_eq_false. by eapply Hall.
  - split; [by intros _ d [=] | done].
Qed.

(** ** The update loops of [push_accurate] *)

Lemma set_delete_pending closure order u :
  set_delete u (pending_after closure order) = pending_after closure (order ++ [u]).
Proof.
  unfold set_delete, pending_after. rewrite list_filter_filter.
  apply list_filter_iff. intros k. rewrite elem_of_app, list_elem_of_singleton.
  split; [intros [Hne Hk] [Hin | ->]; by auto | intros Hk; split].
  - intros ->. apply Hk. by right.
  - intros Hin. apply Hk. by left.
Qed.

Lemma elem_of_pending closure order k :
  k ∈ pending_after closure order ↔ k ∈ closure ∧ k ∉ order.
Proof. unfold pending_after. rewrite list_elem_of_filter. tauto. Qed.

Lemma pending_after_nil closure : pending_after closure [] = closure.
Proof.
  unfold pending_after. induction closure as [| k closure IH]; [done |].
  rewrite filter_cons. rewrite decide_True by apply not_elem_of_nil. by rewrite IH.
Qed.

Lemma eligible_in_turn_snoc_ok w closure order u :
  eligible_in_turn_ok w closure order →
  canUpdate_ok w (pending_after closure order) u = true →
  eligible_in_turn_ok w closure (order ++ [u]).
Proof.
  intros Helig Hu l1 v l2 Heq.
  destruct l2 as [| x l2 _] using rev_ind.
  - apply app_inj_tail in Heq as [-> ->]. done.
  - rewrite app_comm_cons, app_assoc in Heq.
    apply app_inj_tail in Heq as [-> _]. by eapply Helig.
Qed.

Lemma accurate_inv_step_ok newState w0 closure tbu order w u :
  accurate_inv newState w0 closure tbu order w →
  u ∈ tbu →
  accurate_inv newState w0 closure (set_delete u tbu) (order ++ [u])
    (update_ok u newState w).
Proof.
  intros (-> & Hnd & Hsub & ->) Hu.
  apply elem_of_pending in Hu as [Hu Hfresh].
  split; [apply set_delete_pending |].
  split.
  { apply NoDup_app. split; [done |]. split; [| apply NoDup_singleton].
    intros x Hx ->%list_elem_of_singleton. done. }
  split.
  { intros x [Hx | ->%list_elem_of_singleton]%elem_of_app; [by apply Hsub | done]. }
  by rewrite updates_app_ok.
Qed.

Lemma set_delete_length u (tbu : list StateKey) :
  u ∈ tbu → length (set_delete u tbu) < length tbu.
Proof.
  intros Hu. unfold set_delete. induction tbu as [| x tbu IH]; [by apply elem_of_nil in Hu |].
  rewrite filter_cons. case_decide as Hx; simpl.
  - apply elem_of_cons in Hu as [-> | Hu]; [done |]. specialize (IH Hu). lia.
  - pose proof (length_filter (λ y, y ≠ u) tbu). lia.
Qed.

Lemma set_delete_subseteq u (us tbu : list StateKey) :
  u ∉ us → us ⊆ tbu → us ⊆ set_delete u tbu.
Proof.
  intros Hu Hsub x Hx. unfold set_delete. apply list_elem_of_filter.
  split; [by intros -> | by apply Hsub].
Qed.

Lemma stabilize_pass_spec_ok newState w0 closure us tbu order any w tbu' order' any' w' :
  accurate_inv newState w0 closure tbu order w →
  eligible_in_turn_ok w0 closure order →
  NoDup us → us ⊆ tbu →
  stabilize_pass_ok newState us tbu order any w = (tbu', order', any', w') →
  accurate_inv newState w0 closure tbu' order' w'
  ∧ eligible_in_turn_ok w0 closure order'
  ∧ length tbu' ≤ length tbu
  ∧ (any' = true → any = true ∨ length tbu' < length tbu)
  ∧ (any' = false →
       any = false ∧ tbu' = tbu ∧ ∀ u, u ∈ us → canUpdate_ok w0 tbu u = false).
Proof.
  revert tbu order any w.
  induction us as [| u us IH]; intros tbu order any w Hinv Helig Hnd Hsub Hpass.
  - simpl in Hpass. injection Hpass as <- <- <- <-.
    split; [done |]. split; [done |]. split; [lia |]. split; [by left |].
    intros ->. split; [done |]. split; [done |]. by intros u ?%elem_of_nil.
  - simpl in Hpass. apply NoDup_cons in Hnd as [Hu Hnd].
    assert (Hin : u ∈ tbu) by (apply Hsub; by left).
    assert (Hs : static w = static w0).
    { destruct Hinv as (_ & _ & _ & ->). apply updates_static_ok. }
    rewrite (canUpdate_static_ok _ _ _ _ Hs) in Hpass.
    destruct (canUpdate_ok w0 tbu u) eqn:Hcan.
    + pose proof (set_delete_length u tbu Hin) as Hlen.
      apply IH in Hpass as (Hinv' & Helig' & Hle & Hany & Hnone).
      * split; [done |]. split; [done |]. split; [lia |].
        split; [intros _; right; lia |].
        intros Hfalse. by apply Hnone in Hfalse as [? _].
      * by apply accurate_inv_step_ok.
      * apply eligible_in_turn_snoc_ok; [done |].
        destruct Hinv as (<- & _). done.
      * done.
      * apply set_delete_subseteq; [done |]. intros x Hx. apply Hsub. by right.
    + apply IH in Hpass as (Hinv' & Helig' & Hle & Hany & Hnone); try done.
      * split; [done |]. split; [done |]. split; [done |]. split; [done |].
        intros Hfalse. destruct (Hnone Hfalse) as (Hany0 & Heq & Hall).
        split; [done |]. split; [done |].
        intros x [-> | Hx]%elem_of_cons; [done | by apply Hall].
      * intros x Hx. apply Hsub. by right.
Qed.

Lemma pending_after_NoDup closure order : NoDup closure → NoDup (pending_after closure order).
Proof. apply NoDup_filter. Qed.

Lemma stabilize_spec_ok fuel newState w0 closure tbu order w tbu' order' w' :
  NoDup closure →
  accurate_inv newState w0 closure tbu order w →
  eligible_in_turn_ok w0 closure order →
  stabilize_ok fuel newState tbu order w = Some (tbu', order', w') →
  accurate_inv newState w0 closure tbu' order' w'
  ∧ eligible_in_turn_ok w0 closure order'
  ∧ ∀ u, u ∈ tbu' → canUpdate_ok w0 tbu' u = false.
Proof.
  intros Hclosure. revert tbu order w.
  induction fuel as [| fuel IH]; intros tbu order w Hinv Helig Hstab.
  - destruct tbu; [| done]. injection Hstab as <- <- <-.
    split; [done |]. split; [done |]. by intros u ?%elem_of_nil.
  - destruct tbu as [| t tbu0] eqn:Htbu.
    { injection Hstab as <- <- <-.
      split; [done |]. split; [done |]. by intros u ?%elem_of_nil. }
    rewrite <- Htbu in *. simpl in Hstab. rewrite Htbu in Hstab at 1.
    destruct (stabilize_pass_ok newState tbu tbu order false w)
      as [[[tbu1 order1] any1] w1] eqn:Hpass.
    assert (Hnd : NoDup tbu).
    { destruct Hinv as (-> & _). by apply pending_after_NoDup. }
    eapply stabilize_pass_spec_ok in Hpass as (Hinv1 & Helig1 & _ & _ & Hnone);
      [| done | done | done | done].
    destruct any1.
    + by eapply IH.
    + injection Hstab as <- <- <-.
      destruct (Hnone eq_refl) as (_ & -> & Hall). done.
Qed.

Lemma stabilize_terminates_ok fuel newState w0 closure tbu order w :
  NoDup closure →
  accurate_inv newState w0 closure tbu order w →
  eligible_in_turn_ok w0 closure order →
  length tbu < fuel →
  is_Some (stabilize_ok fuel newState tbu order w).
Proof.
  intros Hclosure. revert tbu order w.
  induction fuel as [| fuel IH]; intros tbu order w Hinv Helig Hlen; [lia |].
  destruct tbu as [| t tbu0] eqn:Htbu; [by eexists |].
  rewrite <- Htbu in *. simpl. rewrite Htbu at 1.
  destruct (stabilize_pass_ok newState tbu tbu order false w)
    as [[[tbu1 order1] any1] w1] eqn:Hpass.
  assert (Hnd : NoDup tbu).
  { destruct Hinv as (-> & _). by apply pending_after_NoDup. }
  eapply stabilize_pass_spec_ok in Hpass as (Hinv1 & Helig1 & _ & Hany & _);
    [| done | done | done | done].
  destruct any1; [| by eexists].
  destruct (Hany eq_refl) as [? | Hlt]; [done |].
  apply IH; [done | done | lia].
Qed.

Lemma cycle_fallback_spec_ok newState us tbu order w :
  cycle_fallback_ok newState us tbu order w
  = (foldl (λ s u, set_delete u s) tbu us, order ++ us, updates_ok newState us w).
Proof.
  revert tbu order w. induction us as [| u us IH]; intros tbu order w; simpl.
  - by rewrite app_nil_r.
  - rewrite IH. by rewrite <- app_assoc.
Qed.

(** ** [Array.prototype.sort] *)

Lemma sort_insert_Permutation {A : Type} (cmp : A → A → comparison) (x : A) (l : list A) :
  sort_insert cmp x l ≡ₚ x :: l.
Proof.
  induction l as [| y l IH]; [done |]. simpl.
  destruct (cmp x y); [done | done |].
  rewrite IH. apply Permutation_swap.
Qed.

Lemma array_sort_Permutation {A : Type} (cmp : A → A → comparison) (l : list A) :
  array_sort cmp l ≡ₚ l.
Proof.
  induction l as [| x l IH]; [done |]. simpl.
  rewrite sort_insert_Permutation. by rewrite IH.
Qed.

Lemma sort_insert_hd {A : Type} (cmp : A → A → comparison) (x z : A) (l : list A) :
  not_after cmp z x → HdRel (not_after cmp) z l →
  HdRel (not_after cmp) z (sort_insert cmp x l).
Proof.
  intros Hzx Hhd. destruct l as [| y l]; simpl; [by constructor |].
  apply HdRel_inv in Hhd. destruct (cmp x y); by constructor.
Qed.

Lemma sort_insert_Sorted {A : Type} (cmp : A → A → comparison) (x : A) (l : list A) :
  (∀ a b, cmp a b = Gt → cmp b a ≠ Gt) →
  Sorted (not_after cmp) l → Sorted (not_after cmp) (sort_insert cmp x l).
Proof.
  intros Htotal Hsorted. induction l as [| y l IH]; simpl.
  - by repeat constructor.
  - apply Sorted_inv in Hsorted as [Hl Hhd].
    destruct (cmp x y) eqn:Hxy.
    + constructor; [by constructor |]. constructor. unfold not_after. by rewrite Hxy.
    + constructor; [by constructor |]. constructor. unfold not_after. by rewrite Hxy.
    + constructor; [by apply IH |].
      apply sort_insert_hd; [by apply Htotal | done].
Qed.

Lemma array_sort_Sorted {A : Type} (cmp : A → A → comparison) (l : list A) :
  (∀ a b, cmp a b = Gt → cmp b a ≠ Gt) →
  Sorted (not_after cmp) (array_sort cmp l).
Proof.
  intros Htotal. induction l as [| x l IH]; simpl; [constructor |].
  by apply sort_insert_Sorted.
Qed.

(** ** The closure loop of [push_accurate] *)

Lemma set_add_elem x y (s : list StateKey) : y ∈ set_add x s ↔ y = x ∨ y ∈ s.
Proof.
  unfold set_add, set_has. case_bool_decide as Hx.
  - split; [by right | by intros [-> | ?]].
  - rewrite elem_of_app, list_elem_of_singleton. tauto.
Qed.

Lemma set_add_NoDup x (s : list StateKey) : NoDup s → NoDup (set_add x s).
Proof.
  intros Hnd. unfold set_add, set_has. case_bool_decide as Hx; [done |].
  apply NoDup_app. split; [done |]. split; [| apply NoDup_singleton].
  by intros y Hy ->%list_elem_of_singleton.
Qed.

Lemma closure_loop_NoDup_ok fuel w queue tbu closure :
  NoDup tbu → closure_loop_ok fuel w queue tbu = Some closure → NoDup closure.
Proof.
  revert queue tbu. induction fuel as [| fuel IH]; intros queue tbu Hnd Hloop.
  - destruct queue; [| done]. by injection Hloop as <-.
  - destruct queue as [| front queue]; [by injection Hloop as <- |].
    simpl in Hloop. eapply IH; [| done]. by apply set_add_NoDup.
Qed.

Lemma closure_loop_mono_ok fuel fuel' w queue tbu closure :
  fuel ≤ fuel' →
  closure_loop_ok fuel w queue tbu = Some closure →
  closure_loop_ok fuel' w queue tbu = Some closure.
Proof.
  revert fuel' queue tbu. induction fuel as [| fuel IH]; intros fuel' queue tbu Hle Hloop.
  - destruct queue; [| done]. by destruct fuel'.
  - destruct queue as [| front queue]; [by destruct fuel' |].
    destruct fuel' as [| fuel']; [lia |]. simpl in *.
    apply IH; [lia | done].
Qed.

Lemma closure_loop_subseteq_ok fuel w queue tbu closure :
  closure_loop_ok fuel w queue tbu = Some closure → tbu ⊆ closure ∧ queue ⊆ closure.
Proof.
  revert queue tbu. induction fuel as [| fuel IH]; intros queue tbu Hloop.
  - destruct queue; [| done]. injection Hloop as <-.
    split; [done | by intros x ?%elem_of_nil].
  - destruct queue as [| front queue].
    { injection Hloop as <-. split; [done | by intros x ?%elem_of_nil]. }
    simpl in Hloop. apply IH in Hloop as [Htbu Hqueue].
    split; [intros x Hx; apply Htbu, set_add_elem; by right |].
    intros x [-> | Hx]%elem_of_cons.
    + apply Htbu, set_add_elem. by left.
    + apply Hqueue, elem_of_app. by left.
Qed.

(** The closure holds what was marked, what was queued, and with every
    key its dependents. *)
Lemma closure_loop_closed_ok fuel w queue tbu closure :
  (∀ k d, k ∈ tbu → d ∈ this_deps w k → d ∈ tbu ∨ d ∈ queue) →
  closure_loop_ok fuel w queue tbu = Some closure →
  tbu ⊆ closure ∧ queue ⊆ closure
  ∧ ∀ k d, k ∈ closure → d ∈ this_deps w k → d ∈ closure.
Proof.
  revert queue tbu. induction fuel as [| fuel IH]; intros queue tbu Hinv Hloop.
  - destruct queue; [| done]. injection Hloop as <-.
    split; [done |]. split; [by intros x ?%elem_of_nil |].
    intros k d Hk Hd. destruct (Hinv k d Hk Hd) as [? | ?%elem_of_nil]; done.
  - destruct queue as [| front queue].
    { injection Hloop as <-.
      split; [done |]. split; [by intros x ?%elem_of_nil |].
      intros k d Hk Hd. destruct (Hinv k d Hk Hd) as [? | ?%elem_of_nil]; done. }
    simpl in Hloop. apply IH in Hloop as (Htbu & Hqueue & Hclosed).
    + split; [intros x Hx; apply Htbu, set_add_elem; by right |].
      split; [| done].
      intros x [-> | Hx]%elem_of_cons.
      * apply Htbu, set_add_elem. by left.
      * apply Hqueue, elem_of_app. by left.
    + intros k d Hk Hd.
      destruct (decide (d ∈ set_add front tbu)) as [Hin | Hnotin]; [by left |].
      right. apply set_add_elem in Hk as [-> | Hk].
      * apply elem_of_app. right. apply list_elem_of_filter. split; [| done].
        unfold set_has. apply Is_true_true, negb_true_iff, bool_decide_eq_false. done.
      * destruct (Hinv k d Hk Hd) as [Hd' | Hd'].
        -- exfalso. apply Hnotin, set_add_elem. by right.
        -- apply elem_of_cons in Hd' as [-> | Hd'].
           ++ exfalso. apply Hnotin, set_add_elem. by left.
           ++ apply elem_of_app. by left.
Qed.

(** Nothing else is in the closure: every key of it was marked, or queued,
    or is a dependent of a key of the closure. *)
Lemma closure_loop_reached_ok fuel w queue tbu closure :
  closure_loop_ok fuel w queue tbu = Some closure →
  ∀ k, k ∈ closure →
    k ∈ tbu ∨ k ∈ queue ∨ ∃ k', k' ∈ closure ∧ k ∈ this_deps w k'.
Proof.
  revert queue tbu. induction fuel as [| fuel IH]; intros queue tbu Hloop k Hk.
  - destruct queue; [| done]. injection Hloop as <-. by left.
  - destruct queue as [| front queue]; [injection Hloop as <-; by left |].
    simpl in Hloop.
    pose proof Hloop as Hloop'.
    apply closure_loop_subseteq_ok in Hloop' as [Hloop' _].
    destruct (IH _ _ Hloop k Hk) as [Hin | [Hin | Hin]].
    + apply set_add_elem in Hin as [-> | Hin]; [right; left; by left | by left].
    + apply elem_of_app in Hin as [Hin | Hin]; [right; left; by right |].
      apply list_elem_of_filter in Hin as [_ Hin].
      right. right. exists front. split; [| done].
      apply Hloop', set_add_elem. by left.
    + by right; right.
Qed.

Lemma set_add_already x (s : list StateKey) : x ∈ s → set_add x s = s.
Proof. intros Hx. unfold set_add, set_has. by rewrite bool_decide_eq_true_2. Qed.

Lemma set_add_fresh x (s : list StateKey) : x ∉ s → set_add x s = s ++ [x].
Proof. intros Hx. unfold set_add, set_has. by rewrite bool_decide_eq_false_2. Qed.

Lemma filter_marked_unmarked (tbu dep : list StateKey) :
  filter (λ x, x ∈ tbu) (filter (λ d, negb (set_has d tbu)) dep) = [].
Proof.
  induction dep as [| d dep IH]; [done |].
  rewrite (filter_cons (λ d, negb (set_has d tbu))). case_decide as Hd; [| done].
  rewrite filter_cons. rewrite decide_False; [done |].
  unfold set_has in Hd. apply Is_true_true, negb_true_iff, bool_decide_eq_false in Hd. done.
Qed.

(** The closure loop ends: a step either marks a key that was not marked,
    or takes from the queue one of the keys that are marked already, and
    what it appends to the queue is not marked. *)
Lemma closure_loop_terminates_in_ok (U : gset string) w :
  (∀ k d, d ∈ this_deps w k → d ∈ U) →
  ∀ n tbu, size (U ∖ list_to_set tbu) = n →
  ∀ m queue, (∀ x, x ∈ queue → x ∈ U) → length (filter (λ x, x ∈ tbu) queue) = m →
  ∃ fuel, is_Some (closure_loop_ok fuel w queue tbu).
Proof.
  intros Hdeps n. induction n as [n IHn] using lt_wf_ind. intros tbu Hsize m.
  induction m as [m IHm] using lt_wf_ind. intros queue Hqueue Hcount.
  destruct queue as [| front queue]; [exists 0; by eexists |].
  assert (Hnext : ∀ x, x ∈ queue ++
      filter (λ d, negb (set_has d (set_add front tbu))) (this_deps w front) → x ∈ U).
  { intros x [Hx | Hx]%elem_of_app; [apply Hqueue; by right |].
    apply list_elem_of_filter in Hx as [_ Hx]. by eapply Hdeps. }
  destruct (decide (front ∈ tbu)) as [Hin | Hnotin].
  - rewrite filter_cons, decide_True in Hcount by done. simpl in Hcount.
    destruct (IHm (length (filter (λ x, x ∈ tbu) queue)) ltac:(lia)
      (queue ++ filter (λ d, negb (set_has d tbu)) (this_deps w front)))
      as [fuel Hfuel].
    + rewrite <- (set_add_already front tbu Hin). exact Hnext.
    + rewrite filter_app, filter_marked_unmarked. by rewrite app_nil_r.
    + exists (S fuel). simpl. by rewrite set_add_already.
  - assert (Hlt : size (U ∖ list_to_set (set_add front tbu)) < n).
    { rewrite <- Hsize. apply subset_size.
      rewrite set_add_fresh by done. rewrite list_to_set_app_L. simpl.
      assert (HU : front ∈ U) by (apply Hqueue; by left).
      assert (Hfresh : front ∉ (list_to_set tbu : gset string))
        by by rewrite elem_of_list_to_set.
      clear -HU Hfresh. set_solver. }
    destruct (IHn _ Hlt (set_add front tbu) eq_refl _
      (queue ++ filter (λ d, negb (set_has d (set_add front tbu))) (this_deps w front))
      Hnext eq_refl) as [fuel Hfuel].
    exists (S fuel). done.
Qed.

Lemma this_deps_index_keys w k d : d ∈ this_deps w k → d ∈ index_keys w.
Proof.
  unfold this_deps, index_keys. intros Hd.
  destruct (deps (graph w) !! k) as [l |] eqn:Hl; [| by apply elem_of_nil in Hd].
  simpl in Hd. apply elem_of_union_list. exists (list_to_set l). split.
  - apply list_elem_of_fmap. exists (k, l). split; [done |].
    by apply elem_of_map_to_list.
  - by apply elem_of_list_to_set.
Qed.

Lemma closure_loop_terminates_ok w queue tbu :
  ∃ fuel, is_Some (closure_loop_ok fuel w queue tbu).
Proof.
  eapply (closure_loop_terminates_in_ok (index_keys w ∪ list_to_set queue) w).
  - intros k d Hd. apply elem_of_union. left. by eapply this_deps_index_keys.
  - done.
  - intros x Hx. apply elem_of_union. right. by apply elem_of_list_to_set.
  - done.
Qed.

(** ** [push_accurate] as a whole *)

Lemma sort_insert_ext {A : Type} (cmp cmp' : A → A → comparison) (x : A) (l : list A) :
  (∀ a b, cmp a b = cmp' a b) → sort_insert cmp x l = sort_insert cmp' x l.
Proof.
  intros Hext. induction l as [| y l IH]; [done |]. simpl.
  rewrite Hext, IH. done.
Qed.

Lemma array_sort_ext {A : Type} (cmp cmp' : A → A → comparison) (l : list A) :
  (∀ a b, cmp a b = cmp' a b) → array_sort cmp l = array_sort cmp' l.
Proof.
  intros Hext. induction l as [| x l IH]; [done |]. simpl.
  rewrite IH. by apply sort_insert_ext.
Qed.

Lemma cycle_compare_static w w' a b :
  static w = static w' → cycle_compare w a b = cycle_compare w' a b.
Proof.
  intros Hs. unfold cycle_compare.
  by rewrite (tie_break_static _ _ a Hs), (tie_break_static _ _ b Hs).
Qed.

Lemma eligible_in_turn_static_ok w w' closure order :
  static w = static w' → eligible_in_turn_ok w closure order → eligible_in_turn_ok w' closure order.
Proof.
  intros Hs Helig l1 u l2 Heq. rewrite <- (canUpdate_static_ok _ _ _ _ Hs). by eapply Helig.
Qed.

Lemma accurate_inv_init newState w0 closure :
  accurate_inv newState w0 closure closure [] w0.
Proof.
  split; [by rewrite pending_after_nil |]. split; [constructor |].
  split; [by intros x ?%elem_of_nil | done].
Qed.

Lemma eligible_in_turn_nil_ok w closure : eligible_in_turn_ok w closure [].
Proof. intros l1 u l2 Heq. by destruct l1. Qed.

(** The two update loops of [push_accurate], read off its result. *)
Lemma push_accurate_spec_ok fuel newState w order w' :
  push_accurate_ok fuel newState w = Some (order, w') →
  ∃ closure stab,
    closure_loop_ok fuel w (obj_keys newState) [] = Some closure
    ∧ NoDup closure
    ∧ NoDup stab
    ∧ stab ⊆ closure
    ∧ eligible_in_turn_ok w closure stab
    ∧ (∀ u, u ∈ pending_after closure stab →
         canUpdate_ok w (pending_after closure stab) u = false)
    ∧ order = stab ++ array_sort (cycle_compare w) (pending_after closure stab)
    ∧ w' = updates_ok newState order (assigned newState w).
Proof.
  unfold push_accurate_ok. intros Hpush.
  destruct (closure_loop_ok fuel w (obj_keys newState) []) as [closure |] eqn:Hclosure;
    [| done].
  fold (assigned newState w) in Hpush.
  destruct (stabilize_ok fuel newState closure [] (assigned newState w))
    as [[[tbu stab] w1] |] eqn:Hstab; [| done].
  assert (Hnd : NoDup closure) by (eapply closure_loop_NoDup_ok; [constructor | done]).
  eapply stabilize_spec_ok in Hstab as ((Htbu & Hstabnd & Hsub & Hw1) & Helig & Hstuck);
    [| done | apply accurate_inv_init | apply eligible_in_turn_nil_ok].
  subst tbu w1.
  pose proof (assigned_static newState w) as Hs.
  exists closure, stab.
  split; [done |]. split; [done |]. split; [done |]. split; [done |].
  split; [by eapply eligible_in_turn_static_ok |].
  split.
  { intros u Hu. rewrite <- (canUpdate_static_ok _ _ _ _ Hs). by apply Hstuck. }
  destruct (pending_after closure stab) as [| t rest] eqn:Hrest.
  - cbv beta iota zeta in Hpush. injection Hpush as <- <-. simpl. by rewrite app_nil_r.
  - cbv beta iota zeta in Hpush. rewrite <- Hrest in *.
    rewrite cycle_fallback_spec_ok in Hpush. injection Hpush as <- <-.
    assert (Hsort : array_sort (cycle_compare (updates_ok newState stab (assigned newState w)))
              (pending_after closure stab)
            = array_sort (cycle_compare w) (pending_after closure stab)).
    { apply array_sort_ext. intros a b. apply cycle_compare_static.
      by rewrite updates_static_ok. }
    rewrite Hsort. split; [done |]. by rewrite updates_app_ok.
Qed.

Lemma stabilize_mono_ok fuel fuel' newState tbu order w r :
  fuel ≤ fuel' →
  stabilize_ok fuel newState tbu order w = Some r →
  stabilize_ok fuel' newState tbu order w = Some r.
Proof.
  revert fuel' tbu order w. induction fuel as [| fuel IH]; intros fuel' tbu order w Hle Hstab.
  - destruct tbu; [| done]. by destruct fuel'.
  - destruct tbu as [| t tbu0] eqn:Htbu; [by destruct fuel' |].
    destruct fuel' as [| fuel']; [lia |]. rewrite <- Htbu in *.
    simpl in *. rewrite Htbu in Hstab at 1. rewrite Htbu at 1.
    destruct (stabilize_pass_ok newState tbu tbu order false w) as [[[tbu1 order1] any1] w1].
    destruct any1; [| done]. apply IH; [lia | done].
Qed.

(** [push_accurate] returns, whatever the graph. *)
Lemma push_accurate_terminates_ok newState w :
  ∃ n, ∀ fuel, n ≤ fuel → is_Some (push_accurate_ok fuel newState w).
Proof.
  destruct (closure_loop_terminates_ok w (obj_keys newState) []) as [n1 [closure Hclosure]].
  exists (n1 `max` S (length closure)). intros fuel Hfuel.
  unfold push_accurate_ok.
  rewrite (closure_loop_mono_ok n1 fuel _ _ _ closure) by (done || lia).
  fold (assigned newState w).
  assert (Hnd : NoDup closure) by (eapply closure_loop_NoDup_ok; [constructor | done]).
  destruct (stabilize_terminates_ok fuel newState (assigned newState w) closure closure []
    (assigned newState w) Hnd) as [[[tbu stab] w1] Hstab];
    [apply accurate_inv_init | apply eligible_in_turn_nil_ok | lia |].
  rewrite Hstab. destruct tbu; [by eexists |].
  rewrite cycle_fallback_spec_ok. by eexists.
Qed.

Lemma push_accurate_mono_ok fuel fuel' newState w r :
  fuel ≤ fuel' →
  push_accurate_ok fuel newState w = Some r → push_accurate_ok fuel' newState w = Some r.
Proof.
  intros Hle. unfold push_accurate_ok.
  destruct (closure_loop_ok fuel w (obj_keys newState) []) as [closure |] eqn:Hclosure;
    [| done].
  rewrite (closure_loop_mono_ok fuel fuel' _ _ _ closure) by done.
  destruct (stabilize_ok fuel newState closure [] _) as [r1 |] eqn:Hstab; [| done].
  by rewrite (stabilize_mono_ok fuel fuel' _ _ _ _ r1).
Qed.

Lemma stab_pending_Permutation (closure stab : list StateKey) :
  NoDup closure → NoDup stab → stab ⊆ closure →
  stab ++ pending_after closure stab ≡ₚ closure.
Proof.
  intros Hclosure Hstab Hsub. apply NoDup_Permutation.
  - apply NoDup_app. split; [done |]. split; [| by apply pending_after_NoDup].
    intros x Hx [_ Hnot]%elem_of_pending. done.
  - done.
  - intros x. rewrite elem_of_app, elem_of_pending. split.
    + intros [Hx | [Hx _]]; [by apply Hsub | done].
    + intros Hx. destruct (decide (x ∈ stab)); [by left | by right].
Qed.

(** ** [push_fast] *)

Lemma push_fast_loop_spec_ok fuel newState w0 queue visited w visited' w' :
  static w = static w0 →
  push_fast_loop_ok fuel newState queue visited w = Some (visited', w') →
  ∃ new,
    visited' = visited ++ new
    ∧ w' = updates_ok newState new w
    ∧ queue ⊆ new
    ∧ (∀ k d, k ∈ new → d ∈ this_deps w0 k → d ∈ new)
    ∧ ∀ k, k ∈ new → k ∈ queue ∨ ∃ k', k' ∈ new ∧ k ∈ this_deps w0 k'.
Proof.
  revert queue visited w.
  induction fuel as [| fuel IH]; intros queue visited w Hs Hloop.
  - destruct queue; [| done]. injection Hloop as <- <-.
    exists []. rewrite app_nil_r. split; [done |]. split; [done |].
    split; [done |]. split; by intros k ? ?%elem_of_nil || by intros k ?%elem_of_nil.
  - destruct queue as [| n queue].
    { injection Hloop as <- <-.
      exists []. rewrite app_nil_r. split; [done |]. split; [done |].
      split; [done |]. split; by intros k ? ?%elem_of_nil || by intros k ?%elem_of_nil. }
    simpl in Hloop.
    assert (Hs' : static (update_ok n newState w) = static w0)
      by (by rewrite update_static_ok).
    rewrite (this_deps_static _ _ n Hs') in Hloop.
    apply IH in Hloop as (new & -> & -> & Hqueue & Hclosed & Hreach); [| done].
    exists (n :: new). rewrite <- app_assoc. split; [done |]. split; [done |].
    split; [| split].
    + intros x [-> | Hx]%elem_of_cons; [by left |].
      right. apply Hqueue, elem_of_app. by left.
    + intros k d [-> | Hk]%elem_of_cons Hd; right.
      * apply Hqueue, elem_of_app. by right.
      * by eapply Hclosed.
    + intros k [-> | Hk]%elem_of_cons; [left; by left |].
      destruct (Hreach k Hk) as [[Hq | Hd]%elem_of_app | (k' & Hk' & Hd)].
      * left. by right.
      * right. exists n. split; [by left | done].
      * right. exists k'. split; [by right | done].
Qed.

Lemma push_fast_spec_ok fuel newState w visited w' :
  push_fast_ok fuel newState w = Some (visited, w') →
  w' = updates_ok newState visited (assigned newState w)
  ∧ obj_keys newState ⊆ visited
  ∧ (∀ k d, k ∈ visited → d ∈ this_deps w k → d ∈ visited)
  ∧ ∀ k, k ∈ visited →
      k ∈ obj_keys newState ∨ ∃ k', k' ∈ visited ∧ k ∈ this_deps w k'.
Proof.
  unfold push_fast_ok. fold (assigned newState w). intros Hloop.
  eapply (push_fast_loop_spec_ok _ _ w) in Hloop
    as (new & -> & -> & Hkeys & Hclosed & Hreach);
    [| apply assigned_static].
  done.
Qed.

Lemma push_fast_loop_mono_ok fuel fuel' newState queue visited w r :
  fuel ≤ fuel' →
  push_fast_loop_ok fuel newState queue visited w = Some r →
  push_fast_loop_ok fuel' newState queue visited w = Some r.
Proof.
  revert fuel' queue visited w.
  induction fuel as [| fuel IH]; intros fuel' queue visited w Hle Hloop.
  - destruct queue; [| done]. by destruct fuel'.
  - destruct queue as [| n queue]; [by destruct fuel' |].
    destruct fuel' as [| fuel']; [lia |]. simpl in *. apply IH; [lia | done].
Qed.

(** More fuel does not change what a push returns. *)
Lemma push_mono_ok fuel fuel' newState mode w r :
  fuel ≤ fuel' → push_ok fuel newState mode w = Some r → push_ok fuel' newState mode w = Some r.
Proof.
  intros Hle. unfold push_ok. destruct (default (push_default_mode (graph w)) mode).
  - unfold push_fast_ok. by apply push_fast_loop_mono_ok.
  - by apply push_accurate_mono_ok.
Qed.

(** ** The state after a sequence of updates *)

(** Only a synchronous deriver writes its key. *)
Lemma update_state_other_ok key newState w k :
  k ≠ key ∨ (∀ d, obj_get k (derivers (graph w)) = Some d → is_request d = true) →
  state (graph (update_ok key newState w)) !! k = state (graph w) !! k.
Proof.
  intros Hk. rewrite update_state_ok.
  destruct (obj_get key (derivers (graph w))) as [d |] eqn:Hd; [| done].
  destruct (func d) as [f | r] eqn:Hf; [| done].
  destruct Hk as [Hne | Hreq]; [by rewrite lookup_insert_ne |].
  destruct (decide (key = k)) as [-> | Hne]; [| by rewrite lookup_insert_ne].
  specialize (Hreq d Hd). unfold is_request in Hreq. by rewrite Hf in Hreq.
Qed.

Lemma updates_state_other_ok newState ks w k :
  k ∉ ks ∨ (∀ d, obj_get k (derivers (graph w)) = Some d → is_request d = true) →
  state (graph (updates_ok newState ks w)) !! k = state (graph w) !! k.
Proof.
  revert w. induction ks as [| key ks IH]; intros w Hk; [done |].
  change (updates_ok newState (key :: ks) w)
    with (updates_ok newState ks (update_ok key newState w)).
  rewrite IH.
  - apply update_state_other_ok. destruct Hk as [Hk | Hk]; [left | by right].
    intros ->. apply Hk. by left.
  - destruct Hk as [Hk | Hk]; [left; intros Hin; apply Hk; by right | right].
    by rewrite (static_derivers _ _ (update_static_ok key newState w)).
Qed.

Lemma obj_assign_lookup (st : gmap string V) newState k v :
  NoDup (obj_keys newState) → (k, v) ∈ newState → obj_assign st newState !! k = Some v.
Proof.
  unfold obj_assign, obj_keys. revert st.
  induction newState as [| [k' v'] newState IH]; intros st Hnd Hin;
    [by apply elem_of_nil in Hin |].
  simpl in *. apply NoDup_cons in Hnd as [Hfresh Hnd].
  apply elem_of_cons in Hin as [[= -> ->] | Hin]; [| by apply IH].
  clear IH Hnd. revert st. induction newState as [| [k'' v''] newState IH]; intros st.
  - simpl. by rewrite lookup_insert_eq.
  - simpl. apply not_elem_of_cons in Hfresh as [Hne Hfresh]. simpl in Hne.
    rewrite insert_insert_ne by done. by apply IH.
Qed.

Lemma push_accurate_order_ok fuel newState w order w' :
  push_accurate_ok fuel newState w = Some (order, w') →
  NoDup order
  ∧ obj_keys newState ⊆ order
  ∧ (∀ k d, k ∈ order → d ∈ this_deps w k → d ∈ order)
  ∧ ∀ k, k ∈ order →
      k ∈ obj_keys newState ∨ ∃ k', k' ∈ order ∧ k ∈ this_deps w k'.
Proof.
  intros Hpush.
  apply push_accurate_spec_ok in Hpush
    as (closure & stab & Hclosure & Hnd & Hstab & Hsub & _ & _ & -> & _).
  assert (Hperm : stab ++ array_sort (cycle_compare w) (pending_after closure stab)
                  ≡ₚ closure).
  { rewrite array_sort_Permutation. by apply stab_pending_Permutation. }
  pose proof (closure_loop_closed_ok _ _ _ _ _
    ltac:(by intros k d ?%elem_of_nil) Hclosure) as (_ & Hkeys & Hclosed).
  pose proof (closure_loop_reached_ok _ _ _ _ _ Hclosure) as Hreach.
  split; [by rewrite Hperm |].
  split; [intros k Hk; rewrite Hperm; by apply Hkeys |].
  split.
  - intros k d Hk Hd. rewrite Hperm in *. by eapply Hclosed.
  - intros k Hk. rewrite Hperm in Hk.
    destruct (Hreach k Hk) as [?%elem_of_nil | [? | (k' & Hk' & Hd)]]; [done | by left |].
    right. exists k'. by rewrite Hperm.
Qed.

(** ** The dependency index *)

Lemma add_dep_elem_ok name (ds : gmap string (list StateKey)) dep k x :
  x ∈ default [] (add_dep_ok name ds dep !! k)
  ↔ x ∈ default [] (ds !! k) ∨ (k = dep ∧ x = name).
Proof.
  unfold add_dep_ok. destruct (decide (dep = k)) as [-> | Hne].
  - rewrite lookup_insert_eq. simpl. rewrite elem_of_app, list_elem_of_singleton.
    naive_solver.
  - rewrite lookup_insert_ne by done. naive_solver.
Qed.

Lemma add_deps_elem_ok name (ps : list StateKey) (ds : gmap string (list StateKey)) k x :
  x ∈ default [] (foldl (add_dep_ok name) ds ps !! k)
  ↔ x ∈ default [] (ds !! k) ∨ (k ∈ ps ∧ x = name).
Proof.
  revert ds. induction ps as [| p ps IH]; intros ds; simpl.
  - split; [by left | by intros [? | [?%elem_of_nil _]]].
  - rewrite IH, add_dep_elem_ok, elem_of_cons. naive_solver.
Qed.

(** [name] is listed under [dep] exactly when a deriver registered as
    [name] has [dep] among its [params]. *)
Lemma build_deps_elem_ok (ders : list (StateKey * ExplicitlyDerived V)) dep name :
  name ∈ default [] (build_deps_ok ders !! dep)
  ↔ ∃ d, (name, d) ∈ ders ∧ dep ∈ params d.
Proof.
  unfold build_deps_ok.
  assert (Hgen : ∀ ds,
    name ∈ default [] (foldl (λ ds '(name, deriver),
        foldl (add_dep_ok name) ds (params deriver)) ds ders !! dep)
    ↔ name ∈ default [] (ds !! dep) ∨ ∃ d, (name, d) ∈ ders ∧ dep ∈ params d).
  { induction ders as [| [n d] ders IH]; intros ds; simpl.
    - split; [by left | intros [? | (d & ?%elem_of_nil & _)]; done].
    - rewrite IH, add_deps_elem_ok. split.
      + intros [[? | [Hdep ->]] | (d' & Hin & Hdep)].
        * by left.
        * right. exists d. split; [by left | done].
        * right. exists d'. split; [by right | done].
      + intros [? | (d' & [[= -> ->] | Hin]%elem_of_cons & Hdep)].
        * left. by left.
        * left. by right.
        * right. by exists d'. }
  rewrite Hgen. rewrite lookup_empty. simpl. split.
  - by intros [?%elem_of_nil | ?].
  - by right.
Qed.

Lemma obj_get_elem {A : Type} name (o : list (StateKey * A)) a :
  obj_get name o = Some a → (name, a) ∈ o.
Proof.
  induction o as [| [k b] o IH]; [done |]. simpl.
  case_decide as Hk; [intros [= ->]; subst; by left | intros ?; right; by apply IH].
Qed.

Lemma indexed_this_deps_ok w dep name d :
  indexed_ok w → obj_get name (derivers (graph w)) = Some d → dep ∈ params d →
  name ∈ this_deps w dep.
Proof.
  intros Hix Hd Hdep. unfold this_deps. rewrite Hix. apply build_deps_elem_ok.
  exists d. split; [by apply obj_get_elem | done].
Qed.

(** ** Values after a push *)

Lemma update_sync_ok key newState w d f :
  obj_get key (derivers (graph w)) = Some d → func d = Sync f →
  state (graph (update_ok key newState w)) !! key = Some (apply_fn f (state (graph w))).
Proof.
  intros Hd Hf. rewrite update_state_ok, Hd, Hf. by rewrite lookup_insert_eq.
Qed.


(** ** Propagation through derivers *)

Lemma push_spec_ok fuel newState mode w order w' :
  push_ok fuel newState mode w = Some (order, w') →
  w' = updates_ok newState order (assigned newState w)
  ∧ obj_keys newState ⊆ order
  ∧ (∀ k d, k ∈ order → d ∈ this_deps w k → d ∈ order)
  ∧ ∀ k, k ∈ order →
      k ∈ obj_keys newState ∨ ∃ k', k' ∈ order ∧ k ∈ this_deps w k'.
Proof.
  unfold push_ok. destruct (default (push_default_mode (graph w)) mode); intros Hpush.
  - by eapply push_fast_spec_ok.
  - pose proof (push_accurate_order_ok _ _ _ _ _ Hpush) as (_ & ? & ? & ?).
    apply push_accurate_spec_ok in Hpush as (? & ? & _ & _ & _ & _ & _ & _ & _ & ?).
    done.
Qed.



Lemma push_accurate_returns_ok newState mode w :
  default (push_default_mode (graph w)) mode = accurate →
  ∃ n, ∀ fuel, n ≤ fuel → is_Some (push_ok fuel newState mode w).
Proof.
  intros Hmode. destruct (push_accurate_terminates_ok newState w) as [n Hn].
  exists n. intros fuel Hfuel. unfold push_ok. rewrite Hmode. by apply Hn.
Qed.


Lemma set_add_Forall (P : StateKey → Prop) x (s : list StateKey) :
  Forall P (set_add x s) ↔ P x ∧ Forall P s.
Proof.
  rewrite !Forall_forall. setoid_rewrite set_add_elem. naive_solver.
Qed.

Lemma closure_loop_ok_invariant (P : StateKey → Prop) fuel w queue tbu closure :
  (∀ k d, P k → d ∈ this_deps w k → P d) →
  Forall P queue → Forall P tbu →
  closure_loop_ok fuel w queue tbu = Some closure → Forall P closure.
Proof.
  intros Hstep. revert queue tbu.
  induction fuel as [| fuel IH]; intros queue tbu Hq Htbu.
  - destruct queue; [| done]. by intros [= <-].
  - destruct queue as [| front queue]; [by intros [= <-] |]. simpl.
    apply Forall_cons in Hq as [Hf Hq]. apply IH.
    + apply Forall_app. split; [done |].
      apply Forall_forall. intros d [_ Hd]%list_elem_of_filter. by eapply Hstep.
    + apply set_add_Forall. by split.
Qed.

Lemma reaches_trans w k d d' : reaches w k d → reaches w d d' → reaches w k d'.
Proof. intros Hkd Hdd'. induction Hdd'; [done |]. by eapply reaches_dep. Qed.

Lemma closure_loop_ok_reaches fuel w keys closure :
  closure_loop_ok fuel w keys [] = Some closure →
  ∀ k, k ∈ closure ↔ ∃ k0, k0 ∈ keys ∧ reaches w k0 k.
Proof.
  intros Hc k. split.
  - revert k. apply Forall_forall.
    eapply (closure_loop_ok_invariant (λ k, ∃ k0, k0 ∈ keys ∧ reaches w k0 k));
      [| | | exact Hc].
    + intros k' d (k0 & Hk0 & Hr) Hd. exists k0. split; [done |]. by eapply reaches_dep.
    + apply Forall_forall. intros k' Hk'. exists k'. split; [done | constructor].
    + constructor.
  - intros (k0 & Hk0 & Hr).
    pose proof (closure_loop_closed_ok _ _ _ _ _
      ltac:(by intros ? ? ?%elem_of_nil) Hc) as (_ & Hkeys & Hclosed).
    induction Hr as [| d d' Hr IH Hd]; [by apply Hkeys |]. by eapply Hclosed.
Qed.


(** ** Cycles *)

(** [push_accurate] returns on every graph, and what is still pending when
    a pass makes no progress is updated once each, in sorted order. *)
Lemma push_accurate_cycles_ok newState w :
  ∃ n, ∀ fuel, n ≤ fuel →
    ∃ order w' closure stab,
      push_accurate_ok fuel newState w = Some (order, w')
      ∧ NoDup closure ∧ NoDup stab ∧ stab ⊆ closure
      ∧ eligible_in_turn_ok w closure stab
      ∧ (∀ u, u ∈ pending_after closure stab →
           canUpdate_ok w (pending_after closure stab) u = false)
      ∧ order = stab ++ array_sort (cycle_compare w) (pending_after closure stab)
      ∧ array_sort (cycle_compare w) (pending_after closure stab)
        ≡ₚ pending_after closure stab
      ∧ NoDup (array_sort (cycle_compare w) (pending_after closure stab))
      ∧ ((∀ a b, localeCompare a b = Gt → localeCompare b a ≠ Gt) →
         Sorted (not_after (cycle_compare w))
           (array_sort (cycle_compare w) (pending_after closure stab)))
      ∧ NoDup order
      ∧ w' = updates_ok newState
               (array_sort (cycle_compare w) (pending_after closure stab))
               (updates_ok newState stab (assigned newState w)).
Proof.
  destruct (push_accurate_terminates_ok newState w) as [n Hn].
  exists n. intros fuel Hfuel. destruct (Hn fuel Hfuel) as [[order w'] Hpush].
  pose proof (push_accurate_order_ok _ _ _ _ _ Hpush) as (Hnd & _).
  pose proof Hpush as Hspec.
  apply push_accurate_spec_ok in Hspec
    as (closure & stab & Hclosure & Hcnd & Hsnd & Hsub & Helig & Hstuck & Horder & Hw').
  exists order, w', closure, stab.
  split; [done |]. split; [done |]. split; [done |]. split; [done |].
  split; [done |]. split; [done |]. split; [done |].
  split; [apply array_sort_Permutation |].
  split; [rewrite array_sort_Permutation; by apply pending_after_NoDup |].
  split.
  { intros Hcmp. apply array_sort_Sorted. intros a b. unfold cycle_compare. apply Hcmp. }
  split; [done |].
  rewrite Hw', Horder. by rewrite updates_app_ok.
Qed.

(** ** Request functions *)

Lemma flag_set_flag c c' b rt :
  flag c (set_flag c' b rt) = if decide (c' = c) then b else flag c rt.
Proof.
  unfold flag, set_flag. simpl. case_decide as Hc.
  - subst. by rewrite lookup_insert_eq.
  - by rewrite lookup_insert_ne.
Qed.

Lemma flag_set_flags c cs b rt :
  flag c (set_flags cs b rt) = if decide (c ∈ cs) then b else flag c rt.
Proof.
  induction cs as [| c' cs IH].
  - change (set_flags [] b rt) with rt.
    by destruct (decide (c ∈ [])) as [?%elem_of_nil |].
  - change (set_flags (c' :: cs) b rt) with (set_flag c' b (set_flags cs b rt)).
    rewrite flag_set_flag, IH.
    destruct (decide (c' = c)) as [-> | Hne].
    + rewrite decide_True; [done | by left].
    + destruct (decide (c ∈ cs)) as [Hin | Hnotin].
      * rewrite decide_True; [done | by right].
      * rewrite decide_False; [done |]. by intros [-> | ?]%elem_of_cons.
Qed.

Lemma set_flags_promises cs b rt : promises (set_flags cs b rt) = promises rt.
Proof. induction cs as [| c cs IH]; [done | by simpl]. Qed.

Lemma set_flags_next_promise cs b rt : next_promise (set_flags cs b rt) = next_promise rt.
Proof. induction cs as [| c cs IH]; [done | by simpl]. Qed.

Lemma set_flags_events cs b rt : events (set_flags cs b rt) = events rt.
Proof. induction cs as [| c cs IH]; [done | by simpl]. Qed.

(** A request function whose cell is set returns [null] at once: nothing
    is called and nothing changes. *)
Lemma call_request_blocked {S : Type} (getter : StateKey → S → V * S) r s rt c :
  c ∈ cells_of r → flag c rt = true → call_request getter r s rt = (None, s, rt).
Proof.
  intros Hc Hflag. induction r as [rid body | c0 r IH]; [by apply elem_of_nil in Hc |].
  simpl in *. destruct (flag c0 rt) eqn:Hc0; [done |].
  apply elem_of_cons in Hc as [-> | Hc]; [congruence |].
  by rewrite IH.
Qed.

Lemma add_reaction_fresh p x (l : list Promise) :
  (∀ pr, pr ∈ l → pid pr ≠ p) →
  (λ pr, if decide (pid pr = p)
         then {| pid := pid pr; reactions := reactions pr ++ [x] |}
         else pr) <$> l = l.
Proof.
  intros Hfresh. induction l as [| pr l IH]; [done |]. rewrite fmap_cons.
  rewrite decide_False by (apply Hfresh; by left).
  rewrite IH; [done |]. intros pr' Hin. apply Hfresh. by right.
Qed.

(** A request function none of whose cells is set calls its plain
    function; a promise returned by it is pending under a new identity. *)
Lemma call_request_started {S : Type} (getter : StateKey → S → V * S) r s rt :
  (∀ c, c ∈ cells_of r → flag c rt = false) →
  (∀ pr, pr ∈ promises rt → pid pr ≠ next_promise rt) →
  call_request getter r s rt
  = (if (invoke getter (body_of r) s).1
     then (Some (next_promise rt), (invoke getter (body_of r) s).2, started r rt)
     else (None, (invoke getter (body_of r) s).2, emit [Requested (rid_of r)] rt)).
Proof.
  intros Hflags Hfresh. induction r as [rid body | c0 r IH]; simpl.
  - by destruct (invoke getter body s) as [[|] s'].
  - rewrite (Hflags c0) by (by left).
    rewrite IH by (intros c Hc; apply Hflags; by right).
    destruct (invoke getter (body_of r) s) as [[|] s']; [| done]. simpl.
    f_equal. unfold add_reaction, started.
    cbn [in_progress promises next_promise events set_flag set_flags foldr cells_of
         rid_of].
    f_equal. rewrite (fmap_app _ (promises rt)), add_reaction_fresh by done.
    rewrite fmap_cons, fmap_nil. cbn [pid reactions].
    rewrite decide_True by done. by rewrite reverse_cons, fmap_app.
Qed.

(** ** The single-flight invariant *)

Lemma single_flight_emit es rt : single_flight rt → single_flight (emit es rt).
Proof. done. Qed.

Lemma outstanding_started cell r rt :
  outstanding cell (started r rt)
  = outstanding cell rt
    ++ (if decide (cell ∈ cells_of r)
        then [{| pid := next_promise rt;
                 reactions := ClearInProgress <$> reverse (cells_of r) |}]
        else []).
Proof.
  unfold outstanding, started. cbn [promises]. rewrite filter_app. f_equal.
  rewrite filter_cons, filter_nil. cbn [reactions].
  destruct (decide (cell ∈ cells_of r)) as [Hin | Hnotin].
  - rewrite decide_True; [done |].
    apply list_elem_of_fmap. exists cell. split; [done |]. by apply elem_of_reverse.
  - rewrite decide_False; [done |].
    intros (c & Heq & Hc)%list_elem_of_fmap. injection Heq as Heq. subst c.
    apply Hnotin. by apply elem_of_reverse.
Qed.

Lemma flag_started c r rt :
  flag c (started r rt) = if decide (c ∈ cells_of r) then true else flag c rt.
Proof. rewrite <- flag_set_flags. done. Qed.

Lemma single_flight_started r rt :
  single_flight rt → (∀ c, c ∈ cells_of r → flag c rt = false) →
  single_flight (started r rt).
Proof.
  intros (Hbound & Hnd & Hshape & Hcount) Hflags.
  split; [| split; [| split]].
  - intros pr [Hpr | ->%list_elem_of_singleton]%elem_of_app; simpl.
    + apply Hbound in Hpr. lia.
    + lia.
  - cbn [promises started]. rewrite fmap_app, fmap_cons, fmap_nil. cbn [pid].
    apply NoDup_app. split; [done |]. split; [| apply NoDup_singleton].
    intros x (pr & Hx & Hpr)%list_elem_of_fmap Heq%list_elem_of_singleton.
    apply Hbound in Hpr. lia.
  - intros pr [Hpr | ->%list_elem_of_singleton]%elem_of_app; [by apply Hshape |].
    exists (reverse (cells_of r)), []. by rewrite app_nil_r.
  - intros cell. rewrite outstanding_started, flag_started, length_app, Hcount.
    destruct (decide (cell ∈ cells_of r)) as [Hin | Hnotin].
    + by rewrite (Hflags cell Hin).
    + simpl. lia.
Qed.

Lemma call_request_cases {S : Type} (getter : StateKey → S → V * S) r s rt :
  (∀ pr, pr ∈ promises rt → pid pr < next_promise rt) →
  (∃ s', call_request getter r s rt = (None, s', rt))
  ∨ (∃ s', call_request getter r s rt = (None, s', emit [Requested (rid_of r)] rt)
       ∧ ∀ c, c ∈ cells_of r → flag c rt = false)
  ∨ (∃ s', call_request getter r s rt = (Some (next_promise rt), s', started r rt)
       ∧ ∀ c, c ∈ cells_of r → flag c rt = false).
Proof.
  intros Hbound.
  destruct (decide (Forall (λ c, flag c rt = false) (cells_of r))) as [Hall | Hsome].
  - rewrite Forall_forall in Hall. right.
    rewrite call_request_started; [| done |].
    + destruct (invoke getter (body_of r) s) as [[|] s']; simpl; eauto.
    + intros pr Hpr. apply Hbound in Hpr. lia.
  - left. apply not_Forall_Exists in Hsome; [| apply _].
    apply Exists_exists in Hsome as (c & Hc & Hflag).
    exists s. eapply call_request_blocked; [done |].
    simpl in Hflag. destruct (flag c rt); [done | congruence].
Qed.

Lemma call_request_single_flight {S : Type} (getter : StateKey → S → V * S) r s rt :
  single_flight rt → single_flight (call_request getter r s rt).2.
Proof.
  intros Hsf. pose proof Hsf as (Hbound & _).
  destruct (call_request_cases getter r s rt Hbound)
    as [(s' & ->) | [(s' & -> & _) | (s' & -> & Hflags)]]; simpl.
  - done.
  - by apply single_flight_emit.
  - by apply single_flight_started.
Qed.

Lemma length_filter_fmap {A : Type} (P : A → Prop) `{!∀ x, Decision (P x)}
    (f : A → A) (l : list A) :
  (∀ x, P (f x) ↔ P x) → length (filter P (f <$> l)) = length (filter P l).
Proof.
  intros Hf. induction l as [| x l IH]; [done |].
  rewrite fmap_cons, !filter_cons.
  destruct (decide (P x)) as [Hx | Hx].
  - rewrite decide_True by (by apply Hf). simpl. by rewrite IH.
  - rewrite decide_False by (by rewrite Hf). done.
Qed.

Lemma single_flight_deliver p key rt :
  single_flight rt → single_flight (add_reaction p (Deliver key) rt).
Proof.
  intros (Hbound & Hnd & Hshape & Hcount).
  set (f := λ pr : Promise, if decide (pid pr = p)
              then {| pid := pid pr; reactions := reactions pr ++ [Deliver key] |}
              else pr).
  assert (Hpid : ∀ pr, pid (f pr) = pid pr).
  { intros pr. unfold f. by case_decide. }
  split; [| split; [| split]].
  - intros pr' (pr & -> & Hpr)%list_elem_of_fmap. fold (f pr). rewrite Hpid.
    by apply Hbound.
  - cbn [promises add_reaction]. fold f. rewrite <- list_fmap_compose.
    erewrite list_fmap_ext; [exact Hnd |]. intros i pr _. simpl. apply Hpid.
  - intros pr' (pr & -> & Hpr)%list_elem_of_fmap.
    destruct (Hshape pr Hpr) as (cells & keys & Hr). case_decide; [| by eauto].
    exists cells, (keys ++ [key]). cbn [reactions]. rewrite Hr.
    by rewrite fmap_app, app_assoc.
  - intros cell. transitivity (length (outstanding cell rt)); [| exact (Hcount cell)].
    unfold outstanding. cbn [promises add_reaction].
    fold f. apply length_filter_fmap. intros pr. unfold f. case_decide; [| done].
    cbn [reactions]. rewrite elem_of_app, list_elem_of_singleton. naive_solver.
Qed.

Lemma update_runtime_cases_ok key newState w :
  single_flight (runtime w) →
  single_flight (runtime (update_ok key newState w)).
Proof.
  intros Hsf. unfold update_ok.
  destruct (obj_get key (derivers (graph w))) as [d |]; [| done].
  destruct (func d) as [f | r].
  - destruct (invoke _ f ()) as [v u]. by apply single_flight_emit.
  - case_bool_decide; [by apply single_flight_emit |].
    pose proof (call_request_single_flight (plain_getter (state (graph w))) r ()
      (runtime w) Hsf) as Hsf'.
    destruct (call_request _ r () (runtime w)) as [[[x |] u] rt]; simpl in *.
    + by apply single_flight_deliver.
    + done.
Qed.

Lemma updates_single_flight_ok newState ks w :
  single_flight (runtime w) → single_flight (runtime (updates_ok newState ks w)).
Proof.
  revert w. induction ks as [| k ks IH]; intros w Hsf; [done |].
  change (updates_ok newState (k :: ks) w) with (updates_ok newState ks (update_ok k newState w)).
  by apply IH, update_runtime_cases_ok.
Qed.

Lemma push_single_flight_ok fuel newState mode w order w' :
  single_flight (runtime w) →
  push_ok fuel newState mode w = Some (order, w') →
  single_flight (runtime w').
Proof.
  intros Hsf Hpush. apply push_spec_ok in Hpush as (-> & _).
  by apply updates_single_flight_ok.
Qed.

(** ** Settlement *)

Lemma with_runtime_with_runtime (f f' : Runtime V → Runtime V) w :
  with_runtime f (with_runtime f' w) = with_runtime (λ rt, f (f' rt)) w.
Proof. done. Qed.

Lemma set_flags_snoc cs c b rt :
  set_flags (cs ++ [c]) b rt = set_flags cs b (set_flag c b rt).
Proof. unfold set_flags. by rewrite foldr_app. Qed.

Lemma promise_by_pid rt pr pr' :
  NoDup (pid <$> promises rt) → pr ∈ promises rt → pr' ∈ promises rt →
  pid pr' = pid pr → pr' = pr.
Proof.
  intros Hnd Hpr Hpr' Hpid.
  apply list_elem_of_lookup in Hpr as [i Hi]. apply list_elem_of_lookup in Hpr' as [j Hj].
  assert (i = j) as ->; [| congruence].
  eapply NoDup_lookup; [done | |].
  - by rewrite list_lookup_fmap, Hi.
  - rewrite list_lookup_fmap, Hj. simpl. by rewrite Hpid.
Qed.

Lemma filter_iff_elem {A : Type} (P Q : A → Prop)
    `{!∀ x, Decision (P x), !∀ x, Decision (Q x)} (l : list A) :
  (∀ x, x ∈ l → P x ↔ Q x) → filter P l = filter Q l.
Proof.
  intros Hiff. induction l as [| x l IH]; [done |].
  rewrite !filter_cons. rewrite IH by (intros y Hy; apply Hiff; by right).
  destruct (decide (P x)) as [Hx | Hx].
  - rewrite decide_True; [done |]. apply Hiff; [by left | done].
  - rewrite decide_False; [done |]. intros HQ. apply Hx, Hiff; [by left | done].
Qed.

Lemma outstanding_remove cell p rt :
  outstanding cell (remove_promise p rt) = filter (λ pr, pid pr ≠ p) (outstanding cell rt).
Proof.
  unfold outstanding, remove_promise. cbn [promises].
  rewrite !list_filter_filter. apply list_filter_iff. naive_solver.
Qed.

(** Once a promise is off the list and its cells are cleared, the
    invariant holds again. *)
Lemma single_flight_settled rt pr cells keys :
  single_flight rt → pr ∈ promises rt →
  reactions pr = (ClearInProgress <$> cells) ++ (Deliver <$> keys) →
  single_flight (set_flags (reverse cells) false (remove_promise (pid pr) rt)).
Proof.
  intros (Hbound & Hnd & Hshape & Hcount) Hpr Hr.
  split; [| split; [| split]].
  - intros pr'. rewrite set_flags_promises, set_flags_next_promise.
    intros [_ Hin]%list_elem_of_filter. by apply Hbound.
  - rewrite set_flags_promises. cbn [promises remove_promise].
    eapply sublist_NoDup; [exact Hnd |]. apply fmap_sublist, sublist_filter.
  - intros pr'. rewrite set_flags_promises.
    intros [_ Hin]%list_elem_of_filter. by apply Hshape.
  - intros cell. rewrite flag_set_flags.
    assert (Hout : outstanding cell (set_flags (reverse cells) false
                     (remove_promise (pid pr) rt))
                   = filter (λ pr', pid pr' ≠ pid pr) (outstanding cell rt)).
    { rewrite <- outstanding_remove. unfold outstanding. by rewrite set_flags_promises. }
    rewrite Hout. clear Hout.
    assert (Hmine : ClearInProgress cell ∈ reactions pr ↔ cell ∈ cells).
    { rewrite Hr, elem_of_app. split.
      - intros [(c & [= ->] & Hc)%list_elem_of_fmap | (k & [=] & _)%list_elem_of_fmap].
        done.
      - intros Hc. left. apply list_elem_of_fmap. by exists cell. }
    change (flag cell (remove_promise (pid pr) rt)) with (flag cell rt).
    destruct (decide (cell ∈ reverse cells)) as [Hin | Hnotin].
    + rewrite elem_of_reverse in Hin.
      assert (Hprin : pr ∈ outstanding cell rt).
      { apply list_elem_of_filter. split; [| done]. cbv beta.
        by apply Hmine. }
      specialize (Hcount cell).
      destruct (outstanding cell rt) as [| pr0 [| pr1 l]] eqn:Hout.
      * by apply elem_of_nil in Hprin.
      * apply list_elem_of_singleton in Hprin as <-.
        rewrite filter_cons, decide_False; [done |]. by intros Hne.
      * destruct (flag cell rt); simpl in Hcount; lia.
    + rewrite elem_of_reverse in Hnotin. rewrite <- Hcount. f_equal.
      unfold outstanding. rewrite list_filter_filter. apply filter_iff_elem.
      intros pr' Hpr'. split; [by intros [_ ?] |]. intros Hc. split; [| done].
      intros Hpid. apply Hnotin, Hmine.
      by rewrite <- (promise_by_pid rt pr pr' Hnd Hpr Hpr' Hpid).
Qed.

Lemma single_flight_at_most_one rt cell :
  single_flight rt → length (outstanding cell rt) ≤ 1.
Proof. intros (_ & _ & _ & Hcount). rewrite Hcount. destruct (flag cell rt); lia. Qed.

(** A promise that is to clear [cell] is pending: the cell is set. *)
Lemma pending_flag rt cell pr :
  single_flight rt → pr ∈ promises rt → ClearInProgress cell ∈ reactions pr →
  flag cell rt = true.
Proof.
  intros (_ & _ & _ & Hcount) Hpr Hcell. specialize (Hcount cell).
  assert (Hin : pr ∈ outstanding cell rt) by (apply list_elem_of_filter; done).
  destruct (flag cell rt); [done |].
  destruct (outstanding cell rt); [by apply elem_of_nil in Hin | done].
Qed.

Lemma single_flight_empty :
  single_flight
    ({| in_progress := ∅; promises := []; next_promise := 0; events := [] |} : Runtime V).
Proof.
  split; [by intros pr ?%elem_of_nil |]. split; [constructor |].
  split; [by intros pr ?%elem_of_nil | done].
Qed.

Lemma ThrottleRequest_single_flight request rt :
  single_flight rt → single_flight (ThrottleRequest request rt).2.
Proof.
  intros (Hbound & Hnd & Hshape & Hcount). unfold ThrottleRequest. simpl.
  split; [done |]. split; [done |]. split; [done |].
  intros cell. rewrite flag_set_flag.
  transitivity (length (outstanding cell rt)); [done |]. rewrite Hcount.
  case_decide as Hcell; [| done]. subst cell.
  unfold flag. rewrite (not_elem_of_dom_1 (in_progress rt)); [done |]. apply is_fresh.
Qed.

Lemma ExtractDeriver_single_flight fn rt :
  single_flight rt → single_flight (ExtractDeriver fn rt).2.
Proof.
  intros Hsf. unfold ExtractDeriver. destruct fn as [f | r].
  - by destruct (invoke PropGetReporter f []).
  - pose proof (call_request_single_flight PropGetReporter r [] rt Hsf) as Hsf'.
    by destruct (call_request PropGetReporter r [] rt) as [[x proplist] rt'].
Qed.

Lemma from_entries_single_flight {A : Type}
    (f : A → Runtime V → ExplicitlyDerived V * Runtime V) es acc rt :
  (∀ a rt, single_flight rt → single_flight (f a rt).2) →
  single_flight rt → single_flight (from_entries f es acc rt).2.
Proof.
  intros Hf. revert acc rt. induction es as [| [name value] es IH]; intros acc rt Hsf.
  - done.
  - simpl. specialize (Hf value rt Hsf). destruct (f value rt) as [d rt'].
    by apply IH.
Qed.

Lemma new_StateGraph_single_flight_ok fuel args rt w :
  single_flight rt → new_StateGraph_ok fuel args rt = Some w → single_flight (runtime w).
Proof.
  intros Hsf. unfold new_StateGraph_ok.
  pose proof (from_entries_single_flight from_deriver_arg
    (entries (args_derivers args)) [] rt) as H1.
  destruct (from_entries from_deriver_arg _ [] rt) as [ders1 rt1].
  pose proof (from_entries_single_flight from_request_arg
    (entries (args_requests args)) [] rt1) as H2.
  destruct (from_entries from_request_arg _ [] rt1) as [ders2 rt2].
  assert (Hsf2 : single_flight rt2).
  { apply H2.
    - intros [r | ps r o] rt' Hrt'; [by apply ExtractDeriver_single_flight | done].
    - apply H1; [| done].
      intros [fn | d] rt' Hrt'; [by apply ExtractDeriver_single_flight | done]. }
  destruct (args_defaults args) as [defaults |].
  - intros Hpush.
    destruct (push_ok fuel defaults None _) as [[order w'] |] eqn:Hp; [| done].
    injection Hpush as <-. by eapply push_single_flight_ok in Hp.
  - by intros [= <-].
Qed.

(** ** [update] on a request deriver *)

Lemma update_request_in_batch_ok key newState w d r :
  obj_get key (derivers (graph w)) = Some d → func d = Async r →
  key ∈ obj_keys newState →
  update_ok key newState w = dispatch_change_ok key w.
Proof.
  intros Hd Hf Hin. unfold update_ok. rewrite Hd, Hf.
  by rewrite bool_decide_eq_true_2.
Qed.

Lemma update_request_call_ok key newState w d r :
  obj_get key (derivers (graph w)) = Some d → func d = Async r →
  key ∉ obj_keys newState →
  update_ok key newState w
  = match (call_request (plain_getter (state (graph w))) r () (runtime w)) with
    | (Some x, _, rt) => with_runtime (λ _, add_reaction x (Deliver key) rt) w
    | (None, _, rt) => with_runtime (λ _, rt) w
    end.
Proof.
  intros Hd Hf Hin. unfold update_ok. rewrite Hd, Hf.
  rewrite bool_decide_eq_false_2 by done.
  by destruct (call_request _ r () (runtime w)) as [[[x |] u] rt].
Qed.

Lemma update_request_blocked_ok key newState w d r c :
  obj_get key (derivers (graph w)) = Some d → func d = Async r →
  key ∉ obj_keys newState →
  c ∈ cells_of r → flag c (runtime w) = true →
  update_ok key newState w = w.
Proof.
  intros Hd Hf Hin Hc Hflag. rewrite (update_request_call_ok _ _ _ d r) by done.
  rewrite (call_request_blocked _ _ _ _ c) by done. by destruct w.
Qed.

Lemma single_flight_fresh rt pr :
  single_flight rt → pr ∈ promises rt → pid pr ≠ next_promise rt.
Proof. intros (Hbound & _) Hpr. apply Hbound in Hpr. lia. Qed.


Lemma update_request_started_ok key newState w d r :
  single_flight (runtime w) →
  obj_get key (derivers (graph w)) = Some d → func d = Async r →
  key ∉ obj_keys newState →
  (∀ c, c ∈ cells_of r → flag c (runtime w) = false) →
  apply_fn (body_of r) (state (graph w)) = true →
  update_ok key newState w
  = with_runtime
      (λ rt, add_reaction (next_promise rt) (Deliver key) (started r rt)) w.
Proof.
  intros Hsf Hd Hf Hin Hflags Hbody. rewrite (update_request_call_ok _ _ _ d r) by done.
  rewrite call_request_started; [| done | intros pr; by apply single_flight_fresh].
  unfold apply_fn in Hbody. by rewrite Hbody.
Qed.

Lemma promises_add_reaction_started key r rt :
  single_flight rt →
  promises (add_reaction (next_promise rt) (Deliver key) (started r rt))
  = promises rt
    ++ [{| pid := next_promise rt;
           reactions := (ClearInProgress <$> reverse (cells_of r)) ++ [Deliver key] |}].
Proof.
  intros Hsf. unfold add_reaction, started. cbn [promises].
  rewrite fmap_app, add_reaction_fresh by (intros pr; by apply single_flight_fresh).
  rewrite fmap_cons, fmap_nil. cbn [pid reactions]. by rewrite decide_True.
Qed.

Lemma filter_fresh_promises rt :
  single_flight rt →
  filter (λ pr, pid pr ≠ next_promise rt) (promises rt) = promises rt.
Proof.
  intros Hsf.
  assert (Hall : ∀ pr, pr ∈ promises rt → pid pr ≠ next_promise rt)
    by (intros pr; by apply single_flight_fresh).
  induction (promises rt) as [| pr l IH]; [done |].
  rewrite filter_cons, decide_True by (apply Hall; by left).
  rewrite IH; [done |]. intros pr' Hpr'. apply Hall. by right.
Qed.

(** ** Small facts for the statements *)


Lemma requested_emit_notified rid rt key (ws : list Watcher) :
  requested rid (emit ((λ watcher, Notified watcher key) <$> ws) rt) = requested rid rt.
Proof.
  unfold requested, emit. cbn [events]. rewrite filter_app, length_app.
  assert (Hnone : filter (λ e, is_requested rid e = true)
                    ((λ watcher, Notified watcher key : Event V) <$> ws) = []).
  { induction ws as [| x ws IH]; [done |]. rewrite fmap_cons, filter_cons.
    by rewrite decide_False. }
  rewrite Hnone. simpl. lia.
Qed.

Lemma requested_dispatch_change_ok rid key w :
  requested rid (runtime (dispatch_change_ok key w)) = requested rid (runtime w).
Proof. apply requested_emit_notified. Qed.

(** The raw values of the batch stay in the state at the keys that no
    synchronous deriver writes. *)
Lemma push_keeps_raw_values_ok fuel newState mode w order w' k v :
  NoDup (obj_keys newState) → (k, v) ∈ newState →
  (∀ d, obj_get k (derivers (graph w)) = Some d → is_request d = true) →
  push_ok fuel newState mode w = Some (order, w') →
  state (graph w') !! k = Some v.
Proof.
  intros Hnd Hin Hk Hpush. apply push_spec_ok in Hpush as (-> & _).
  rewrite updates_state_other_ok by (by right).
  simpl. by apply obj_assign_lookup.
Qed.

(** ** The throttle closure *)

Lemma call_request_throttled {S : Type} (getter : StateKey → S → V * S)
    cell request s rt :
  flag cell rt = false →
  call_request getter (Throttled cell request) s rt
  = match call_request getter request s rt with
    | (Some p, s', rt') =>
        (Some p, s', add_reaction p (ClearInProgress cell) (set_flag cell true rt'))
    | (None, s', rt') => (None, s', rt')
    end.
Proof.
  intros Hflag. simpl. rewrite Hflag.
  by destruct (call_request getter request s rt) as [[[p |] s'] rt'].
Qed.

Lemma flag_add_reaction_set cell p x rt :
  flag cell (add_reaction p x (set_flag cell true rt)) = true.
Proof.
  change (flag cell (add_reaction p x (set_flag cell true rt)))
    with (flag cell (set_flag cell true rt)).
  rewrite flag_set_flag. by rewrite decide_True.
Qed.

(** ** The index of a constructed graph *)

Lemma push_static_ok fuel newState mode w order w' :
  push_ok fuel newState mode w = Some (order, w') → static w' = static w.
Proof.
  intros Hpush. apply push_spec_ok in Hpush as (-> & _).
  by rewrite updates_static_ok, assigned_static.
Qed.

Lemma indexed_static_ok w w' : static w' = static w → indexed_ok w → indexed_ok w'.
Proof.
  intros Hs Hix. unfold indexed_ok.
  by rewrite (static_deps _ _ Hs), (static_derivers _ _ Hs).
Qed.

(** The graph that the constructor builds is indexed, and stays so. *)
Lemma new_StateGraph_indexed_ok fuel args rt w :
  new_StateGraph_ok fuel args rt = Some w → indexed_ok w.
Proof.
  unfold new_StateGraph_ok.
  destruct (from_entries from_deriver_arg _ [] rt) as [ders1 rt1].
  destruct (from_entries from_request_arg _ [] rt1) as [ders2 rt2].
  destruct (args_defaults args) as [defaults |].
  - intros Hpush.
    destruct (push_ok fuel defaults None _) as [[order w'] |] eqn:Hp; [| done].
    injection Hpush as <-. eapply indexed_static_ok; [by eapply push_static_ok | done].
  - by intros [= <-].
Qed.

Lemma push_indexed_ok fuel newState mode w order w' :
  indexed_ok w → push_ok fuel newState mode w = Some (order, w') → indexed_ok w'.
Proof. intros Hix Hpush. eapply indexed_static_ok; [by eapply push_static_ok | done]. Qed.

(** ** A pending promise stays pending through a push *)

Lemma add_reaction_keeps p x rt pr :
  pr ∈ promises rt → ∃ pr', pr' ∈ promises (add_reaction p x rt) ∧ extends pr pr'.
Proof.
  intros Hpr. eexists. split; [by apply list_elem_of_fmap_2 |].
  case_decide; [| done]. split; [done |]. intros y Hy. apply elem_of_app. by left.
Qed.

Lemma update_keeps_pending_ok key newState w pr :
  single_flight (runtime w) → pr ∈ promises (runtime w) →
  ∃ pr', pr' ∈ promises (runtime (update_ok key newState w)) ∧ extends pr pr'.
Proof.
  intros Hsf Hpr. unfold update_ok.
  destruct (obj_get key (derivers (graph w))) as [d |]; [| by exists pr].
  destruct (func d) as [f | r].
  - destruct (invoke _ f ()) as [v u]. by exists pr.
  - case_bool_decide; [by exists pr |].
    pose proof Hsf as (Hbound & _).
    destruct (call_request_cases (plain_getter (state (graph w))) r () (runtime w) Hbound)
      as [(s' & ->) | [(s' & -> & _) | (s' & -> & _)]]; cbn [runtime with_runtime].
    + by exists pr.
    + by exists pr.
    + apply add_reaction_keeps. cbn [promises started]. apply elem_of_app. by left.
Qed.

Lemma extends_trans pr1 pr2 pr3 : extends pr1 pr2 → extends pr2 pr3 → extends pr1 pr3.
Proof. intros [Hp1 Hr1] [Hp2 Hr2]. split; [congruence | auto]. Qed.

Lemma updates_keeps_pending_ok newState ks w pr :
  single_flight (runtime w) → pr ∈ promises (runtime w) →
  ∃ pr', pr' ∈ promises (runtime (updates_ok newState ks w)) ∧ extends pr pr'.
Proof.
  revert w pr. induction ks as [| k ks IH]; intros w pr Hsf Hpr; [by exists pr |].
  change (updates_ok newState (k :: ks) w) with (updates_ok newState ks (update_ok k newState w)).
  destruct (update_keeps_pending_ok k newState w pr Hsf Hpr) as (pr1 & Hpr1 & Hext1).
  destruct (IH (update_ok k newState w) pr1 (update_runtime_cases_ok _ _ _ Hsf) Hpr1)
    as (pr2 & Hpr2 & Hext2).
  exists pr2. split; [done | by eapply extends_trans].
Qed.

(** No push settles a promise: what is to clear [cell] before the push is
    still pending after it, so the cell is still set. *)
Lemma push_keeps_in_flight_ok fuel newState mode w order w' pr cell :
  single_flight (runtime w) → pr ∈ promises (runtime w) →
  ClearInProgress cell ∈ reactions pr →
  push_ok fuel newState mode w = Some (order, w') →
  flag cell (runtime w') = true
  ∧ ∃ pr', pr' ∈ promises (runtime w') ∧ pid pr' = pid pr
           ∧ ClearInProgress cell ∈ reactions pr'.
Proof.
  intros Hsf Hpr Hcell Hpush.
  pose proof (push_single_flight_ok _ _ _ _ _ _ Hsf Hpush) as Hsf'.
  apply push_spec_ok in Hpush as (-> & _).
  destruct (updates_keeps_pending_ok newState order (assigned newState w) pr Hsf Hpr)
    as (pr' & Hpr' & Hpid & Hext).
  split; [eapply pending_flag; [done | done | by apply Hext] |].
  exists pr'. split; [done |]. split; [done | by apply Hext].
Qed.


End Properties.

(** * The engine on ordinary names: whole graphs *)

Section WholeGraphs.

Context {V : Type} `{!Host V}.
Implicit Types (w : World V) (rt : Runtime V) (g : StateGraph V).
Implicit Types (key name : StateKey) (newState : Batch V).

Lemma assigned_nil w : assigned [] w = w.
Proof. by destruct w as [[] ?]. Qed.

(** On ordinary names: [push({})] returns the empty list and leaves the graph and the
    runtime as they were, in either mode and whatever the fuel. *)
Lemma push_of_empty_batch_ok fuel mode w : push_ok fuel [] mode w = Some ([], w).
Proof.
  unfold push_ok, push_fast_ok, push_accurate_ok.
  destruct (default _ mode); cbn.
  - destruct fuel; cbn; by rewrite ?(assigned_nil w); destruct w as [[] ?].
  - destruct fuel; cbn; by destruct w as [[] ?].
Qed.

Lemma obj_assign_lookup_ne (st : gmap string V) newState k :
  k ∉ obj_keys newState → obj_assign st newState !! k = st !! k.
Proof.
  unfold obj_assign, obj_keys. revert st.
  induction newState as [|[k' v] b IH]; intros st Hk; [done|].
  rewrite fmap_cons, not_elem_of_cons in Hk. destruct Hk as [Hne Hk].
  cbn. rewrite IH by done. by rewrite lookup_insert_ne.
Qed.

Lemma push_frame_ok fuel newState mode w order w' k :
  push_ok fuel newState mode w = Some (order, w') →
  k ∉ order → state (graph w') !! k = state (graph w) !! k.
Proof.
  intros Hpush Hk. apply push_spec_ok in Hpush as (-> & Hkeys & _).
  rewrite updates_state_other_ok by (by left).
  cbn. apply obj_assign_lookup_ne. intros Hin. by apply Hk, Hkeys.
Qed.

Lemma push_fast_loop_plain_ok fuel newState queue visited w :
  (∀ k, k ∈ queue →
     obj_get k (derivers (graph w)) = None ∧ this_deps w k = []) →
  length queue ≤ fuel →
  push_fast_loop_ok fuel newState queue visited w = Some (visited ++ queue, w).
Proof.
  revert queue visited. induction fuel as [|fuel IH]; intros queue visited Hplain Hlen.
  - destruct queue; [by rewrite app_nil_r|cbn in Hlen; lia].
  - destruct queue as [|n queue]; [by rewrite app_nil_r|]. cbn.
    destruct (Hplain n) as [Hn Hdeps]; [left|].
    rewrite (update_no_deriver_ok _ _ _ Hn), Hdeps, app_nil_r.
    rewrite IH; [by rewrite <-app_assoc| |cbn in Hlen; lia].
    intros k Hk. apply Hplain. by right.
Qed.

Lemma closure_loop_plain_ok fuel w queue tbu :
  (∀ k, k ∈ queue → this_deps w k = []) →
  NoDup (tbu ++ queue) →
  length queue ≤ fuel →
  closure_loop_ok fuel w queue tbu = Some (tbu ++ queue).
Proof.
  revert queue tbu. induction fuel as [|fuel IH]; intros queue tbu Hplain Hnd Hlen.
  - destruct queue; [by rewrite app_nil_r|cbn in Hlen; lia].
  - destruct queue as [|n queue]; [by rewrite app_nil_r|]. cbn.
    rewrite (Hplain n) by left. rewrite filter_nil, app_nil_r.
    apply NoDup_app in Hnd as Hnd'. destruct Hnd' as (_ & Hdisj & _).
    rewrite set_add_fresh by (intros ?; eapply Hdisj; [done|left]).
    rewrite IH; [by rewrite <-app_assoc| | |cbn in Hlen; lia].
    + intros k Hk. apply Hplain. by right.
    + by rewrite <-app_assoc.
Qed.

Lemma stabilize_pass_plain_ok newState us tbu order any w :
  (∀ k, k ∈ us → obj_get k (derivers (graph w)) = None) →
  stabilize_pass_ok newState us tbu order any w
  = (foldl (λ s u, set_delete u s) tbu us, order ++ us,
     match us with [] => any | _ => true end, w).
Proof.
  revert tbu order any. induction us as [|u us IH]; intros tbu order any Hplain.
  - by rewrite app_nil_r.
  - cbn. pose proof (Hplain u ltac:(left)) as Hu.
    unfold canUpdate_ok at 1. rewrite Hu, (update_no_deriver_ok _ _ _ Hu).
    rewrite IH by (intros k Hk; apply Hplain; by right).
    rewrite <-app_assoc. by destruct us.
Qed.

Lemma foldl_set_delete (tbu us : list StateKey) x :
  x ∈ foldl (λ s u, set_delete u s) tbu us → x ∈ tbu ∧ x ∉ us.
Proof.
  revert tbu. induction us as [|u us IH]; intros tbu; cbn.
  - intros ?. split; [done|apply not_elem_of_nil].
  - intros [Hin Hnot]%IH. unfold set_delete in Hin.
    apply list_elem_of_filter in Hin as [Hne Hin].
    split; [done|]. rewrite not_elem_of_cons. done.
Qed.

(** On ordinary names: a batch of keys that have no deriver and on which nothing depends
    is plain data: [push] writes the values, returns the keys of the batch
    in their order, and calls no deriver, request or watcher; one unit of
    fuel for each key is enough, in either mode. *)
Lemma push_of_plain_keys_ok fuel newState mode w :
  NoDup (obj_keys newState) →
  (∀ k, k ∈ obj_keys newState →
     obj_get k (derivers (graph w)) = None ∧ this_deps w k = []) →
  length newState ≤ fuel →
  push_ok fuel newState mode w = Some (obj_keys newState, assigned newState w).
Proof.
  intros Hnd Hplain Hlen.
  assert (Hlen' : length (obj_keys newState) ≤ fuel)
    by (unfold obj_keys; by rewrite length_fmap).
  unfold push_ok. destruct (default _ mode).
  - unfold push_fast_ok. fold (assigned newState w).
    by rewrite push_fast_loop_plain_ok.
  - unfold push_accurate_ok. fold (assigned newState w).
    rewrite closure_loop_plain_ok; [|naive_solver|done|done].
    cbn [app].
    destruct (obj_keys newState) as [|k ks] eqn:Hkeys; [by destruct fuel|].
    destruct fuel as [|fuel]; [cbn in Hlen'; lia|].
    cbn [stabilize_ok]. rewrite stabilize_pass_plain_ok by (intros; by apply Hplain).
    rewrite (elem_of_nil_inv (foldl _ (k :: ks) (k :: ks)))
      by (by intros x [? ?]%foldl_set_delete).
    by destruct fuel.
Qed.

Lemma push_fast_loop_cycle_ok (C : StateKey → Prop) w0 fuel newState queue visited w :
  (∀ k, C k → ∃ d, d ∈ this_deps w0 k ∧ C d) →
  static w = static w0 →
  (∃ k, k ∈ queue ∧ C k) →
  push_fast_loop_ok fuel newState queue visited w = None.
Proof.
  intros Hcyc. revert queue visited w.
  induction fuel as [|fuel IH]; intros queue visited w Hst (k & Hk & HC).
  - destruct queue; [by apply elem_of_nil in Hk | done].
  - destruct queue as [|n queue]; [by apply elem_of_nil in Hk|]. cbn.
    apply IH; [by rewrite update_static_ok|].
    rewrite (this_deps_static _ w0) by (by rewrite update_static_ok).
    apply elem_of_cons in Hk as [->|Hk].
    + destruct (Hcyc _ HC) as (d & Hd & HCd). exists d. split; [|done].
      apply elem_of_app. by right.
    + exists k. split; [|done]. apply elem_of_app. by left.
Qed.

Lemma sum_list_with_le {A : Type} (f g : A → nat) (l : list A) :
  (∀ x, x ∈ l → f x ≤ g x) → sum_list_with f l ≤ sum_list_with g l.
Proof.
  induction l as [|x l IH]; intros Hle; cbn; [done|].
  pose proof (Hle x ltac:(left)).
  assert (sum_list_with f l ≤ sum_list_with g l)
    by (apply IH; intros y Hy; apply Hle; by right).
  lia.
Qed.

Lemma weight_mono w r r' k : r ≤ r' → weight w r k ≤ weight w r' k.
Proof.
  revert r' k. induction r as [|r IH]; intros r' k Hle.
  - destruct r'; cbn; lia.
  - destruct r' as [|r']; [lia|]. cbn.
    apply le_n_S, sum_list_with_le. intros d _. apply IH. lia.
Qed.

Lemma weight_pos w r k : 0 < weight w r k.
Proof. destruct r; cbn; lia. Qed.

Lemma weight_deps w rank k :
  ranked w rank →
  sum_list_with (λ d, weight w (rank d) d) (this_deps w k) < weight w (rank k) k.
Proof.
  intros Hr. destruct (rank k) as [|r] eqn:Hk.
  - destruct (this_deps w k) as [|d l] eqn:Hd; cbn; [lia|].
    assert (rank d < rank k) by (apply Hr; rewrite Hd; left). lia.
  - cbn. apply Nat.lt_succ_r, sum_list_with_le. intros d Hd.
    apply weight_mono. apply Hr in Hd. lia.
Qed.

Lemma push_fast_loop_ranked_ok rank w0 fuel newState queue visited w :
  ranked w0 rank →
  static w = static w0 →
  sum_list_with (λ k, weight w0 (rank k) k) queue ≤ fuel →
  is_Some (push_fast_loop_ok fuel newState queue visited w).
Proof.
  intros Hr. revert queue visited w.
  induction fuel as [|fuel IH]; intros queue visited w Hst Hle.
  - destruct queue as [|n queue]; [done|]. cbn in Hle.
    pose proof (weight_pos w0 (rank n) n). lia.
  - destruct queue as [|n queue]; [done|]. cbn.
    apply IH; [by rewrite update_static_ok|].
    rewrite (this_deps_static _ w0) by (by rewrite update_static_ok).
    rewrite sum_list_with_app. cbn in Hle.
    pose proof (weight_deps w0 rank n Hr). lia.
Qed.

Lemma updates_consistent_ok {newState} l1 k l2 w d f :
  obj_get k (derivers (graph w)) = Some d → func d = Sync f →
  reads_within (params d) f →
  (∀ p, p ∈ params d → p ∉ k :: l2) →
  k ∉ l2 →
  state (graph (updates_ok newState (l1 ++ k :: l2) w)) !! k
  = Some (apply_fn f (state (graph (updates_ok newState (l1 ++ k :: l2) w)))).
Proof.
  intros Hd Hf Hreads Hps Hk.
  rewrite updates_app_ok. change (k :: l2) with ([k] ++ l2). rewrite updates_app_ok.
  set (w1 := updates_ok newState l1 w). cbn [updates_ok foldl].
  fold (updates_ok newState l2 (update_ok k newState w1)).
  assert (Hd1 : obj_get k (derivers (graph w1)) = Some d).
  { unfold w1. by rewrite (static_derivers _ w (updates_static_ok _ _ _)). }
  rewrite updates_state_other_ok by (by left).
  rewrite (update_sync_ok _ _ _ _ _ Hd1 Hf). f_equal.
  apply Hreads. intros p Hp. apply Hps in Hp.
  rewrite not_elem_of_cons in Hp. destruct Hp as [Hne Hp].
  rewrite updates_state_other_ok by (by left).
  by rewrite update_state_other_ok by (by left).
Qed.

Lemma push_fast_loop_follow_ok fuel newState w0 queue visited w visited' w' :
  static w = static w0 →
  push_fast_loop_ok fuel newState queue visited w = Some (visited', w') →
  ∃ new,
    visited' = visited ++ new
    ∧ queue ⊆ new
    ∧ ∀ l1 n l2, new = l1 ++ n :: l2 → this_deps w0 n ⊆ l2.
Proof.
  revert queue visited w.
  induction fuel as [|fuel IH]; intros queue visited w Hst Hloop.
  - destruct queue; [|done]. injection Hloop as <- <-.
    exists []. rewrite app_nil_r. split_and!; [done|done|].
    intros [|??] ???; done.
  - destruct queue as [|n queue].
    { injection Hloop as <- <-. exists []. rewrite app_nil_r. split_and!; [done|done|].
      intros [|??] ???; done. }
    cbn in Hloop. apply IH in Hloop as (new & -> & Hq & Hfollow);
      [|by rewrite update_static_ok].
    rewrite (this_deps_static _ w0) in Hq by (by rewrite update_static_ok).
    exists (n :: new). rewrite <-app_assoc. split_and!; [done| |].
    + intros x [->|Hx]%elem_of_cons; [left|right]. apply Hq, elem_of_app. by left.
    + intros [|m l1] n' l2 Heq.
      * injection Heq as <- <-. intros d Hd. apply Hq, elem_of_app. by right.
      * injection Heq as <- ->. by eapply Hfollow.
Qed.

Lemma push_fast_follow_ok fuel newState w visited w' :
  push_fast_ok fuel newState w = Some (visited, w') →
  ∀ l1 n l2, visited = l1 ++ n :: l2 → this_deps w n ⊆ l2.
Proof.
  unfold push_fast_ok. intros Hloop.
  eapply (push_fast_loop_follow_ok _ _ w) in Hloop as (new & -> & _ & Hfollow);
    [done|apply assigned_static].
Qed.

Lemma push_fast_consistent_ok fuel newState w visited w' k d f :
  indexed_ok w →
  push_fast_ok fuel newState w = Some (visited, w') →
  k ∈ visited →
  obj_get k (derivers (graph w)) = Some d → func d = Sync f →
  reads_within (params d) f →
  state (graph w') !! k = Some (apply_fn f (state (graph w'))).
Proof.
  intros Hidx Hpush Hk Hd Hf Hreads.
  pose proof (push_fast_follow_ok _ _ _ _ _ Hpush) as Hfollow.
  apply push_fast_spec_ok in Hpush as (-> & _).
  apply list_elem_of_split_r in Hk as (l1 & l2 & -> & Hk).
  apply updates_consistent_ok with (d := d);
    [by rewrite (static_derivers _ w (assigned_static _ _))|done|done| |done].
  intros p Hp Hin. apply Hk.
  assert (Hdep : k ∈ this_deps w p) by (by eapply indexed_this_deps_ok).
  apply elem_of_cons in Hin as [->|Hin].
  - by eapply (Hfollow l1 k l2).
  - apply list_elem_of_split in Hin as (m1 & m2 & ->).
    specialize (Hfollow (l1 ++ k :: m1) p m2). rewrite <-app_assoc in Hfollow.
    specialize (Hfollow eq_refl _ Hdep). apply elem_of_app. right. by right.
Qed.

Lemma canUpdate_false_ok w tbu key :
  canUpdate_ok w tbu key = false →
  ∃ d p, obj_get key (derivers (graph w)) = Some d ∧ p ∈ params d ∧ p ∈ tbu.
Proof.
  intros Hcan.
  destruct (obj_get key (derivers (graph w))) as [d|] eqn:Hd;
    [|by unfold canUpdate_ok in Hcan; rewrite Hd in Hcan].
  destruct (decide (Forall (λ p, p ∉ tbu) (params d))) as [Hall|Hex].
  - assert (canUpdate_ok w tbu key = true); [|congruence].
    apply canUpdate_true_ok. intros d' Hd' p Hp. simplify_eq.
    by eapply Forall_forall in Hall.
  - apply not_Forall_Exists in Hex; [|apply _].
    apply Exists_exists in Hex as (p & Hp & Hin). exists d, p. split_and!; [done..|].
    cbn in Hin. by destruct (decide (p ∈ tbu)).
Qed.

Lemma rank_le_sum (rank : StateKey → nat) (l : list StateKey) u :
  u ∈ l → rank u ≤ sum_list_with rank l.
Proof.
  induction l as [|x l IH]; [by intros ?%elem_of_nil|].
  intros [->|Hu]%elem_of_cons; cbn; [lia|]. apply IH in Hu. lia.
Qed.

(** A set whose keys are all held back by a key of the set is empty in a
    ranked graph. *)

Lemma ranked_no_stuck_ok w rank (rest : list StateKey) :
  indexed_ok w → ranked w rank →
  (∀ u, u ∈ rest → canUpdate_ok w rest u = false) →
  rest = [].
Proof.
  intros Hidx Hr Hstuck.
  assert (Hno : ∀ n u, u ∈ rest → sum_list_with rank rest - rank u < n → False).
  { induction n as [|n IH]; intros u Hu Hlt; [lia|].
    destruct (canUpdate_false_ok _ _ _ (Hstuck u Hu)) as (d & p & Hd & Hp & Hin).
    assert (rank u < rank p) by (by eapply Hr, indexed_this_deps_ok).
    pose proof (rank_le_sum rank rest p Hin).
    apply (IH p Hin). lia. }
  destruct rest as [|u rest']; [done|].
  exfalso. eapply (Hno _ u); [left|]. apply Nat.lt_succ_diag_r.
Qed.

Lemma push_accurate_consistent_ok fuel newState w order w' :
  push_accurate_ok fuel newState w = Some (order, w') →
  ∃ stab rest,
    order = stab ++ rest
    ∧ (∀ u, u ∈ rest → canUpdate_ok w rest u = false)
    ∧ (∀ l1 k l2 d p, order = l1 ++ k :: l2 → k ∈ stab →
         obj_get k (derivers (graph w)) = Some d → p ∈ params d → p ∉ k :: l2)
    ∧ ∀ k d f, k ∈ stab →
        obj_get k (derivers (graph w)) = Some d → func d = Sync f →
        reads_within (params d) f →
        state (graph w') !! k = Some (apply_fn f (state (graph w'))).
Proof.
  intros Hpush.
  pose proof (push_accurate_order_ok _ _ _ _ _ Hpush) as (Hnd & _).
  apply push_accurate_spec_ok in Hpush
    as (closure & stab & _ & Hndc & Hnds & Hsub & Helig & Hstuck & Horder & ->).
  set (rest := array_sort (cycle_compare w) (pending_after closure stab)) in *.
  assert (Hperm : rest ≡ₚ pending_after closure stab) by apply array_sort_Permutation.
  assert (Hrest : ∀ u, u ∈ rest ↔ u ∈ closure ∧ u ∉ stab).
  { intros u. by rewrite Hperm, elem_of_pending. }
  assert (Htopo : ∀ l1 k l2 d p, order = l1 ++ k :: l2 → k ∈ stab →
    obj_get k (derivers (graph w)) = Some d → p ∈ params d → p ∉ k :: l2).
  { intros l1 k l2 d p Heq Hk Hd Hp Hin.
    assert (Hkl1 : (k ∉ l1) ∧ k ∉ l2).
    { rewrite Heq in Hnd. apply NoDup_app in Hnd as (_ & Hd1 & Hd2).
      apply NoDup_cons in Hd2 as [? _]. split; [|done].
      intros ?. eapply Hd1; [done|left]. }
    apply list_elem_of_split in Hk as (s1 & s2 & Hs).
    assert (l1 = s1) as ->.
    { rewrite Hs, <-app_assoc in Horder. cbn in Horder. rewrite Heq in Horder.
      assert (Hks1 : k ∉ s1).
      { rewrite Hs in Hnds. apply NoDup_app in Hnds as (_ & Hd1 & _).
        intros ?. eapply Hd1; [done|left]. }
      clear -Horder Hkl1 Hks1. destruct Hkl1 as [Hkl1 _].
      revert s1 Horder Hks1. induction l1 as [|a l1 IH]; intros [|b s1] Heq Hks1.
      - done.
      - injection Heq as -> _. exfalso. apply Hks1. left.
      - injection Heq as -> _. exfalso. apply Hkl1. left.
      - injection Heq as -> Heq. f_equal. apply IH; [|done|].
        + intros ?. apply Hkl1. by right.
        + intros ?. apply Hks1. by right. }
    specialize (Helig s1 k s2 Hs).
    rewrite canUpdate_true_ok in Helig. specialize (Helig d Hd p Hp).
    rewrite elem_of_pending in Helig.
    assert (Hpo : p ∈ order) by (rewrite Heq; apply elem_of_app; by right).
    assert (Hpc : p ∈ closure).
    { rewrite Horder in Hpo. apply elem_of_app in Hpo as [Hpo|Hpo]; [by apply Hsub|].
      by apply Hrest in Hpo as [? _]. }
    destruct (decide (p ∈ s1)) as [Hps1|Hps1]; [|by apply Helig].
    rewrite Heq in Hnd. apply NoDup_app in Hnd as (_ & Hd1 & _).
    by eapply Hd1. }
  exists stab, rest. split_and!; [done| |done|].
  - intros u Hu.
    rewrite <-(Hstuck u) by (by rewrite <-Hperm).
    unfold canUpdate_ok. destruct (obj_get u _); [|done]. f_equal.
    apply list_fmap_ext. intros _ p _. unfold set_has. f_equal.
    apply bool_decide_ext. by rewrite Hperm.
  - intros k d f Hk Hd Hf Hreads.
    assert (Hko : k ∈ order) by (rewrite Horder; apply elem_of_app; by left).
    apply list_elem_of_split in Hko as (l1 & l2 & Heq).
    rewrite Heq. rewrite Heq in Hnd.
    apply updates_consistent_ok with (d := d);
      [by rewrite (static_derivers _ w (assigned_static _ _))|done|done| |].
    + intros p Hp. eapply Htopo; [|done..]. by rewrite <-Heq.
    + apply NoDup_app in Hnd as (_ & _ & Hd2). by apply NoDup_cons in Hd2 as [? _].
Qed.

(** Two sets of keys that hold the batch, are closed under the index and
    hold nothing that is not reached are the same set. *)

Lemma reached_subseteq w rank (keys l1 l2 : list StateKey) :
  ranked w rank →
  (∀ k, k ∈ l1 → k ∈ keys ∨ ∃ k', k' ∈ l1 ∧ k ∈ this_deps w k') →
  keys ⊆ l2 →
  (∀ k d, k ∈ l2 → d ∈ this_deps w k → d ∈ l2) →
  l1 ⊆ l2.
Proof.
  intros Hr Hreached Hkeys Hclosed.
  assert (Hn : ∀ n k, k ∈ l1 → sum_list_with rank l1 - rank k < n → k ∈ l2).
  { induction n as [|n IH]; intros k Hk Hlt; [lia|].
    destruct (Hreached k Hk) as [Hin|(k' & Hk' & Hdep)]; [by apply Hkeys|].
    apply (Hclosed k'); [|done]. apply IH; [done|].
    pose proof (Hr _ _ Hdep). pose proof (rank_le_sum rank l1 k' Hk'). lia. }
  intros k Hk. by apply (Hn (S (sum_list_with rank l1 - rank k))); [|lia].
Qed.

Lemma updates_untouched_ok newState ks w k :
  k ∉ ks ∨ (∀ d f, obj_get k (derivers (graph w)) = Some d → func d ≠ Sync f) →
  state (graph (updates_ok newState ks w)) !! k = state (graph w) !! k.
Proof.
  intros [Hk|Hk]; apply updates_state_other_ok; [by left|right].
  intros d Hd. unfold is_request. specialize (Hk d).
  destruct (func d) as [f|r]; [|done]. by destruct (Hk f).
Qed.

(** On ordinary names: on a graph without dependency cycle whose synchronous derivers
    read nothing but their [params], a fast push and an accurate push of the
    same batch that both return visit the same keys and leave the same
    graph: the same state, derivers, index and watchers. *)
Lemma push_modes_agree_on_acyclic_graph_ok fuel fuel' newState w rank visited wf order wa :
  indexed_ok w → ranked w rank → honest w →
  push_fast_ok fuel newState w = Some (visited, wf) →
  push_accurate_ok fuel' newState w = Some (order, wa) →
  (∀ k, k ∈ visited ↔ k ∈ order) ∧ graph wf = graph wa.
Proof.
  intros Hidx Hr Hhonest Hfast Hacc.
  pose proof (push_fast_spec_ok _ _ _ _ _ Hfast) as (Hwf & Hfk & Hfc & Hfr).
  pose proof (push_accurate_order_ok _ _ _ _ _ Hacc) as (_ & Hak & Hac & Har).
  pose proof (push_accurate_spec_ok _ _ _ _ _ Hacc) as (? & ? & _ & _ & _ & _ & _ & _ & _ & Hwa).
  assert (Hsame : ∀ k, k ∈ visited ↔ k ∈ order).
  { intros k. split; by eapply reached_subseteq. }
  split; [done|].
  destruct (push_accurate_consistent_ok _ _ _ _ _ Hacc)
    as (stab & rest & Horder & Hstuck & _ & Hcons).
  assert (rest = []) as -> by (by eapply ranked_no_stuck_ok).
  rewrite app_nil_r in Horder. subst stab.
  assert (Hstate : ∀ n k, (k ∈ visited → sum_list_with rank visited - rank k < n) →
            state (graph wf) !! k = state (graph wa) !! k).
  { induction n as [|n IH]; intros k Hk.
    - assert (Hnot : k ∉ visited) by (intros Hin; apply Hk in Hin; lia).
      rewrite Hwf, Hwa.
      rewrite !updates_untouched_ok; [done|left..]; [by rewrite <-Hsame|done].
    - destruct (decide (k ∈ visited)) as [Hin|Hnot].
      2:{ apply IH. by intros ?. }
      destruct (obj_get k (derivers (graph w))) as [d|] eqn:Hd.
      2:{ rewrite Hwf, Hwa. rewrite !updates_untouched_ok; [done|right..];
            intros d' f'; cbn; by rewrite Hd. }
      destruct (func d) as [f|r] eqn:Hf.
      2:{ rewrite Hwf, Hwa. rewrite !updates_untouched_ok; [done|right..];
            intros d' f'; cbn; rewrite Hd; intros [= <-]; by rewrite Hf. }
      rewrite (push_fast_consistent_ok _ _ _ _ _ _ _ _ Hidx Hfast Hin Hd Hf)
        by (by eapply Hhonest).
      rewrite (Hcons k d f); [|by apply Hsame|done|done|by eapply Hhonest].
      f_equal. apply (Hhonest k d f Hd Hf). intros p Hp. apply IH. intros Hpin.
      assert (rank k < rank p) by (by eapply Hr, indexed_this_deps_ok).
      pose proof (rank_le_sum rank visited p Hpin). specialize (Hk Hin). lia. }
  assert (Heq : state (graph wf) = state (graph wa)).
  { apply map_eq. intros k. apply (Hstate (S (sum_list_with rank visited)) k). lia. }
  assert (Hst : static wf = static wa).
  { rewrite Hwf, Hwa. by rewrite !updates_static_ok. }
  unfold static in Hst. destruct wf as [[] ?], wa as [[] ?]. cbn in *.
  by simplify_eq.
Qed.

Lemma notifications_emit es rt :
  notifications (emit es rt) = notifications rt ++ omap notification es.
Proof. unfold notifications. cbn. apply omap_app. Qed.

Lemma notifications_call_request {S : Type} (getter : StateKey → S → V * S) r s rt :
  notifications (call_request getter r s rt).2 = notifications rt.
Proof.
  revert s rt. induction r as [rid body|cell r IH]; intros s rt; cbn.
  - destruct (invoke getter body s) as [[] s']; cbn;
      unfold notifications; cbn; by rewrite omap_app, app_nil_r.
  - destruct (flag cell rt); [done|].
    specialize (IH s rt).
    destruct (call_request getter r s rt) as [[[p|] s'] rt']; cbn in *; done.
Qed.

Lemma notifications_dispatch_change_ok key w :
  notifications (runtime (dispatch_change_ok key w))
  = notifications (runtime w) ++ ((λ watcher, (watcher, key)) <$> notified key (graph w)).
Proof.
  unfold dispatch_change_ok, with_runtime. cbn [runtime]. rewrite notifications_emit. f_equal.
  induction (notified key (graph w)) as [|x l IH]; [done|]. cbn. by rewrite IH.
Qed.

Lemma notifications_update_ok key newState w :
  notifications (runtime (update_ok key newState w))
  = notifications (runtime w) ++ announced_ok newState w key.
Proof.
  unfold update_ok, announced_ok, announces_ok.
  destruct (obj_get key (derivers (graph w))) as [d|]; [|by rewrite app_nil_r].
  destruct (func d) as [f|r].
  - destruct (invoke _ f ()) as [v []]. by rewrite notifications_dispatch_change_ok.
  - case_bool_decide; [by rewrite notifications_dispatch_change_ok|].
    rewrite app_nil_r.
    pose proof (notifications_call_request (plain_getter (state (graph w))) r ()
                  (runtime w)) as Hcall.
    destruct (call_request _ r () (runtime w)) as [[[x|] []] rt]; cbn in *; done.
Qed.

Lemma announced_static_ok newState w w' key :
  static w = static w' → announced_ok newState w key = announced_ok newState w' key.
Proof.
  unfold static, announced_ok, announces_ok, notified. intros Hst.
  injection Hst as _ -> _ -> ->. done.
Qed.

Lemma notifications_updates_ok newState ks w :
  notifications (runtime (updates_ok newState ks w))
  = notifications (runtime w) ++ (ks ≫= announced_ok newState w).
Proof.
  induction ks as [|k ks IH] using rev_ind; [by rewrite app_nil_r|].
  rewrite updates_app_ok. cbn [updates_ok foldl].
  rewrite notifications_update_ok. fold (updates_ok newState ks w). rewrite IH.
  rewrite bind_app, <-app_assoc. do 2 f_equal. cbn. rewrite app_nil_r.
  apply announced_static_ok, updates_static_ok.
Qed.

Lemma push_notifications_ok fuel newState mode w order w' :
  push_ok fuel newState mode w = Some (order, w') →
  notifications (runtime w')
  = notifications (runtime w) ++ (order ≫= announced_ok newState w).
Proof.
  intros (-> & _)%push_spec_ok. by rewrite notifications_updates_ok.
Qed.

Lemma filter_pair_fmap (x : Watcher) (k k' : StateKey) (l : list Watcher) :
  length (filter (λ n, n = (x, k)) ((λ y, (y, k')) <$> l))
  = if bool_decide (k' = k) then length (filter (λ y, y = x) l) else 0.
Proof.
  induction l as [|y l IH]; [by case_bool_decide|].
  rewrite fmap_cons, filter_cons, (filter_cons _ y l).
  destruct (decide ((y, k') = (x, k))) as [Heq|Hne].
  - injection Heq as -> ->. rewrite decide_True by done. cbn. rewrite IH.
    by rewrite !bool_decide_eq_true_2.
  - rewrite IH. case_bool_decide; [|done]. subst k'.
    rewrite decide_False; [done|congruence].
Qed.

Lemma filter_announced_ok newState w (x : Watcher) k k' :
  length (filter (λ n, n = (x, k)) (announced_ok newState w k'))
  = if bool_decide (k' = k) && announces_ok newState w k
    then length (filter (λ y, y = x) (notified k (graph w))) else 0.
Proof.
  unfold announced_ok. destruct (announces_ok newState w k') eqn:Ha.
  - rewrite filter_pair_fmap. case_bool_decide; [|done]. subst k'. by rewrite Ha.
  - case_bool_decide; [|done]. subst k'. by rewrite Ha.
Qed.

Lemma count_bind_NoDup {A : Type} (f : StateKey → list A) (P : A → Prop)
    `{!∀ a, Decision (P a)} (ks : list StateKey) k :
  NoDup ks → (∀ k', k' ≠ k → filter P (f k') = []) →
  length (filter P (ks ≫= f))
  = if bool_decide (k ∈ ks) then length (filter P (f k)) else 0.
Proof.
  intros Hnd Hother. induction Hnd as [|k' ks Hk' Hnd IH]; [done|].
  cbn. rewrite filter_app, length_app, IH.
  destruct (decide (k' = k)) as [->|Hne].
  - rewrite (bool_decide_eq_false_2 (k ∈ ks)) by done.
    rewrite bool_decide_eq_true_2 by left. lia.
  - rewrite (Hother k' Hne). cbn.
    rewrite (bool_decide_ext (k ∈ k' :: ks) (k ∈ ks)); [done|].
    rewrite elem_of_cons. naive_solver.
Qed.

(** On ordinary names: an accurate push calls a watcher for a key as many times as the
    watcher is registered for it (for the key or for all keys) when the key
    is in the returned list and [update] announces it, and not at all
    otherwise. *)
Lemma push_accurate_calls_each_watcher_once_ok fuel newState w order w' :
  push_accurate_ok fuel newState w = Some (order, w') →
  ∃ new,
    notifications (runtime w') = notifications (runtime w) ++ new
    ∧ ∀ (x : Watcher) k,
        length (filter (λ n, n = (x, k)) new)
        = if bool_decide (k ∈ order) && announces_ok newState w k
          then length (filter (λ y, y = x) (notified k (graph w))) else 0.
Proof.
  intros Hpush. exists (order ≫= announced_ok newState w). split.
  - apply (push_notifications_ok fuel newState (Some accurate) w order w'). done.
  - intros x k. apply push_accurate_order_ok in Hpush as (Hnd & _).
    rewrite (count_bind_NoDup _ _ _ k Hnd).
    + rewrite filter_announced_ok. rewrite (bool_decide_eq_true_2 (k = k)) by done. cbn.
      destruct (announces_ok newState w k); [by rewrite andb_true_r|].
      rewrite andb_false_r. by case_bool_decide.
    + intros k' Hne. apply length_zero_iff_nil. rewrite filter_announced_ok.
      by rewrite bool_decide_eq_false_2.
Qed.

Lemma obj_get_obj_set {A : Type} name name' (a : A) (o : list (StateKey * A)) :
  obj_get name' (obj_set name a o)
  = if decide (name = name') then Some a else obj_get name' o.
Proof.
  induction o as [|[k b] o IH]; cbn.
  - by destruct (decide (name = name')).
  - destruct (decide (k = name)) as [->|Hne]; cbn.
    + by destruct (decide (name = name')).
    + rewrite IH. destruct (decide (k = name')) as [->|]; [|done].
      by rewrite decide_False.
Qed.

Lemma obj_set_keys {A : Type} name (a : A) (o : list (StateKey * A)) x :
  x ∈ obj_keys (obj_set name a o) ↔ x = name ∨ x ∈ obj_keys o.
Proof.
  unfold obj_keys. induction o as [|[k b] o IH]; cbn.
  - rewrite list_elem_of_singleton, elem_of_nil. naive_solver.
  - destruct (decide (k = name)) as [->|Hne]; cbn;
      rewrite !elem_of_cons; [|rewrite IH]; naive_solver.
Qed.

Lemma obj_set_NoDup {A : Type} name (a : A) (o : list (StateKey * A)) :
  NoDup (obj_keys o) → NoDup (obj_keys (obj_set name a o)).
Proof.
  unfold obj_keys. induction o as [|[k b] o IH]; cbn; intros Hnd.
  - apply NoDup_singleton.
  - apply NoDup_cons in Hnd as [Hk Hnd].
    destruct (decide (k = name)) as [->|Hne]; cbn; apply NoDup_cons.
    + done.
    + split; [|by apply IH].
      intros Hin. apply (obj_set_keys name a o k) in Hin as [?|?]; done.
Qed.

Lemma obj_spread_NoDup {A : Type} (o1 o2 : list (StateKey * A)) :
  NoDup (obj_keys o1) → NoDup (obj_keys (obj_spread o1 o2)).
Proof.
  unfold obj_spread. revert o1.
  induction o2 as [|[k a] o2 IH]; intros o1 Hnd; [done|].
  cbn. by apply IH, obj_set_NoDup.
Qed.

Lemma from_entries_NoDup {A : Type} (f : A → Runtime V → ExplicitlyDerived V * Runtime V)
    es acc rt :
  NoDup (obj_keys acc) → NoDup (obj_keys (from_entries f es acc rt).1).
Proof.
  revert acc rt. induction es as [|[name value] es IH]; intros acc rt Hnd; [done|].
  cbn. destruct (f value rt) as [d rt']. by apply IH, obj_set_NoDup.
Qed.

Lemma obj_get_of_elem {A : Type} name (a : A) (o : list (StateKey * A)) :
  NoDup (obj_keys o) → (name, a) ∈ o → obj_get name o = Some a.
Proof.
  unfold obj_keys. induction o as [|[k b] o IH]; [by intros _ ?%elem_of_nil|].
  rewrite fmap_cons. intros [Hk Hnd]%NoDup_cons [Heq|Hin]%elem_of_cons; cbn.
  - injection Heq as -> ->. by rewrite decide_True.
  - destruct (decide (k = name)) as [->|]; [|by apply IH].
    exfalso. apply Hk. apply list_elem_of_fmap. by exists (name, a).
Qed.

Lemma new_StateGraph_derivers_ok fuel args rt w :
  new_StateGraph_ok fuel args rt = Some w →
  ∃ ders1 ders2 rt1 rt2,
    from_entries from_deriver_arg (entries (args_derivers args)) [] rt = (ders1, rt1)
    ∧ from_entries from_request_arg (entries (args_requests args)) [] rt1 = (ders2, rt2)
    ∧ derivers (graph w) = obj_spread ders1 ders2.
Proof.
  unfold new_StateGraph_ok. intros Hnew.
  destruct (from_entries from_deriver_arg _ [] rt) as [ders1 rt1] eqn:H1.
  destruct (from_entries from_request_arg _ [] rt1) as [ders2 rt2] eqn:H2.
  exists ders1, ders2, rt1, rt2. split_and!; [done..|].
  destruct (args_defaults args) as [defaults|].
  - destruct (push_ok fuel defaults None _) as [[order w']|] eqn:Hpush; [|done].
    injection Hnew as <-.
    by apply push_static_ok, static_derivers in Hpush.
  - by injection Hnew as <-.
Qed.

(** On ordinary names: in a graph made by the constructor every name has one deriver in
    the table, and [deps[dep]] lists [name] exactly when the deriver
    registered for [name] has [dep] among its [params]. *)
Lemma constructor_indexes_dependents_ok fuel args rt w :
  new_StateGraph_ok fuel args rt = Some w →
  NoDup (obj_keys (derivers (graph w)))
  ∧ ∀ dep name,
      name ∈ this_deps w dep
      ↔ ∃ d, obj_get name (derivers (graph w)) = Some d ∧ dep ∈ params d.
Proof.
  intros Hnew. pose proof (new_StateGraph_indexed_ok _ _ _ _ Hnew) as Hidx.
  apply new_StateGraph_derivers_ok in Hnew as (ders1 & ders2 & rt1 & rt2 & H1 & _ & Hders).
  assert (Hnd : NoDup (obj_keys (derivers (graph w)))).
  { rewrite Hders. apply obj_spread_NoDup.
    pose proof (from_entries_NoDup from_deriver_arg (entries (args_derivers args)) [] rt)
      as Hnd.
    rewrite H1 in Hnd. apply Hnd. constructor. }
  split; [done|]. intros dep name. unfold this_deps. rewrite Hidx, build_deps_elem_ok.
  split; intros (d & Hd & Hp); exists d; split; try done.
  - by apply obj_get_of_elem.
  - by apply obj_get_elem.
Qed.

Lemma obj_set_Forall {A : Type} (P : A → Prop) name (a : A) (o : list (StateKey * A)) :
  P a → Forall (λ kv, P kv.2) o → Forall (λ kv, P kv.2) (obj_set name a o).
Proof.
  intros Ha. induction o as [|[k b] o IH]; cbn; intros Hall.
  - by repeat constructor.
  - apply Forall_cons in Hall as [Hb Hall].
    destruct (decide (k = name)); constructor; auto.
Qed.

Lemma from_entries_Forall {A : Type} (P : ExplicitlyDerived V → Prop)
    (f : A → Runtime V → ExplicitlyDerived V * Runtime V) es acc rt :
  (∀ a rt, P (f a rt).1) →
  Forall (λ kv, P kv.2) acc → Forall (λ kv, P kv.2) (from_entries f es acc rt).1.
Proof.
  intros Hf. revert acc rt.
  induction es as [|[name value] es IH]; intros acc rt Hall; [done|].
  cbn. pose proof (Hf value rt). destruct (f value rt) as [d rt'].
  by apply IH, obj_set_Forall.
Qed.

Lemma from_entries_keys {A : Type}
    (f : A → Runtime V → ExplicitlyDerived V * Runtime V) es acc rt x :
  x ∈ obj_keys (from_entries f es acc rt).1 ↔ x ∈ obj_keys acc ∨ x ∈ es.*1.
Proof.
  revert acc rt. induction es as [|[name value] es IH]; intros acc rt; cbn.
  - rewrite elem_of_nil. naive_solver.
  - destruct (f value rt) as [d rt']. rewrite IH, obj_set_keys, elem_of_cons.
    naive_solver.
Qed.

Lemma from_entries_get_other {A : Type}
    (f : A → Runtime V → ExplicitlyDerived V * Runtime V) es acc rt name :
  name ∉ es.*1 → obj_get name (from_entries f es acc rt).1 = obj_get name acc.
Proof.
  revert acc rt. induction es as [|[k value] es IH]; intros acc rt Hk; [done|].
  rewrite fmap_cons, not_elem_of_cons in Hk. destruct Hk as [Hne Hk]. cbn in Hne.
  cbn. destruct (f value rt) as [d rt']. rewrite IH by done.
  rewrite obj_get_obj_set. by rewrite decide_False.
Qed.

Lemma from_entries_get {A : Type}
    (f : A → Runtime V → ExplicitlyDerived V * Runtime V) es acc rt name value :
  NoDup es.*1 → (name, value) ∈ es →
  ∃ rt', obj_get name (from_entries f es acc rt).1 = Some (f value rt').1.
Proof.
  revert acc rt. induction es as [|[k v] es IH]; intros acc rt Hnd Hin;
    [by apply elem_of_nil in Hin|].
  rewrite fmap_cons in Hnd. apply NoDup_cons in Hnd as [Hk Hnd].
  apply elem_of_cons in Hin as [Heq|Hin].
  - injection Heq as <- <-. exists rt. cbn. cbn in Hk.
    destruct (f value rt) as [d rt']. rewrite from_entries_get_other by done.
    rewrite obj_get_obj_set. by rewrite decide_True.
  - cbn. destruct (f v rt) as [d rt']. by apply IH.
Qed.

Lemma obj_spread_get_l {A : Type} (o1 o2 : list (StateKey * A)) name :
  name ∉ obj_keys o2 → obj_get name (obj_spread o1 o2) = obj_get name o1.
Proof.
  unfold obj_spread, obj_keys. revert o1.
  induction o2 as [|[k a] o2 IH]; intros o1 Hk; [done|].
  rewrite fmap_cons, not_elem_of_cons in Hk. destruct Hk as [Hne Hk]. cbn in Hne.
  cbn. rewrite IH by done. rewrite obj_get_obj_set. by rewrite decide_False.
Qed.

Lemma obj_spread_get_r {A : Type} (o1 o2 : list (StateKey * A)) name :
  name ∈ obj_keys o2 →
  ∃ a, (name, a) ∈ o2 ∧ obj_get name (obj_spread o1 o2) = Some a.
Proof.
  unfold obj_spread, obj_keys. revert o1.
  induction o2 as [|[k a] o2 IH]; intros o1 Hk; [by apply elem_of_nil in Hk|].
  destruct (decide (name ∈ o2.*1)) as [Hin|Hnin].
  - destruct (IH (obj_set k a o1) Hin) as (b & Hb & Hget).
    exists b. split; [by right|done].
  - rewrite fmap_cons in Hk. apply elem_of_cons in Hk as [->|Hk]; [|done].
    exists a. split; [left|]. cbn.
    pose proof (obj_spread_get_l (obj_set k a o1) o2 k Hnin) as Hl.
    unfold obj_spread in Hl. rewrite Hl.
    rewrite obj_get_obj_set. by rewrite decide_True.
Qed.

Lemma elem_of_entries {A : Type} (o : list (StateKey * option A)) name a :
  (name, a) ∈ entries o ↔ (name, Some a) ∈ o.
Proof.
  unfold entries. rewrite list_elem_of_omap. split.
  - intros ([k [b|]] & Hin & Heq); cbn in Heq; [|done]. by injection Heq as -> ->.
  - intros Hin. by exists (name, Some a).
Qed.

Lemma entries_NoDup {A : Type} (o : list (StateKey * option A)) :
  NoDup o.*1 → NoDup (entries o).*1.
Proof.
  unfold entries. induction o as [|[k [a|]] o IH]; cbn; [done| |].
  - intros [Hk Hnd]%NoDup_cons. apply NoDup_cons. split; [|by apply IH].
    intros ([k' b] & -> & Hin)%list_elem_of_fmap. cbn in Hk.
    apply (elem_of_entries o) in Hin. apply Hk, list_elem_of_fmap.
    by exists (k', Some b).
  - intros [_ Hnd]%NoDup_cons. by apply IH.
Qed.

(** On ordinary names: every truthy entry of [requests] is registered as a request
    deriver, also when [derivers] has an entry of the same name; an entry of
    [derivers] whose name is not among the requests is registered as given
    when it is explicit, and with the reads of the probe as [params] when it
    is a bare function. *)
Lemma constructor_registers_derivers_ok fuel args rt w :
  new_StateGraph_ok fuel args rt = Some w →
  (∀ name a, (name, Some a) ∈ args_requests args →
     ∃ d, obj_get name (derivers (graph w)) = Some d ∧ is_request d = true)
  ∧ (NoDup (args_derivers args).*1 →
     ∀ name a, (name, Some a) ∈ args_derivers args →
       name ∉ (entries (args_requests args)).*1 →
       obj_get name (derivers (graph w))
       = Some match a with
              | Explicit d => d
              | AutoDerived fn =>
                  {| params := probe_reads fn; func := Sync fn; order := None |}
              end).
Proof.
  intros (ders1 & ders2 & rt1 & rt2 & H1 & H2 & ->)%new_StateGraph_derivers_ok.
  split.
  - intros name a Hin.
    assert (Hk : name ∈ obj_keys ders2).
    { pose proof (from_entries_keys from_request_arg (entries (args_requests args)) [] rt1
                    name) as Hkeys.
      rewrite H2 in Hkeys. apply Hkeys. right.
      apply list_elem_of_fmap. exists (name, a). split; [done|].
      by apply elem_of_entries. }
    destruct (obj_spread_get_r ders1 ders2 name Hk) as (d & Hd & Hget).
    exists d. split; [done|].
    assert (Hall : Forall (λ kv, is_request kv.2 = true) ders2).
    { pose proof (from_entries_Forall (λ d, is_request d = true) from_request_arg
                    (entries (args_requests args)) [] rt1) as Hall.
      rewrite H2 in Hall. apply Hall; [|constructor].
      intros [r|ps r o] rt'; [|done].
      unfold from_request_arg, ExtractDeriver.
      by destruct (call_request PropGetReporter r [] rt') as [[? ?] ?]. }
    apply (proj1 (Forall_forall _ _) Hall (name, d) Hd).
  - intros Hnd name a Hin Hnot.
    rewrite obj_spread_get_l.
    2:{ pose proof (from_entries_keys from_request_arg (entries (args_requests args)) []
                      rt1 name) as Hkeys.
        rewrite H2 in Hkeys. rewrite Hkeys. intros [?%elem_of_nil|?]; done. }
    destruct (from_entries_get from_deriver_arg (entries (args_derivers args)) [] rt
                name a) as (rt' & Hget); [by apply entries_NoDup|by apply elem_of_entries|].
    rewrite H1 in Hget. cbn [fst] in Hget. rewrite Hget. f_equal.
    destruct a as [fn|d]; [|done].
    unfold from_deriver_arg, ExtractDeriver.
    pose proof (invoke_reporter fn []) as Hprobe.
    destruct (invoke PropGetReporter fn []) as [v proplist]. cbn in *. by subst.
Qed.

Lemma uniform_reads_within {R : Type} (fn : Fn V R) :
  uniform fn → reads_within (probe_reads fn) fn.
Proof.
  induction fn as [r|name k IH]; intros Hu st st' Hagree; [done|].
  change (apply_fn (Read name k) st) with (apply_fn (k (state_get st name)) st).
  change (apply_fn (Read name k) st') with (apply_fn (k (state_get st' name)) st').
  assert (Hname : state_get st name = state_get st' name).
  { unfold state_get. rewrite (Hagree name); [done|left]. }
  rewrite <-Hname. destruct (Hu (state_get st name)) as [Hreads Hk].
  apply (IH _ Hk). intros p Hp. rewrite Hreads in Hp. apply Hagree. by right.
Qed.

Lemma ThrottleRequest_fresh request rt :
  ∃ cell,
    ThrottleRequest request rt = (Throttled cell request, set_flag cell false rt)
    ∧ cell ∉ dom (in_progress rt).
Proof. eexists. split; [done|]. apply is_fresh. Qed.

Lemma ExtractDeriver_started r rt :
  single_flight rt →
  (∀ c, c ∈ cells_of r → flag c rt = false) →
  (invoke PropGetReporter (body_of r) []).1 = true →
  ExtractDeriver (Async r) rt
  = ({| params := probe_reads (body_of r); func := Async r; order := None |},
     started r rt).
Proof.
  intros Hsf Hclear Hbody. unfold ExtractDeriver.
  rewrite call_request_started; [|done|by intros; apply single_flight_fresh].
  rewrite Hbody. by rewrite invoke_reporter.
Qed.

(** X15: two closures made by [ThrottleRequest] have separate
    [in_progress] flags: while a call of the first is in flight, the first
    returns [null] without calling its request, and the second still calls
    its own. *)
Theorem throttles_are_independent {S : Type} (getter : StateKey → S → V * S)
    rid1 body1 rid2 body2 s1 s2 rt :
  single_flight rt →
  (invoke getter body1 s1).1 = true →
  ∃ c1 c2 rt2 rt3 s1',
    ThrottleRequest (Plain rid1 body1) rt = (Throttled c1 (Plain rid1 body1), set_flag c1 false rt)
    ∧ ThrottleRequest (Plain rid2 body2) (set_flag c1 false rt)
      = (Throttled c2 (Plain rid2 body2), rt2)
    ∧ c1 ≠ c2
    ∧ call_request getter (Throttled c1 (Plain rid1 body1)) s1 rt2
      = (Some (next_promise rt), s1', rt3)
    ∧ (∀ s, call_request getter (Throttled c1 (Plain rid1 body1)) s rt3 = (None, s, rt3))
    ∧ events (call_request getter (Throttled c2 (Plain rid2 body2)) s2 rt3).2
      = events rt ++ [Requested rid1; Requested rid2].
Proof.
  intros Hsf Hbody.
  destruct (ThrottleRequest_fresh (Plain rid1 body1) rt) as (c1 & H1 & Hc1).
  destruct (ThrottleRequest_fresh (Plain rid2 body2) (set_flag c1 false rt))
    as (c2 & H2 & Hc2).
  assert (Hne : c1 ≠ c2).
  { intros <-. apply Hc2. cbn. apply elem_of_dom. rewrite lookup_insert_eq. by eexists. }
  set (rt2 := set_flag c2 false (set_flag c1 false rt)) in *.
  assert (Hsf2 : single_flight rt2).
  { pose proof (ThrottleRequest_single_flight (Plain rid2 body2) (set_flag c1 false rt)) as Hs.
    rewrite H2 in Hs. apply Hs.
    pose proof (ThrottleRequest_single_flight (Plain rid1 body1) rt Hsf) as Hs1.
    by rewrite H1 in Hs1. }
  assert (Hf1 : flag c1 rt2 = false).
  { unfold rt2. rewrite !flag_set_flag. rewrite decide_False by done.
    by rewrite decide_True. }
  assert (Hf2 : flag c2 rt2 = false).
  { unfold rt2. rewrite !flag_set_flag. by rewrite decide_True. }
  set (t1 := Throttled c1 (Plain rid1 body1)).
  set (t2 := Throttled c2 (Plain rid2 body2)).
  exists c1, c2, rt2, (started t1 rt2), (invoke getter body1 s1).2.
  split_and!; [done|done|done| | |].
  - rewrite call_request_started; [|..].
    + cbn [body_of]. rewrite Hbody. reflexivity.
    + intros c Hc. cbn in Hc. apply list_elem_of_singleton in Hc as ->. done.
    + intros pr Hpr. by apply single_flight_fresh.
  - intros s. apply call_request_blocked with (c := c1); [left|].
    rewrite flag_started. rewrite decide_True; [done|left].
  - assert (Hsf3 : single_flight (started t1 rt2)).
    { apply single_flight_started; [done|].
      intros c Hc. cbn in Hc. apply list_elem_of_singleton in Hc as ->. done. }
    rewrite call_request_started.
    + cbn [body_of rid_of].
      destruct (invoke getter body2 s2).1; cbn; by rewrite <-app_assoc.
    + intros c Hc. cbn in Hc. apply list_elem_of_singleton in Hc as ->.
      rewrite flag_started. rewrite decide_False; [done|].
      intros Hc. cbn in Hc. by apply list_elem_of_singleton in Hc.
    + intros pr Hpr. by apply single_flight_fresh.
Qed.

(** On ordinary names: [push] writes the returned keys only: a key that is not in the
    returned list, or that is neither in the batch nor written by a
    synchronous deriver, keeps its value, and the derivers, the index, the
    watchers and the default mode are never changed. *)
Lemma push_writes_returned_keys_only_ok fuel newState mode w order w' :
  push_ok fuel newState mode w = Some (order, w') →
  static w' = static w
  ∧ ∀ k,
      k ∉ order
      ∨ ((k ∉ obj_keys newState)
         ∧ ∀ d f, obj_get k (derivers (graph w)) = Some d → func d ≠ Sync f) →
      state (graph w') !! k = state (graph w) !! k.
Proof.
  intros Hpush. split; [by eapply push_static_ok|].
  apply push_spec_ok in Hpush as (-> & Hkeys & _). intros k Hk.
  rewrite updates_untouched_ok.
  - cbn. apply obj_assign_lookup_ne. destruct Hk as [Hk|[Hk _]]; [|done].
    intros Hin. by apply Hk, Hkeys.
  - destruct Hk as [Hk|[_ Hk]]; [by left|by right].
Qed.

(** On ordinary names: [push_fast] does not return when the batch holds a key of a set in
    which every key has a dependent in the set, such as the keys of a
    dependency cycle or the keys from which one is reached: it runs out of
    any fuel. *)
Lemma push_fast_diverges_on_cycle_ok (C : StateKey → Prop) newState w :
  (∀ k, C k → ∃ d, d ∈ this_deps w k ∧ C d) →
  (∃ k, k ∈ obj_keys newState ∧ C k) →
  ∀ fuel, push_fast_ok fuel newState w = None.
Proof.
  intros Hcyc Hin fuel. unfold push_fast_ok.
  apply (push_fast_loop_cycle_ok C w); [done|apply assigned_static|done].
Qed.

(** On ordinary names: [push_fast] returns on a graph without dependency cycle: when a
    rank goes down along the index, the weights of the keys of the batch
    are enough fuel. *)
Lemma push_fast_returns_on_acyclic_graph_ok rank newState w fuel :
  ranked w rank →
  sum_list_with (λ k, weight w (rank k) k) (obj_keys newState) ≤ fuel →
  is_Some (push_fast_ok fuel newState w).
Proof.
  intros Hr Hfuel. unfold push_fast_ok.
  apply (push_fast_loop_ranked_ok rank w); [done|apply assigned_static|done].
Qed.

(** On ordinary names: when [push_fast] returns, every visited key whose synchronous
    deriver reads nothing but its [params] holds the value of its function
    on the final state, although it may have been computed several times. *)
Lemma push_fast_settles_derived_keys_ok fuel newState w visited w' k d f :
  indexed_ok w →
  push_fast_ok fuel newState w = Some (visited, w') →
  k ∈ visited →
  obj_get k (derivers (graph w)) = Some d → func d = Sync f →
  reads_within (params d) f →
  state (graph w') !! k = Some (apply_fn f (state (graph w'))).
Proof. apply push_fast_consistent_ok. Qed.

(** On ordinary names: the list that [push_accurate] returns is a first part, in which no
    [params] of a key comes at or after the key, followed by keys that each
    wait for a key of this second part; a key of the first part whose
    synchronous deriver reads nothing but its [params] holds the value of
    its function on the final state. *)
Lemma push_accurate_settles_derived_keys_ok fuel newState w order w' :
  push_accurate_ok fuel newState w = Some (order, w') →
  ∃ stab rest,
    order = stab ++ rest
    ∧ (∀ u, u ∈ rest → canUpdate_ok w rest u = false)
    ∧ (∀ l1 k l2 d p, order = l1 ++ k :: l2 → k ∈ stab →
         obj_get k (derivers (graph w)) = Some d → p ∈ params d → p ∉ k :: l2)
    ∧ ∀ k d f, k ∈ stab →
        obj_get k (derivers (graph w)) = Some d → func d = Sync f →
        reads_within (params d) f →
        state (graph w') !! k = Some (apply_fn f (state (graph w'))).
Proof. apply push_accurate_consistent_ok. Qed.

(** On ordinary names: on a graph without dependency cycle [push_accurate] needs no
    fallback: the returned list has each key once, no [params] of a key
    comes at or after the key, and every key whose synchronous deriver
    reads nothing but its [params] holds the value of its function on the
    final state. *)
Lemma push_accurate_topological_on_acyclic_graph_ok fuel newState w rank order w' :
  indexed_ok w → ranked w rank →
  push_accurate_ok fuel newState w = Some (order, w') →
  NoDup order
  ∧ (∀ l1 k l2 d p, order = l1 ++ k :: l2 →
       obj_get k (derivers (graph w)) = Some d → p ∈ params d → p ∉ k :: l2)
  ∧ ∀ k d f, k ∈ order →
      obj_get k (derivers (graph w)) = Some d → func d = Sync f →
      reads_within (params d) f →
      state (graph w') !! k = Some (apply_fn f (state (graph w'))).
Proof.
  intros Hidx Hr Hpush.
  pose proof (push_accurate_order_ok _ _ _ _ _ Hpush) as (Hnd & _).
  destruct (push_accurate_consistent_ok _ _ _ _ _ Hpush)
    as (stab & rest & Horder & Hstuck & Htopo & Hcons).
  assert (rest = []) as -> by (by eapply ranked_no_stuck_ok).
  rewrite app_nil_r in Horder. subst stab. split_and!; [done| |done].
  intros l1 k l2 d p Heq Hd Hp. apply (Htopo l1 k l2 d p Heq); [|done|done].
  rewrite Heq. apply elem_of_app. right. left.
Qed.

(** On ordinary names: the watcher calls of a [push] that returns are, for each key of
    the returned list in turn that [update] announces (its deriver is
    synchronous, or a request whose key is in the batch), the watchers of
    the key in the order of registration and then the watchers of all keys;
    a key without deriver is never announced. *)
Lemma push_calls_watchers_ok fuel newState mode w order w' :
  push_ok fuel newState mode w = Some (order, w') →
  notifications (runtime w')
  = notifications (runtime w)
    ++ (order ≫= λ k,
          if announces_ok newState w k
          then (λ watcher, (watcher, k))
                 <$> (default [] (watchers (graph w) !! k) ++ global_watchers (graph w))
          else [])
  ∧ ∀ k, obj_get k (derivers (graph w)) = None → announces_ok newState w k = false.
Proof.
  intros Hpush. split.
  - by apply push_notifications_ok in Hpush.
  - intros k Hk. unfold announces_ok. by rewrite Hk.
Qed.

(** X17: for a function whose reads do not depend on the values read, the
    [params] that [ExtractDeriver] finds are all it reads: its result is
    the same on two states that agree on them. *)
Theorem ExtractDeriver_params_cover_uniform_reads (fn : Fn V V) rt :
  uniform fn → reads_within (params (ExtractDeriver (Sync fn) rt).1) fn.
Proof.
  intros Hu. unfold ExtractDeriver.
  pose proof (invoke_reporter fn []) as Hprobe.
  destruct (invoke PropGetReporter fn []) as [v proplist]. cbn in *. subst.
  by apply uniform_reads_within.
Qed.

Lemma push_consistent_ok fuel newState mode w rank order w' k d f :
  indexed_ok w → ranked w rank →
  push_ok fuel newState mode w = Some (order, w') →
  k ∈ order →
  obj_get k (derivers (graph w)) = Some d → func d = Sync f →
  reads_within (params d) f →
  state (graph w') !! k = Some (apply_fn f (state (graph w'))).
Proof.
  intros Hidx Hr Hpush Hk Hd Hf Hreads. unfold push_ok in Hpush.
  destruct (default _ mode).
  - by eapply push_fast_consistent_ok.
  - destruct (push_accurate_consistent_ok _ _ _ _ _ Hpush)
      as (stab & rest & Horder & Hstuck & _ & Hcons).
    assert (rest = []) as -> by (by eapply ranked_no_stuck_ok).
    rewrite app_nil_r in Horder. subst stab. by eapply Hcons.
Qed.

Lemma obj_assign_lookup_in (st st' : gmap string V) newState k :
  k ∈ obj_keys newState → obj_assign st newState !! k = obj_assign st' newState !! k.
Proof.
  unfold obj_assign, obj_keys. revert st st'.
  induction newState as [|[k' v] b IH]; intros st st' Hk; [by apply elem_of_nil in Hk|].
  cbn. destruct (decide (k ∈ b.*1)) as [Hin|Hnin]; [by apply IH|].
  fold (obj_assign (<[k':=v]> st) b). fold (obj_assign (<[k':=v]> st') b).
  rewrite !obj_assign_lookup_ne by done.
  rewrite fmap_cons in Hk. apply elem_of_cons in Hk as [->|Hk]; [|done].
  cbn. by rewrite !lookup_insert_eq.
Qed.

(** On ordinary names: on a graph without dependency cycle whose synchronous derivers
    read nothing but their [params], pushing the same batch a second time,
    in either mode, visits the same keys and changes nothing in the graph:
    the state is the one the first push left. *)
Lemma push_twice_same_graph_ok fuel fuel' newState mode mode' w rank order w1 order' w2 :
  indexed_ok w → ranked w rank → honest w →
  push_ok fuel newState mode w = Some (order, w1) →
  push_ok fuel' newState mode' w1 = Some (order', w2) →
  (∀ k, k ∈ order' ↔ k ∈ order) ∧ graph w2 = graph w1.
Proof.
  intros Hidx Hr Hhonest Hpush1 Hpush2.
  pose proof (push_static_ok _ _ _ _ _ _ Hpush1) as Hst1.
  pose proof (push_static_ok _ _ _ _ _ _ Hpush2) as Hst2.
  assert (Hidx1 : indexed_ok w1) by (by eapply indexed_static_ok).
  assert (Hr1 : ranked w1 rank).
  { intros k d Hd. apply (Hr k d). by rewrite <-(this_deps_static w1 w). }
  assert (Hders : derivers (graph w1) = derivers (graph w)) by (by apply static_derivers).
  pose proof (push_spec_ok _ _ _ _ _ _ Hpush1) as (Hw1 & Hk1 & Hc1 & Hreach1).
  pose proof (push_spec_ok _ _ _ _ _ _ Hpush2) as (Hw2 & Hk2 & Hc2 & Hreach2).
  assert (Hsame : ∀ k, k ∈ order' ↔ k ∈ order).
  { intros k. split.
    - eapply (reached_subseteq w1 rank); [done|done|done|].
      intros k' d Hk' Hd. apply (Hc1 k' d Hk'). by rewrite <-(this_deps_static w1 w).
    - eapply (reached_subseteq w rank); [done|done|done|].
      intros k' d Hk' Hd. apply (Hc2 k' d Hk'). by rewrite (this_deps_static w1 w). }
  split; [done|].
  assert (Hstate : ∀ n k, (k ∈ order → sum_list_with rank order - rank k < n) →
            state (graph w2) !! k = state (graph w1) !! k).
  { induction n as [|n IH]; intros k Hk.
    - assert (Hnot : k ∉ order) by (intros Hin; apply Hk in Hin; lia).
      eapply push_frame_ok; [done|]. by rewrite Hsame.
    - destruct (decide (k ∈ order)) as [Hin|Hnot].
      2:{ apply IH. by intros ?. }
      destruct (obj_get k (derivers (graph w))) as [d|] eqn:Hd.
      2:{ rewrite Hw2, updates_untouched_ok
            by (right; intros d' f'; cbn; by rewrite Hders, Hd).
          destruct (decide (k ∈ obj_keys newState)) as [Hb|Hb].
          - rewrite Hw1 at 2. rewrite updates_untouched_ok
              by (right; intros d' f'; cbn; by rewrite Hd).
            cbn. by apply obj_assign_lookup_in.
          - cbn. by apply obj_assign_lookup_ne. }
      destruct (func d) as [f|r] eqn:Hf.
      2:{ rewrite Hw2, updates_untouched_ok
            by (right; intros d' f'; cbn; rewrite Hders, Hd; intros [= <-]; by rewrite Hf).
          destruct (decide (k ∈ obj_keys newState)) as [Hb|Hb].
          - rewrite Hw1 at 2. rewrite updates_untouched_ok
              by (right; intros d' f'; cbn; rewrite Hd; intros [= <-]; by rewrite Hf).
            cbn. by apply obj_assign_lookup_in.
          - cbn. by apply obj_assign_lookup_ne. }
      rewrite (push_consistent_ok _ _ _ _ _ _ _ k d f Hidx1 Hr1 Hpush2);
        [|by apply Hsame|by rewrite Hders|done|by eapply Hhonest].
      rewrite (push_consistent_ok _ _ _ _ _ _ _ k d f Hidx Hr Hpush1);
        [|done|done|done|by eapply Hhonest].
      f_equal. apply (Hhonest k d f Hd Hf). intros p Hp. apply IH. intros Hpin.
      assert (rank k < rank p) by (by eapply Hr, indexed_this_deps_ok).
      pose proof (rank_le_sum rank order p Hpin). specialize (Hk Hin). lia. }
  assert (Heq : state (graph w2) = state (graph w1)).
  { apply map_eq. intros k. apply (Hstate (S (sum_list_with rank order)) k). lia. }
  unfold static in Hst2. destruct w1 as [[] ?], w2 as [[] ?]. cbn in *.
  by simplify_eq.
Qed.

End WholeGraphs.

(** * The engine and its model on ordinary names *)

Section Engine.

Context {V : Type} `{!Host V}.
Implicit Types (w : World V) (rt : Runtime V) (g : StateGraph V).
Implicit Types (key name : StateKey) (newState : Batch V).

(** ** The engine and the engine on ordinary names *)

Lemma array_at_ordinary {A : Type} name (o : gmap string (list A)) :
  ordinary name →
  array_at name o = match o !! name with Some a => Own a | None => Absent end.
Proof. unfold ordinary, array_at. by intros ->. Qed.

Lemma array_at_inherited {A : Type} name (o : gmap string (list A)) :
  inherited name = true → array_at name o = Inherited.
Proof. unfold array_at. by intros ->. Qed.

Lemma array_at_Inherited {A : Type} name (o : gmap string (list A)) :
  array_at name o = Inherited ↔ inherited name = true.
Proof.
  unfold array_at. destruct (inherited name); [done |].
  by destruct (o !! name).
Qed.

Lemma ordinary_dec name : ordinary name ∨ inherited name = true.
Proof. unfold ordinary. destruct (inherited name); [by right | by left]. Qed.

Lemma in_object_ordinary {A : Type} key (o : list (StateKey * A)) :
  ordinary key → in_object key o = bool_decide (key ∈ obj_keys o).
Proof. unfold ordinary, in_object. intros ->. by rewrite orb_false_r. Qed.

Lemma in_object_inherited {A : Type} key (o : list (StateKey * A)) :
  inherited key = true → in_object key o = true.
Proof. unfold in_object. intros ->. by rewrite orb_true_r. Qed.

Lemma in_object_false {A : Type} key (o : list (StateKey * A)) :
  in_object key o = false ↔ ordinary key ∧ key ∉ obj_keys o.
Proof.
  unfold in_object, ordinary. rewrite orb_false_iff, bool_decide_eq_false. tauto.
Qed.

Lemma member_ordinary {A : Type} key (o : list (StateKey * A)) :
  ordinary key →
  member key o = match obj_get key o with Some a => Own a | None => Absent end.
Proof. unfold ordinary, member. by intros ->. Qed.

Lemma dispatch_change_ordinary key w :
  ordinary key → dispatch_change key w = Some (dispatch_change_ok key w).
Proof.
  intros Hk. unfold dispatch_change, dispatch_change_ok, notified.
  rewrite (array_at_ordinary _ _ Hk). by destruct (watchers (graph w) !! key).
Qed.

Lemma dispatch_change_inherited key w :
  inherited key = true → dispatch_change key w = None.
Proof. intros Hk. unfold dispatch_change. by rewrite (array_at_inherited _ _ Hk). Qed.

Lemma update_ordinary key newState w :
  ordinary key → update key newState w = Some (update_ok key newState w).
Proof.
  intros Hk. unfold update, update_ok.
  rewrite (member_ordinary _ _ Hk).
  destruct (obj_get key (derivers (graph w))) as [d |]; [| done].
  destruct (func d) as [f | r].
  - destruct (invoke _ f ()) as [v ?]. by apply dispatch_change_ordinary.
  - rewrite (in_object_ordinary _ _ Hk).
    destruct (bool_decide (key ∈ obj_keys newState)); [by apply dispatch_change_ordinary |].
    destruct (call_request _ r () (runtime w)) as [[[x |] ?] rt']; done.
Qed.

Lemma update_inherited key newState w :
  inherited key = true → update key newState w = None.
Proof.
  intros Hk. unfold update, member. rewrite Hk.
  destruct (obj_get key (derivers (graph w))) as [d |]; [| done].
  destruct (func d) as [f | r].
  - destruct (invoke _ f ()) as [v ?]. by apply dispatch_change_inherited.
  - rewrite (in_object_inherited _ _ Hk). by apply dispatch_change_inherited.
Qed.

Lemma update_Some key newState w w' :
  update key newState w = Some w' ↔ ordinary key ∧ w' = update_ok key newState w.
Proof.
  split.
  - intros Hu. destruct (ordinary_dec key) as [Hk | Hk].
    + rewrite (update_ordinary _ _ _ Hk) in Hu. by injection Hu as <-.
    + by rewrite (update_inherited _ _ _ Hk) in Hu.
  - intros [Hk ->]. by apply update_ordinary.
Qed.

Lemma updates_None newState ks :
  foldl (λ acc k, w ← acc; update k newState w) None ks = None.
Proof. by induction ks. Qed.

Lemma updates_cons newState k ks w :
  updates newState (k :: ks) w = update k newState w ≫= updates newState ks.
Proof.
  unfold updates. simpl. destruct (update k newState w); [done |].
  simpl. apply updates_None.
Qed.

Lemma updates_Some newState ks w w' :
  updates newState ks w = Some w' ↔ Forall ordinary ks ∧ w' = updates_ok newState ks w.
Proof.
  revert w. induction ks as [| k ks IH]; intros w.
  - unfold updates, updates_ok. simpl. split.
    + intros [= <-]. by split.
    + by intros [_ ->].
  - rewrite updates_cons, Forall_cons. split.
    + intros Hu. destruct (update k newState w) as [w1 |] eqn:Hk; [| done].
      apply update_Some in Hk as [Hk ->]. simpl in Hu. apply IH in Hu as [Hks ->].
      done.
    + intros [[Hk Hks] ->]. rewrite (update_ordinary _ _ _ Hk). simpl.
      apply IH. by split.
Qed.

Lemma updates_ordinary newState ks w :
  Forall ordinary ks → updates newState ks w = Some (updates_ok newState ks w).
Proof. intros Hks. by apply updates_Some. Qed.

Lemma updates_app newState ks1 ks2 w :
  updates newState (ks1 ++ ks2) w = updates newState ks1 w ≫= updates newState ks2.
Proof.
  revert w. induction ks1 as [| k ks1 IH]; intros w; [done |].
  rewrite <- app_comm_cons, !updates_cons.
  destruct (update k newState w) as [w1 |]; [| done]. simpl. apply IH.
Qed.

Lemma canUpdate_ordinary w tbu key :
  ordinary key → canUpdate w tbu key = Some (canUpdate_ok w tbu key).
Proof.
  intros Hk. unfold canUpdate, canUpdate_ok. rewrite (member_ordinary _ _ Hk).
  by destruct (obj_get key (derivers (graph w))).
Qed.

Lemma canUpdate_Some w tbu key b :
  canUpdate w tbu key = Some b → b = canUpdate_ok w tbu key.
Proof.
  unfold canUpdate, canUpdate_ok, member.
  destruct (obj_get key (derivers (graph w))); [by intros [= <-] |].
  destruct (inherited key); [done | by intros [= <-]].
Qed.

Lemma canUpdate_derived w tbu key d :
  obj_get key (derivers (graph w)) = Some d →
  canUpdate w tbu key = Some (canUpdate_ok w tbu key).
Proof. intros Hd. unfold canUpdate, canUpdate_ok, member. by rewrite Hd. Qed.

Lemma eligible_in_turn_of_ok w closure order :
  Forall ordinary order → eligible_in_turn_ok w closure order →
  eligible_in_turn w closure order.
Proof.
  intros Ho Hel l1 u l2 ->. rewrite canUpdate_ordinary.
  - f_equal. by eapply Hel.
  - apply Forall_app in Ho as [_ Ho]. by apply Forall_cons in Ho as [Ho _].
Qed.

Lemma eligible_in_turn_to_ok w closure order :
  eligible_in_turn w closure order → eligible_in_turn_ok w closure order.
Proof.
  intros Hel l1 u l2 Ho. specialize (Hel l1 u l2 Ho).
  by apply canUpdate_Some in Hel.
Qed.

(** The loop of [push_fast]. *)
Lemma push_fast_loop_to_ok fuel newState queue visited w r :
  push_fast_loop fuel newState queue visited w = Some r →
  push_fast_loop_ok fuel newState queue visited w = Some r.
Proof.
  revert queue visited w. induction fuel as [| fuel IH]; intros queue visited w.
  - by destruct queue.
  - destruct queue as [| n queue]; [done |]. simpl.
    destruct (update n newState w) as [w1 |] eqn:Hu; [| done].
    apply update_Some in Hu as [Hn ->].
    rewrite (array_at_ordinary _ _ Hn). unfold this_deps.
    destruct (deps (graph (update_ok n newState w)) !! n); simpl.
    + apply IH.
    + rewrite app_nil_r. apply IH.
Qed.

Lemma push_fast_loop_visits fuel newState queue visited w visited' w' :
  push_fast_loop fuel newState queue visited w = Some (visited', w') →
  ∃ new, visited' = visited ++ new ∧ Forall ordinary new.
Proof.
  revert queue visited w. induction fuel as [| fuel IH]; intros queue visited w.
  - destruct queue; [| done]. intros [= <- <-]. exists []. by rewrite app_nil_r.
  - destruct queue as [| n queue].
    { intros [= <- <-]. exists []. by rewrite app_nil_r. }
    simpl. destruct (update n newState w) as [w1 |] eqn:Hu; [| done].
    apply update_Some in Hu as [Hn ->].
    intros Hloop.
    assert (∃ new, visited' = (visited ++ [n]) ++ new ∧ Forall ordinary new)
      as (new & -> & Hnew).
    { destruct (array_at n _); [by eapply IH | done | by eapply IH]. }
    exists (n :: new). rewrite <- app_assoc. split; [done |]. by constructor.
Qed.

Lemma push_fast_loop_of_ok fuel newState queue visited w new w' :
  push_fast_loop_ok fuel newState queue visited w = Some (visited ++ new, w') →
  Forall ordinary new →
  push_fast_loop fuel newState queue visited w = Some (visited ++ new, w').
Proof.
  revert queue visited w new. induction fuel as [| fuel IH]; intros queue visited w new.
  - by destruct queue.
  - destruct queue as [| n queue]; [done |]. simpl. intros Hloop Hnew.
    pose proof Hloop as Hspec.
    apply (push_fast_loop_spec_ok _ _ (update_ok n newState w)) in Hspec
      as (new' & Heq & _); [| done].
    rewrite <- app_assoc in Heq. apply app_inv_head in Heq as ->.
    apply Forall_cons in Hnew as [Hn Hnew'].
    rewrite (update_ordinary _ _ _ Hn), (array_at_ordinary _ _ Hn).
    unfold this_deps in Hloop.
    rewrite (app_assoc visited [n] new') in Hloop |- *.
    destruct (deps (graph (update_ok n newState w)) !! n); simpl in Hloop.
    + by apply IH.
    + rewrite app_nil_r in Hloop. by apply IH.
Qed.

Lemma push_fast_Some fuel newState w visited w' :
  push_fast fuel newState w = Some (visited, w')
  ↔ push_fast_ok fuel newState w = Some (visited, w') ∧ Forall ordinary visited.
Proof.
  unfold push_fast, push_fast_ok. split.
  - intros Hloop. split; [by apply push_fast_loop_to_ok |].
    apply push_fast_loop_visits in Hloop as (new & -> & Hnew). done.
  - intros [Hloop Hv]. by apply (push_fast_loop_of_ok _ _ _ [] _ visited).
Qed.

(** The loops of [push_accurate]. *)
Lemma closure_loop_to_ok fuel w queue tbu closure :
  closure_loop fuel w queue tbu = Some closure →
  closure_loop_ok fuel w queue tbu = Some closure
  ∧ (Forall ordinary tbu → Forall ordinary closure).
Proof.
  revert queue tbu. induction fuel as [| fuel IH]; intros queue tbu.
  - destruct queue; [| done]. by intros [= <-].
  - destruct queue as [| front queue]; [by intros [= <-] |]. simpl.
    destruct (array_at front (deps (graph w))) as [dep | |] eqn:Hat; [| done |].
    + assert (Hf : ordinary front).
      { destruct (ordinary_dec front) as [? | Hi]; [done |].
        by rewrite (array_at_inherited _ _ Hi) in Hat. }
      rewrite (array_at_ordinary _ _ Hf) in Hat. unfold this_deps.
      destruct (deps (graph w) !! front) as [dep' |]; [| done].
      injection Hat as ->. simpl. intros [Hok Hord]%IH. split; [done |].
      intros Htbu. apply Hord, set_add_Forall. by split.
    + assert (Hf : ordinary front).
      { destruct (ordinary_dec front) as [? | Hi]; [done |].
        by rewrite (array_at_inherited _ _ Hi) in Hat. }
      rewrite (array_at_ordinary _ _ Hf) in Hat. unfold this_deps.
      destruct (deps (graph w) !! front) as [dep' |]; [done |].
      simpl. rewrite app_nil_r. intros [Hok Hord]%IH. split; [done |].
      intros Htbu. apply Hord, set_add_Forall. by split.
Qed.

Lemma closure_loop_of_ok fuel w queue tbu closure :
  closure_loop_ok fuel w queue tbu = Some closure →
  Forall ordinary closure →
  closure_loop fuel w queue tbu = Some closure.
Proof.
  revert queue tbu. induction fuel as [| fuel IH]; intros queue tbu.
  - by destruct queue.
  - destruct queue as [| front queue]; [done |]. simpl. intros Hloop Hc.
    assert (Hf : ordinary front).
    { apply closure_loop_subseteq_ok in Hloop as [Hsub _].
      rewrite Forall_forall in Hc. apply Hc, Hsub, set_add_elem. by left. }
    rewrite (array_at_ordinary _ _ Hf). unfold this_deps in Hloop.
    destruct (deps (graph w) !! front); simpl in Hloop.
    + by apply IH.
    + rewrite app_nil_r in Hloop. by apply IH.
Qed.

Lemma stabilize_pass_to_ok newState us tbu order any w r :
  stabilize_pass newState us tbu order any w = Some r →
  r = stabilize_pass_ok newState us tbu order any w.
Proof.
  revert tbu order any w. induction us as [| u us IH]; intros tbu order any w.
  - by intros [= <-].
  - simpl. destruct (canUpdate w tbu u) as [b |] eqn:Hcan; [| done].
    apply canUpdate_Some in Hcan as ->.
    destruct (canUpdate_ok w tbu u); [| apply IH].
    destruct (update u newState w) as [w1 |] eqn:Hu; [| done].
    apply update_Some in Hu as [_ ->]. apply IH.
Qed.

Lemma stabilize_pass_of_ok newState us tbu order any w :
  Forall ordinary us →
  stabilize_pass newState us tbu order any w
  = Some (stabilize_pass_ok newState us tbu order any w).
Proof.
  revert tbu order any w. induction us as [| u us IH]; intros tbu order any w Hus; [done |].
  apply Forall_cons in Hus as [Hu Hus]. simpl.
  rewrite (canUpdate_ordinary _ _ _ Hu).
  destruct (canUpdate_ok w tbu u); [| by apply IH].
  rewrite (update_ordinary _ _ _ Hu). by apply IH.
Qed.

Lemma stabilize_pass_ok_subseteq newState us tbu order any w :
  (stabilize_pass_ok newState us tbu order any w).1.1.1 ⊆ tbu.
Proof.
  revert tbu order any w. induction us as [| u us IH]; intros tbu order any w; [done |].
  simpl. destruct (canUpdate_ok w tbu u); [| apply IH].
  etrans; [apply IH |]. unfold set_delete. intros x Hx.
  by apply list_elem_of_filter in Hx as [_ Hx].
Qed.

Lemma stabilize_to_ok fuel newState tbu order w r :
  stabilize fuel newState tbu order w = Some r →
  stabilize_ok fuel newState tbu order w = Some r.
Proof.
  revert tbu order w. induction fuel as [| fuel IH]; intros tbu order w.
  - by destruct tbu.
  - destruct tbu as [| u tbu]; [done |]. cbn [stabilize stabilize_ok].
    destruct (stabilize_pass _ _ _ _ _ _) as [[[[tbu' order'] any'] w1] |] eqn:Hp; [| done].
    apply stabilize_pass_to_ok in Hp as <-.
    destruct any'; [apply IH | done].
Qed.

Lemma stabilize_of_ok fuel newState tbu order w :
  Forall ordinary tbu →
  stabilize fuel newState tbu order w = stabilize_ok fuel newState tbu order w.
Proof.
  revert tbu order w. induction fuel as [| fuel IH]; intros tbu order w Htbu.
  - by destruct tbu.
  - destruct tbu as [| u tbu]; [done |]. cbn [stabilize stabilize_ok].
    rewrite (stabilize_pass_of_ok _ _ _ _ _ _ Htbu).
    pose proof (stabilize_pass_ok_subseteq newState (u :: tbu) (u :: tbu) order false w) as Hsub.
    destruct (stabilize_pass_ok _ _ _ _ _ _) as [[[tbu' order'] any'] w1].
    destruct any'; [| done]. apply IH.
    rewrite Forall_forall in Htbu |- *. intros x Hx. by apply Htbu, Hsub.
Qed.

Lemma cycle_fallback_to_ok newState us tbu order w r :
  cycle_fallback newState us tbu order w = Some r →
  r = cycle_fallback_ok newState us tbu order w ∧ Forall ordinary us.
Proof.
  revert tbu order w. induction us as [| u us IH]; intros tbu order w.
  - by intros [= <-].
  - simpl. destruct (update u newState w) as [w1 |] eqn:Hu; [| done].
    apply update_Some in Hu as [Hu ->]. intros [-> Hus]%IH. split; [done |].
    by constructor.
Qed.

Lemma cycle_fallback_of_ok newState us tbu order w :
  Forall ordinary us →
  cycle_fallback newState us tbu order w
  = Some (cycle_fallback_ok newState us tbu order w).
Proof.
  revert tbu order w. induction us as [| u us IH]; intros tbu order w Hus; [done |].
  apply Forall_cons in Hus as [Hu Hus]. simpl.
  rewrite (update_ordinary _ _ _ Hu). by apply IH.
Qed.
Lemma stabilize_ok_subseteq fuel newState tbu order w tbu' order' w' :
  stabilize_ok fuel newState tbu order w = Some (tbu', order', w') → tbu' ⊆ tbu.
Proof.
  revert tbu order w. induction fuel as [| fuel IH]; intros tbu order w.
  - destruct tbu; [| done]. by intros [= <- <- <-].
  - destruct tbu as [| u tbu]; [by intros [= <- <- <-] |]. cbn [stabilize_ok].
    pose proof (stabilize_pass_ok_subseteq newState (u :: tbu) (u :: tbu) order false w) as Hsub.
    destruct (stabilize_pass_ok _ _ _ _ _ _) as [[[tbu1 order1] any1] w1].
    destruct any1.
    + intros Hs%IH. by etrans.
    + by intros [= <- <- <-].
Qed.

Lemma push_accurate_ok_closure fuel newState w order w' :
  push_accurate_ok fuel newState w = Some (order, w') →
  ∃ closure,
    closure_loop_ok fuel w (obj_keys newState) [] = Some closure ∧ order ≡ₚ closure.
Proof.
  intros (closure & stab & Hc & Hcnd & Hsnd & Hsub & _ & _ & -> & _)%push_accurate_spec_ok.
  exists closure. split; [done |].
  rewrite array_sort_Permutation. by apply stab_pending_Permutation.
Qed.

Lemma push_accurate_Some fuel newState w order w' :
  push_accurate fuel newState w = Some (order, w')
  ↔ push_accurate_ok fuel newState w = Some (order, w') ∧ Forall ordinary order.
Proof.
  split.
  - intros Hpush.
    assert (Hok : push_accurate_ok fuel newState w = Some (order, w')).
    { unfold push_accurate, push_accurate_ok in *.
      destruct (closure_loop fuel w (obj_keys newState) []) as [closure |] eqn:Hc; [| done].
      apply closure_loop_to_ok in Hc as [-> _].
      destruct (stabilize _ _ _ _ _) as [[[tbu order1] w1] |] eqn:Hs; [| done].
      apply stabilize_to_ok in Hs as ->.
      destruct tbu as [| u tbu]; [done |].
      destruct (cycle_fallback _ _ _ _ _) as [[[? order2] w2] |] eqn:Hf; [| done].
      apply cycle_fallback_to_ok in Hf as [<- _]. done. }
    split; [done |].
    apply push_accurate_ok_closure in Hok as (closure & Hc' & ->).
    unfold push_accurate in Hpush.
    destruct (closure_loop fuel w (obj_keys newState) []) as [closure' |] eqn:Hc; [| done].
    apply closure_loop_to_ok in Hc as [Hc Hord]. rewrite Hc' in Hc. injection Hc as <-.
    by apply Hord.
  - intros [Hok Hord].
    pose proof (push_accurate_ok_closure _ _ _ _ _ Hok) as (closure & Hc & Hperm).
    rewrite Hperm in Hord.
    unfold push_accurate, push_accurate_ok in *.
    rewrite (closure_loop_of_ok _ _ _ _ _ Hc Hord). rewrite Hc in Hok.
    rewrite (stabilize_of_ok _ _ _ _ _ Hord).
    destruct (stabilize_ok _ _ _ _ _) as [[[tbu order1] w1] |] eqn:Hs; [| done].
    destruct tbu as [| u tbu]; [done |].
    rewrite cycle_fallback_of_ok; [done |].
    apply stabilize_ok_subseteq in Hs.
    rewrite array_sort_Permutation.
    rewrite Forall_forall in Hord |- *. intros x Hx. by apply Hord, Hs.
Qed.

Lemma push_Some fuel newState mode w order w' :
  push fuel newState mode w = Some (order, w')
  ↔ push_ok fuel newState mode w = Some (order, w') ∧ Forall ordinary order.
Proof.
  unfold push, push_ok. destruct (default _ mode).
  - apply push_fast_Some.
  - apply push_accurate_Some.
Qed.

Lemma push_to_ok fuel newState mode w r :
  push fuel newState mode w = Some r → push_ok fuel newState mode w = Some r.
Proof. destruct r as [order w']. by intros [? _]%push_Some. Qed.

(** The index. *)
Lemma add_dep_Some name (ds : gmap string (list StateKey)) dep ds' :
  add_dep name ds dep = Some ds' ↔ ordinary dep ∧ ds' = add_dep_ok name ds dep.
Proof.
  unfold add_dep, add_dep_ok. destruct (ordinary_dec dep) as [Hd | Hd].
  - rewrite (array_at_ordinary _ _ Hd). destruct (ds !! dep); simpl; naive_solver.
  - rewrite (array_at_inherited _ _ Hd). unfold ordinary. rewrite Hd. naive_solver.
Qed.

Lemma add_deps_Some name (ps : list StateKey) (ds : gmap string (list StateKey)) ds' :
  foldl (λ acc dep, ds ← acc; add_dep name ds dep) (Some ds) ps = Some ds'
  ↔ Forall ordinary ps ∧ ds' = foldl (add_dep_ok name) ds ps.
Proof.
  revert ds. induction ps as [| p ps IH]; intros ds; simpl.
  - split; [intros [= <-]; by split | by intros [_ ->]].
  - rewrite Forall_cons. destruct (add_dep name ds p) as [ds1 |] eqn:Hp.
    + apply add_dep_Some in Hp as [Hp ->]. rewrite IH. naive_solver.
    + split.
      * intros Hnone. exfalso. clear -Hnone.
        assert (Hn : ∀ qs, foldl (λ acc dep, ds ← acc; add_dep name ds dep) None qs = None)
          by (intros qs; by induction qs).
        by rewrite Hn in Hnone.
      * intros [[Hp' _] _]. exfalso.
        assert (is_Some (add_dep name ds p)) as [? Hsome]
          by (eexists; apply add_dep_Some; by split).
        by rewrite Hsome in Hp.
Qed.

Lemma build_deps_Some (ders : list (StateKey * ExplicitlyDerived V)) index :
  build_deps ders = Some index
  ↔ Forall (λ nd, Forall ordinary (params nd.2)) ders ∧ index = build_deps_ok ders.
Proof.
  unfold build_deps, build_deps_ok.
  assert (Hgen : ∀ (ders : list (StateKey * ExplicitlyDerived V)) ds index,
    foldl (λ acc '(name, deriver),
             ds ← acc;
             foldl (λ acc dep, ds ← acc; add_dep name ds dep) (Some ds) (params deriver))
          (Some ds) ders = Some index
    ↔ Forall (λ nd, Forall ordinary (params nd.2)) ders
      ∧ index = foldl (λ ds '(name, deriver), foldl (add_dep_ok name) ds (params deriver))
                  ds ders).
  { clear. intros ders. induction ders as [| [name d] ders IH]; intros ds index; simpl.
    - split; [intros [= <-]; by split | by intros [_ ->]].
    - rewrite Forall_cons. simpl.
      destruct (foldl _ (Some ds) (params d)) as [ds1 |] eqn:Hd.
      + apply add_deps_Some in Hd as [Hd ->]. rewrite IH. naive_solver.
      + split.
        * intros Hnone. exfalso. clear -Hnone.
          assert (Hn : ∀ qs : list (StateKey * ExplicitlyDerived V),
                    foldl (λ acc '(name, deriver),
                             ds ← acc;
                             foldl (λ acc dep, ds ← acc; add_dep name ds dep) (Some ds)
                               (params deriver)) None qs = None).
          { intros qs. induction qs as [| [? ?] qs IHq]; [done | apply IHq]. }
          by rewrite Hn in Hnone.
        * intros [[Hp _] _]. exfalso.
          assert (is_Some (foldl (λ acc dep, ds ← acc; add_dep name ds dep) (Some ds)
                             (params d))) as [? Hsome]
            by (eexists; apply add_deps_Some; by split).
          by rewrite Hsome in Hd. }
  apply Hgen.
Qed.

Lemma indexed_to_ok w : indexed w → indexed_ok w.
Proof. unfold indexed, indexed_ok. by intros [_ ?]%build_deps_Some. Qed.

Lemma indexed_params w name d :
  indexed w → obj_get name (derivers (graph w)) = Some d → Forall ordinary (params d).
Proof.
  unfold indexed. intros [Hall _]%build_deps_Some Hd.
  apply obj_get_elem in Hd. rewrite Forall_forall in Hall. by apply (Hall (name, d)).
Qed.

Lemma indexed_static w w' : static w' = static w → indexed w → indexed w'.
Proof. unfold indexed. intros Hs. by rewrite (static_derivers _ _ Hs), (static_deps _ _ Hs). Qed.

Lemma new_StateGraph_to_ok fuel args rt w :
  new_StateGraph fuel args rt = Some w → new_StateGraph_ok fuel args rt = Some w.
Proof.
  unfold new_StateGraph, new_StateGraph_ok.
  destruct (from_entries from_deriver_arg _ [] rt) as [ders1 rt1].
  destruct (from_entries from_request_arg _ [] rt1) as [ders2 rt2].
  destruct (build_deps (obj_spread ders1 ders2)) as [index |] eqn:Hix; [| done].
  apply build_deps_Some in Hix as [_ ->].
  destruct (args_defaults args) as [defaults |]; [| done].
  destruct (push fuel defaults None _) as [r |] eqn:Hpush; [| done].
  apply push_to_ok in Hpush. by rewrite Hpush.
Qed.

(** ** The engine: what a push that returns has done *)

Lemma push_ordinary fuel newState mode w order w' :
  push fuel newState mode w = Some (order, w') → Forall ordinary order.
Proof. by intros [_ ?]%push_Some. Qed.

Lemma push_spec fuel newState mode w order w' :
  push fuel newState mode w = Some (order, w') →
  updates newState order (assigned newState w) = Some w'
  ∧ obj_keys newState ⊆ order
  ∧ (∀ k d, k ∈ order → d ∈ this_deps w k → d ∈ order)
  ∧ ∀ k, k ∈ order →
      k ∈ obj_keys newState ∨ ∃ k', k' ∈ order ∧ k ∈ this_deps w k'.
Proof.
  intros [Hok Hord]%push_Some. apply push_spec_ok in Hok as (-> & ? & ? & ?).
  split; [by apply updates_ordinary | done].
Qed.

Lemma push_mono fuel fuel' newState mode w r :
  fuel ≤ fuel' → push fuel newState mode w = Some r → push fuel' newState mode w = Some r.
Proof.
  destruct r as [order w']. intros Hle [Hok Hord]%push_Some. apply push_Some.
  split; [by eapply push_mono_ok | done].
Qed.

Lemma push_static fuel newState mode w order w' :
  push fuel newState mode w = Some (order, w') → static w' = static w.
Proof. intros Hpush%push_to_ok. by eapply push_static_ok. Qed.


Lemma push_single_flight fuel newState mode w order w' :
  single_flight (runtime w) →
  push fuel newState mode w = Some (order, w') →
  single_flight (runtime w').
Proof. intros Hsf Hpush%push_to_ok. by eapply push_single_flight_ok. Qed.

Lemma push_keeps_in_flight fuel newState mode w order w' pr cell :
  single_flight (runtime w) → pr ∈ promises (runtime w) →
  ClearInProgress cell ∈ reactions pr →
  push fuel newState mode w = Some (order, w') →
  flag cell (runtime w') = true
  ∧ ∃ pr', pr' ∈ promises (runtime w') ∧ pid pr' = pid pr
           ∧ ClearInProgress cell ∈ reactions pr'.
Proof. intros Hsf Hpr Hc Hpush%push_to_ok. by eapply push_keeps_in_flight_ok. Qed.

Lemma push_keeps_raw_values fuel newState mode w order w' k v :
  NoDup (obj_keys newState) → (k, v) ∈ newState →
  (∀ d, obj_get k (derivers (graph w)) = Some d → is_request d = true) →
  push fuel newState mode w = Some (order, w') →
  state (graph w') !! k = Some v.
Proof. intros Hnd Hk Hd Hpush%push_to_ok. by eapply push_keeps_raw_values_ok. Qed.


Lemma new_StateGraph_single_flight fuel args rt w :
  single_flight rt → new_StateGraph fuel args rt = Some w → single_flight (runtime w).
Proof. intros Hsf Hnew%new_StateGraph_to_ok. by eapply new_StateGraph_single_flight_ok. Qed.
(** ** Watcher registry: [watch] and the closures *)

Lemma watch_Some name watcher w w1 :
  watch name watcher w = Some w1
  ↔ ordinary name
    ∧ w1 = with_watchers
             (λ ws, <[name := default [] (ws !! name) ++ [watcher]]> ws) w.
Proof.
  unfold watch. destruct (ordinary_dec name) as [Hn | Hn].
  - rewrite (array_at_ordinary _ _ Hn). unfold with_watchers.
    destruct (watchers (graph w) !! name); simpl; naive_solver.
  - rewrite (array_at_inherited _ _ Hn). unfold ordinary. rewrite Hn. naive_solver.
Qed.

Lemma unwatch_Some name watcher w w1 :
  unwatch name watcher w = Some w1
  ↔ ∃ a, ordinary name ∧ watchers (graph w) !! name = Some a
         ∧ w1 = with_watchers (λ ws, <[name := filter (λ x, x ≠ watcher) a]> ws) w.
Proof.
  unfold unwatch. destruct (ordinary_dec name) as [Hn | Hn].
  - rewrite (array_at_ordinary _ _ Hn).
    destruct (watchers (graph w) !! name); simpl; naive_solver.
  - rewrite (array_at_inherited _ _ Hn). unfold ordinary. rewrite Hn. naive_solver.
Qed.

Lemma watch_ordinary name watcher w : ordinary name → is_Some (watch name watcher w).
Proof. intros Hn. eexists. apply watch_Some. by split. Qed.

Lemma watch_registers name watcher w w1 :
  watch name watcher w = Some w1 →
  watchers (graph w1) !! name
  = Some (default [] (watchers (graph w) !! name) ++ [watcher]).
Proof. intros [_ ->]%watch_Some. simpl. by rewrite lookup_insert_eq. Qed.

Lemma unwatch_registered name watcher w a :
  ordinary name → watchers (graph w) !! name = Some a →
  unwatch name watcher w
  = Some (with_watchers (λ ws, <[name := filter (λ x, x ≠ watcher) a]> ws) w).
Proof. intros Hn Ha. apply unwatch_Some. by exists a. Qed.

Lemma unwatch_twice name watcher w w1 :
  unwatch name watcher w = Some w1 → unwatch name watcher w1 = Some w1.
Proof.
  intros (a & Hn & Ha & ->)%unwatch_Some. apply unwatch_Some.
  exists (filter (λ x, x ≠ watcher) a). split; [done |].
  simpl. rewrite lookup_insert_eq. split; [done |].
  unfold with_watchers; simpl. do 2 f_equal.
  rewrite insert_insert_eq. by rewrite filter_ne_idemp.
Qed.

Lemma unwatch_all_twice watcher w :
  unwatch_all watcher (unwatch_all watcher w) = unwatch_all watcher w.
Proof.
  unfold unwatch_all, with_global_watchers; simpl. do 2 f_equal.
  apply filter_ne_idemp.
Qed.

Lemma filter_eq_filter_ne (watcher other : Watcher) (a : list Watcher) :
  other ≠ watcher →
  filter (λ x, x = other) (filter (λ x, x ≠ watcher) a) = filter (λ x, x = other) a.
Proof.
  intros Hne. induction a as [| x a IH]; [done |].
  rewrite (filter_cons (λ x, x ≠ watcher)). case_decide as Hx.
  - rewrite !filter_cons. case_decide; by rewrite IH.
  - rewrite IH. rewrite filter_cons. rewrite decide_False; [done |].
    intros ->. by apply Hne.
Qed.

(** ** Settlement *)

Lemma report_unhandled_delivered o rs w :
  existsb is_deliver rs = true → report_unhandled o rs w = w.
Proof. intros Hrs. unfold report_unhandled. rewrite Hrs. by destruct o. Qed.

Lemma report_unhandled_resolved value rs w : report_unhandled (Resolved value) rs w = w.
Proof. done. Qed.

Lemma report_unhandled_static o rs w : static (report_unhandled o rs w) = static w.
Proof. unfold report_unhandled. destruct o; [done |]. by destruct (existsb _ _). Qed.

Lemma report_unhandled_graph o rs w : graph (report_unhandled o rs w) = graph w.
Proof. unfold report_unhandled. destruct o; [done |]. by destruct (existsb _ _). Qed.

Lemma report_unhandled_single_flight o rs w :
  single_flight (runtime w) → single_flight (runtime (report_unhandled o rs w)).
Proof.
  intros Hsf. unfold report_unhandled. destruct o; [done |].
  destruct (existsb _ _); [done |]. by apply single_flight_emit.
Qed.

Lemma existsb_is_deliver cells (keys : list StateKey) :
  existsb is_deliver ((ClearInProgress <$> cells) ++ (Deliver <$> keys))
  = bool_decide (keys ≠ []).
Proof.
  rewrite existsb_app.
  assert (Hc : existsb is_deliver (ClearInProgress <$> cells) = false)
    by (by induction cells).
  rewrite Hc. simpl. by destruct keys.
Qed.

(** The [finally] reactions run first, whatever the outcome. *)
Lemma react_clears fuel o cs rs w :
  react fuel o ((ClearInProgress <$> cs) ++ rs) w
  = react fuel o rs (with_runtime (set_flags (reverse cs) false) w).
Proof.
  revert w. induction cs as [| c cs IH]; intros w.
  - simpl. by destruct w.
  - rewrite fmap_cons. simpl. rewrite IH, with_runtime_with_runtime.
    f_equal. unfold with_runtime. f_equal. by rewrite reverse_cons, set_flags_snoc.
Qed.

(** A rejection is logged by every [catch]; nothing else happens. *)
Lemma react_rejected fuel reason keys w :
  react fuel (Rejected reason) (Deliver <$> keys) w
  = Some (with_runtime (emit ((λ _, ConsoleError reason) <$> keys)) w).
Proof.
  revert w. induction keys as [| key keys IH]; intros w.
  - simpl. unfold with_runtime, emit. simpl. rewrite app_nil_r. by destruct w as [g []].
  - rewrite fmap_cons. simpl. rewrite IH.
    unfold with_runtime, emit. simpl. by rewrite <- app_assoc.
Qed.

Lemma react_resolved fuel value key w :
  react fuel (Resolved value) [Deliver key] w
  = snd <$> push fuel [(key, value)] None w.
Proof.
  simpl. destruct (push fuel [(key, value)] None w) as [[order w'] |]; done.
Qed.

Lemma settle_pending fuel o w pr :
  NoDup (pid <$> promises (runtime w)) → pr ∈ promises (runtime w) →
  settle fuel (pid pr) o w
  = report_unhandled o (reactions pr)
      <$> react fuel o (reactions pr) (with_runtime (remove_promise (pid pr)) w).
Proof.
  intros Hnd Hpr. unfold settle.
  destruct (list_find (λ pr', pid pr' = pid pr) (promises (runtime w)))
    as [[i pr'] |] eqn:Hfind.
  - apply list_find_Some in Hfind as (Hi & Hpid & _).
    assert (pr' = pr) as ->; [| done].
    eapply promise_by_pid; [done | done | | done]. by eapply list_elem_of_lookup_2.
  - apply list_find_None in Hfind. rewrite Forall_forall in Hfind.
    by destruct (Hfind pr Hpr).
Qed.

Lemma settle_not_pending fuel o w p :
  (∀ pr, pr ∈ promises (runtime w) → pid pr ≠ p) → settle fuel p o w = Some w.
Proof.
  intros Hnone. unfold settle.
  destruct (list_find (λ pr', pid pr' = p) (promises (runtime w)))
    as [[i pr'] |] eqn:Hfind; [| done].
  apply list_find_Some in Hfind as (Hi & Hpid & _).
  apply list_elem_of_lookup_2 in Hi. by destruct (Hnone pr' Hi).
Qed.

Lemma react_deliver_single_flight fuel o keys w w' :
  single_flight (runtime w) →
  react fuel o (Deliver <$> keys) w = Some w' →
  single_flight (runtime w').
Proof.
  revert w. induction keys as [| key keys IH]; intros w Hsf Hreact.
  - simpl in Hreact. by injection Hreact as <-.
  - rewrite fmap_cons in Hreact. simpl in Hreact. destruct o as [value | reason].
    + destruct (push fuel [(key, value)] None w) as [[order w1] |] eqn:Hpush; [| done].
      eapply IH; [| done]. by eapply push_single_flight.
    + eapply IH; [| done]. by apply single_flight_emit.
Qed.

(** The settlement of a pending promise: it leaves the list, the cells of
    its closures are cleared, then its deliveries run, and a rejection that
    no delivery has caught is reported. *)
Lemma settle_spec fuel o w pr :
  single_flight (runtime w) → pr ∈ promises (runtime w) →
  ∃ cells keys,
    reactions pr = (ClearInProgress <$> cells) ++ (Deliver <$> keys)
    ∧ single_flight (set_flags (reverse cells) false (remove_promise (pid pr) (runtime w)))
    ∧ settle fuel (pid pr) o w
      = report_unhandled o (reactions pr)
          <$> react fuel o (Deliver <$> keys)
                (with_runtime
                   (λ rt, set_flags (reverse cells) false (remove_promise (pid pr) rt)) w).
Proof.
  intros Hsf Hpr. pose proof Hsf as (_ & Hnd & Hshape & _).
  destruct (Hshape pr Hpr) as (cells & keys & Hr). exists cells, keys.
  split; [done |]. split; [by eapply single_flight_settled |].
  rewrite settle_pending by done. rewrite Hr at 2. rewrite react_clears.
  by rewrite with_runtime_with_runtime.
Qed.

Lemma settle_single_flight fuel p o w w' :
  single_flight (runtime w) → settle fuel p o w = Some w' → single_flight (runtime w').
Proof.
  intros Hsf Hsettle.
  destruct (decide (Exists (λ pr, pid pr = p) (promises (runtime w)))) as [Hex | Hnone].
  - apply Exists_exists in Hex as (pr & Hpr & <-).
    destruct (settle_spec fuel o w pr Hsf Hpr) as (cells & keys & _ & Hmid & Heq).
    rewrite Heq in Hsettle.
    destruct (react _ _ _ _) as [w1 |] eqn:Hreact; [| done].
    injection Hsettle as <-. apply report_unhandled_single_flight.
    by eapply react_deliver_single_flight in Hreact.
  - rewrite settle_not_pending in Hsettle; [by injection Hsettle as <- |].
    intros pr Hpr Hpid. apply Hnone, Exists_exists. by exists pr.
Qed.

(** The settlement of a promise to which [update] attached the delivery
    for [key]: with the promise gone and the cells of its closures
    cleared, a resolution is [push({[key]: value})] in the default mode and
    a rejection is one call of [console.error]. *)
Lemma settle_delivery fuel o w pr cells key :
  single_flight (runtime w) → pr ∈ promises (runtime w) →
  reactions pr = (ClearInProgress <$> cells) ++ [Deliver key] →
  let w_mid :=
    with_runtime (λ rt, set_flags (reverse cells) false (remove_promise (pid pr) rt)) w in
  single_flight (runtime w_mid)
  ∧ settle fuel (pid pr) o w
    = match o with
      | Resolved value => snd <$> push fuel [(key, value)] None w_mid
      | Rejected reason => Some (with_runtime (emit [ConsoleError reason]) w_mid)
      end.
Proof.
  intros Hsf Hpr Hr. simpl. pose proof Hsf as (_ & Hnd & _).
  split; [by eapply (single_flight_settled _ pr cells [key]) |].
  rewrite settle_pending by done. rewrite Hr, react_clears, with_runtime_with_runtime.
  assert (Hex : existsb is_deliver ((ClearInProgress <$> cells) ++ [Deliver key]) = true).
  { rewrite existsb_app. simpl. by rewrite orb_true_r. }
  destruct o as [value | reason].
  - rewrite react_resolved. by destruct (push _ _ _ _).
  - rewrite (react_rejected fuel reason [key]). cbn [fmap option_fmap option_map].
    by rewrite (report_unhandled_delivered _ _ _ Hex).
Qed.

(** The settlement of the promise that is to clear [cell] clears it before
    the deliveries run, whatever the outcome. *)
Lemma settle_clears_flag fuel o w pr cell :
  single_flight (runtime w) → pr ∈ promises (runtime w) →
  ClearInProgress cell ∈ reactions pr →
  ∃ (keys : list StateKey) w_mid,
    graph w_mid = graph w
    ∧ flag cell (runtime w_mid) = false
    ∧ single_flight (runtime w_mid)
    ∧ settle fuel (pid pr) o w
      = report_unhandled o (reactions pr) <$> react fuel o (Deliver <$> keys) w_mid.
Proof.
  intros Hsf Hpr Hcell.
  destruct (settle_spec fuel o w pr Hsf Hpr) as (cells & keys & Hr & Hmid & Hsettle).
  exists keys. eexists. split; [| split; [| split; [| exact Hsettle]]].
  - done.
  - cbn [runtime with_runtime]. rewrite flag_set_flags.
    rewrite decide_True; [done |]. rewrite elem_of_reverse.
    rewrite Hr in Hcell. apply elem_of_app in Hcell as [Hc | Hc].
    + apply list_elem_of_fmap in Hc as (c & Heq & Hc). by injection Heq as ->.
    + apply list_elem_of_fmap in Hc as (k & Heq & _). discriminate Heq.
  - done.
Qed.

Lemma react_static fuel o rs w w' :
  react fuel o rs w = Some w' → static w' = static w.
Proof.
  revert w. induction rs as [| [cell | key] rs IH]; intros w Hreact; simpl in Hreact.
  - by injection Hreact as <-.
  - by apply IH in Hreact.
  - destruct o as [value | reason].
    + destruct (push fuel [(key, value)] None w) as [[order w1] |] eqn:Hpush; [| done].
      apply IH in Hreact. rewrite Hreact. by eapply push_static.
    + by apply IH in Hreact.
Qed.

Lemma settle_static fuel p o w w' :
  settle fuel p o w = Some w' → static w' = static w.
Proof.
  unfold settle. destruct (list_find _ _) as [[i pr] |].
  - destruct (react _ _ _ _) as [w1 |] eqn:Hreact; [| done].
    intros [= <-]. rewrite report_unhandled_static. by apply react_static in Hreact.
  - by intros [= <-].
Qed.

Lemma settle_indexed fuel p o w w' :
  indexed w → settle fuel p o w = Some w' → indexed w'.
Proof. intros Hix Hsettle. eapply indexed_static; [by eapply settle_static | done]. Qed.
(** ** The keys an accurate push collects *)

Lemma closure_loop_reaches fuel w keys closure :
  closure_loop fuel w keys [] = Some closure →
  NoDup closure
  ∧ Forall ordinary closure
  ∧ ∀ k, k ∈ closure ↔ ∃ k0, k0 ∈ keys ∧ reaches w k0 k.
Proof.
  intros [Hc Hord]%closure_loop_to_ok.
  split; [eapply closure_loop_NoDup_ok; [| done]; constructor |].
  split; [apply Hord; constructor |]. by eapply closure_loop_ok_reaches.
Qed.

(** ** [push_accurate] returns *)

Lemma push_ok_ordinary fuel newState mode w order w' :
  Forall ordinary (obj_keys newState) → ordinary_index w →
  push_ok fuel newState mode w = Some (order, w') → Forall ordinary order.
Proof.
  intros Hkeys Hix (_ & _ & _ & Hreach)%push_spec_ok.
  apply Forall_forall. intros k Hk.
  destruct (Hreach k Hk) as [Hin | (k' & _ & Hd)].
  - rewrite Forall_forall in Hkeys. by apply Hkeys.
  - by eapply Hix.
Qed.

Lemma push_of_ok fuel newState mode w r :
  Forall ordinary (obj_keys newState) → ordinary_index w →
  push_ok fuel newState mode w = Some r → push fuel newState mode w = Some r.
Proof.
  destruct r as [order w']. intros Hkeys Hix Hok. apply push_Some.
  split; [done |]. by eapply push_ok_ordinary.
Qed.

Lemma push_accurate_returns newState mode w :
  default (push_default_mode (graph w)) mode = accurate →
  Forall ordinary (obj_keys newState) → ordinary_index w →
  ∃ n, ∀ fuel, n ≤ fuel → is_Some (push fuel newState mode w).
Proof.
  intros Hmode Hkeys Hix.
  destruct (push_accurate_returns_ok newState mode w Hmode) as [n Hn].
  exists n. intros fuel Hfuel. destruct (Hn fuel Hfuel) as [r Hr].
  exists r. by apply push_of_ok.
Qed.

(** A batch with a key that [Object.prototype] has: [push] throws. *)
Lemma push_inherited_key fuel newState mode w k :
  k ∈ obj_keys newState → inherited k = true → push fuel newState mode w = None.
Proof.
  intros Hk Hinh. destruct (push fuel newState mode w) as [[order w'] |] eqn:Hpush; [| done].
  pose proof (push_ordinary _ _ _ _ _ _ Hpush) as Hord.
  apply push_spec in Hpush as (_ & Hkeys & _).
  rewrite Forall_forall in Hord. specialize (Hord k (Hkeys k Hk)).
  unfold ordinary in Hord. congruence.
Qed.

(** The index of a graph whose derivers have ordinary names. *)
Lemma indexed_ordinary_index w :
  indexed w → Forall ordinary (obj_keys (derivers (graph w))) → ordinary_index w.
Proof.
  intros Hix%indexed_to_ok Hnames k d Hd.
  unfold this_deps in Hd. rewrite Hix in Hd.
  apply build_deps_elem_ok in Hd as (dd & Hin & _).
  rewrite Forall_forall in Hnames. apply Hnames.
  apply list_elem_of_fmap. by exists (d, dd).
Qed.

(** ** [push_accurate] as a whole *)

Lemma push_accurate_spec fuel newState w order w' :
  push_accurate fuel newState w = Some (order, w') →
  ∃ closure stab,
    closure_loop fuel w (obj_keys newState) [] = Some closure
    ∧ NoDup closure
    ∧ NoDup stab
    ∧ stab ⊆ closure
    ∧ eligible_in_turn w closure stab
    ∧ (∀ u, u ∈ pending_after closure stab →
         canUpdate w (pending_after closure stab) u = Some false)
    ∧ order = stab ++ array_sort (cycle_compare w) (pending_after closure stab)
    ∧ NoDup order
    ∧ order ≡ₚ closure
    ∧ Forall ordinary order
    ∧ updates newState order (assigned newState w) = Some w'.
Proof.
  intros [Hok Hord]%push_accurate_Some.
  pose proof (push_accurate_order_ok _ _ _ _ _ Hok) as (Hnd & _).
  pose proof (push_accurate_ok_closure _ _ _ _ _ Hok) as (closure' & Hc' & Hperm).
  apply push_accurate_spec_ok in Hok
    as (closure & stab & Hc & Hcnd & Hsnd & Hsub & Hel & Hstuck & Horder & ->).
  rewrite Hc in Hc'. injection Hc' as <-.
  exists closure, stab.
  split. { apply closure_loop_of_ok; [done |]. by rewrite <- Hperm. }
  split; [done |]. split; [done |]. split; [done |].
  split.
  { apply eligible_in_turn_of_ok; [| done].
    rewrite Horder in Hord. by apply Forall_app in Hord as [? _]. }
  split.
  { intros u Hu. rewrite canUpdate_ordinary; [by rewrite Hstuck |].
    rewrite Forall_forall in Hord. apply Hord. rewrite Hperm.
    by apply elem_of_pending in Hu as [? _]. }
  split; [done |]. split; [done |]. split; [done |]. split; [done |].
  by apply updates_ordinary.
Qed.

(** Every key of the returned list with a synchronous deriver holds the
    value of its function on the state of its turn. *)
Lemma updates_at_turn newState l1 k l2 w0 w' d f :
  NoDup (l1 ++ k :: l2) →
  updates newState (l1 ++ k :: l2) w0 = Some w' →
  obj_get k (derivers (graph w0)) = Some d → func d = Sync f →
  ∃ w1, updates newState l1 w0 = Some w1
        ∧ state (graph w') !! k = Some (apply_fn f (state (graph w1))).
Proof.
  intros Hnd [Hord ->]%updates_Some Hd Hf.
  apply Forall_app in Hord as [Hl1 _].
  exists (updates_ok newState l1 w0). split; [by apply updates_ordinary |].
  rewrite updates_app_ok.
  change (updates_ok newState (k :: l2) (updates_ok newState l1 w0))
    with (updates_ok newState l2 (update_ok k newState (updates_ok newState l1 w0))).
  apply NoDup_app in Hnd as (_ & _ & Hnd). apply NoDup_cons in Hnd as [Hk _].
  rewrite updates_state_other_ok by (by left).
  eapply update_sync_ok; [| done].
  by rewrite (static_derivers _ _ (updates_static_ok _ _ _)).
Qed.

(** ** [update] on a request deriver *)



Lemma update_request_blocked key newState w d r c :
  obj_get key (derivers (graph w)) = Some d → func d = Async r →
  in_object key newState = false →
  c ∈ cells_of r → flag c (runtime w) = true →
  update key newState w = Some w.
Proof.
  intros Hd Hf [Hk Hin]%in_object_false Hc Hflag.
  rewrite (update_ordinary _ _ _ Hk). f_equal. by eapply update_request_blocked_ok.
Qed.


(** A request that starts: the promise is pending with the delivery for
    [key] as its last reaction. *)
Lemma update_request_started key newState w d r :
  single_flight (runtime w) →
  obj_get key (derivers (graph w)) = Some d → func d = Async r →
  in_object key newState = false →
  (∀ c, c ∈ cells_of r → flag c (runtime w) = false) →
  apply_fn (body_of r) (state (graph w)) = true →
  ∃ w1,
    update key newState w = Some w1
    ∧ graph w1 = graph w
    ∧ events (runtime w1) = events (runtime w) ++ [Requested (rid_of r)]
    ∧ promises (runtime w1)
      = promises (runtime w)
        ++ [{| pid := next_promise (runtime w);
               reactions := (ClearInProgress <$> reverse (cells_of r)) ++ [Deliver key] |}]
    ∧ (∀ c, flag c (runtime w1) = if decide (c ∈ cells_of r) then true else flag c (runtime w))
    ∧ single_flight (runtime w1).
Proof.
  intros Hsf Hd Hf Hin Hflags Hbody.
  pose proof Hin as [Hk Hnin]%in_object_false.
  pose proof (update_runtime_cases_ok key newState w Hsf) as Hsf1.
  rewrite (update_request_started_ok _ _ _ d r) in Hsf1 by done.
  exists (with_runtime
            (λ rt, add_reaction (next_promise rt) (Deliver key) (started r rt)) w).
  split.
  { rewrite (update_ordinary _ _ _ Hk). f_equal. by eapply update_request_started_ok. }
  split; [done |]. split; [done |].
  split; [by apply promises_add_reaction_started |].
  split; [| done].
  intros c. cbn [runtime with_runtime].
  change (flag c (add_reaction (next_promise (runtime w)) (Deliver key)
                    (started r (runtime w))))
    with (flag c (started r (runtime w))).
  apply flag_started.
Qed.
(** ** Pending promises through a run *)

Lemma update_ok_promises key newState w :
  single_flight (runtime w) →
  ∃ new, promises (runtime (update_ok key newState w)) = promises (runtime w) ++ new.
Proof.
  intros Hsf. unfold update_ok.
  destruct (obj_get key (derivers (graph w))) as [d |]; [| exists []; by rewrite app_nil_r].
  destruct (func d) as [f | r].
  { destruct (invoke _ f ()) as [v ?]. exists []. by rewrite app_nil_r. }
  destruct (bool_decide (key ∈ obj_keys newState)); [exists []; by rewrite app_nil_r |].
  pose proof Hsf as (Hfresh & _).
  destruct (call_request_cases (plain_getter (state (graph w))) r () (runtime w) Hfresh)
    as [[s' ->] | [[s' [-> _]] | [s' [-> _]]]].
  - exists []. by rewrite app_nil_r.
  - exists []. by rewrite app_nil_r.
  - eexists. cbn [runtime with_runtime]. by apply promises_add_reaction_started.
Qed.

Lemma updates_ok_promises newState ks w :
  single_flight (runtime w) →
  ∃ new, promises (runtime (updates_ok newState ks w)) = promises (runtime w) ++ new.
Proof.
  revert w. induction ks as [| k ks IH]; intros w Hsf.
  - exists []. by rewrite app_nil_r.
  - destruct (update_ok_promises k newState w Hsf) as [new1 H1].
    destruct (IH (update_ok k newState w) (update_runtime_cases_ok _ _ _ Hsf)) as [new2 H2].
    exists (new1 ++ new2). unfold updates_ok in *. simpl.
    by rewrite H2, H1, app_assoc.
Qed.

Lemma push_promises fuel newState mode w order w' :
  single_flight (runtime w) →
  push fuel newState mode w = Some (order, w') →
  ∃ new, promises (runtime w') = promises (runtime w) ++ new.
Proof.
  intros Hsf Hpush%push_to_ok. apply push_spec_ok in Hpush as (-> & _).
  by apply (updates_ok_promises newState order (assigned newState w)).
Qed.

Lemma react_promises fuel o keys w w' :
  single_flight (runtime w) →
  react fuel o (Deliver <$> keys) w = Some w' →
  ∃ new, promises (runtime w') = promises (runtime w) ++ new.
Proof.
  revert w. induction keys as [| key keys IH]; intros w Hsf Hreact.
  - simpl in Hreact. injection Hreact as <-. exists []. by rewrite app_nil_r.
  - rewrite fmap_cons in Hreact. simpl in Hreact. destruct o as [value | reason].
    + destruct (push fuel [(key, value)] None w) as [[order w1] |] eqn:Hpush; [| done].
      destruct (push_promises _ _ _ _ _ _ Hsf Hpush) as [new1 H1].
      apply IH in Hreact as [new2 H2]; [| by eapply push_single_flight].
      exists (new1 ++ new2). by rewrite H2, H1, app_assoc.
    + apply IH in Hreact as [new H2]; [| by apply single_flight_emit].
      by exists new.
Qed.

Lemma report_unhandled_promises o rs w :
  promises (runtime (report_unhandled o rs w)) = promises (runtime w).
Proof. unfold report_unhandled. destruct o; [done |]. by destruct (existsb _ _). Qed.

Lemma settle_keeps_pending fuel q o w w' pr :
  single_flight (runtime w) → pr ∈ promises (runtime w) → pid pr ≠ q →
  settle fuel q o w = Some w' → pr ∈ promises (runtime w').
Proof.
  intros Hsf Hpr Hne Hsettle.
  destruct (decide (Exists (λ pr', pid pr' = q) (promises (runtime w)))) as [Hex | Hnone].
  - apply Exists_exists in Hex as (pq & Hpq & <-).
    destruct (settle_spec fuel o w pq Hsf Hpq) as (cells & keys & _ & Hmid & Heq).
    rewrite Heq in Hsettle.
    destruct (react _ _ _ _) as [w1 |] eqn:Hreact; [| done].
    injection Hsettle as <-. rewrite report_unhandled_promises.
    apply react_promises in Hreact as [new ->]; [| done].
    apply elem_of_app. left. cbn [runtime with_runtime]. rewrite set_flags_promises.
    cbn [promises remove_promise]. apply list_elem_of_filter. by split.
  - rewrite settle_not_pending in Hsettle; [by injection Hsettle as <- |].
    intros pr' Hpr' Hpid. apply Hnone, Exists_exists. by exists pr'.
Qed.

Lemma step_besides_pending p w w' pr :
  single_flight (runtime w) → pr ∈ promises (runtime w) → pid pr = p →
  step_besides p w w' →
  single_flight (runtime w') ∧ pr ∈ promises (runtime w').
Proof.
  intros Hsf Hpr Hpid [fuel newState mode order Hpush | fuel q o Hq Hsettle
                      | name watcher Hw | name watcher Hw | watcher -> | watcher ->].
  - split; [by eapply push_single_flight |].
    destruct (push_promises _ _ _ _ _ _ Hsf Hpush) as [new ->].
    apply elem_of_app. by left.
  - split; [by eapply settle_single_flight |].
    eapply settle_keeps_pending; [done | done | | done]. by rewrite Hpid.
  - by apply watch_Some in Hw as [_ ->].
  - by apply unwatch_Some in Hw as (a & _ & _ & ->).
  - done.
  - done.
Qed.

Lemma later_pending p w w' pr :
  single_flight (runtime w) → pr ∈ promises (runtime w) → pid pr = p →
  later p w w' →
  single_flight (runtime w') ∧ pr ∈ promises (runtime w').
Proof.
  intros Hsf Hpr Hpid Hlater. induction Hlater as [| w w1 w' Hstep _ IH]; [done |].
  destruct (step_besides_pending _ _ _ _ Hsf Hpr Hpid Hstep) as [Hsf1 Hpr1]. by apply IH.
Qed.

Lemma step_besides_derivers p w w' :
  step_besides p w w' →
  derivers (graph w') = derivers (graph w) ∧ deps (graph w') = deps (graph w)
  ∧ push_default_mode (graph w') = push_default_mode (graph w).
Proof.
  intros [fuel newState mode order Hpush | fuel q o Hq Hsettle
         | name watcher Hw | name watcher Hw | watcher -> | watcher ->].
  - apply push_static in Hpush. by injection Hpush as -> -> ->.
  - apply settle_static in Hsettle. by injection Hsettle as -> -> ->.
  - by apply watch_Some in Hw as [_ ->].
  - by apply unwatch_Some in Hw as (a & _ & _ & ->).
  - done.
  - done.
Qed.

Lemma later_derivers p w w' :
  later p w w' →
  derivers (graph w') = derivers (graph w) ∧ deps (graph w') = deps (graph w)
  ∧ push_default_mode (graph w') = push_default_mode (graph w).
Proof.
  intros Hlater. induction Hlater as [| w w1 w' Hstep _ IH]; [done |].
  destruct (step_besides_derivers _ _ _ Hstep) as (<- & <- & <-). exact IH.
Qed.

(** The list of [name], once made by [watch], is there in every later
    state. *)
Lemma later_watchers p w w' name :
  is_Some (watchers (graph w) !! name) → later p w w' →
  is_Some (watchers (graph w') !! name).
Proof.
  intros Hname Hlater. induction Hlater as [| w w1 w' Hstep _ IH]; [done |].
  apply IH. clear IH.
  destruct Hstep as [fuel newState mode order Hpush | fuel q o Hq Hsettle
                    | name' watcher Hw | name' watcher Hw | watcher -> | watcher ->].
  - apply push_static in Hpush. injection Hpush as _ _ _ _ ->. done.
  - apply settle_static in Hsettle. injection Hsettle as _ _ _ _ ->. done.
  - apply watch_Some in Hw as [_ ->]. simpl.
    destruct (decide (name' = name)) as [-> | Hne].
    + rewrite lookup_insert_eq. eauto.
    + by rewrite lookup_insert_ne.
  - apply unwatch_Some in Hw as (a & _ & _ & ->). simpl.
    destruct (decide (name' = name)) as [-> | Hne].
    + rewrite lookup_insert_eq. eauto.
    + by rewrite lookup_insert_ne.
  - done.
  - done.
Qed.
(** ** Whole graphs *)

Lemma announces_ordinary newState w k :
  ordinary k → announces newState w k = announces_ok newState w k.
Proof.
  intros Hk. unfold announces, announces_ok.
  destruct (obj_get k (derivers (graph w))) as [d |]; [| done].
  destruct (func d); [done |]. by apply in_object_ordinary.
Qed.

Lemma bind_ext_elem {A B : Type} (f g : A → list B) (l : list A) :
  (∀ x, x ∈ l → f x = g x) → l ≫= f = l ≫= g.
Proof.
  induction l as [| x l IH]; intros Hfg; [done |].
  rewrite !bind_cons. rewrite (Hfg x) by (by left). rewrite IH; [done |].
  intros y Hy. apply Hfg. by right.
Qed.

(** X1: in a graph made by the constructor every name has one deriver in
    the table, and [deps[dep]] lists [name] exactly when the deriver
    registered for [name] has [dep] among its [params]. *)
Theorem constructor_indexes_dependents fuel args rt w :
  new_StateGraph fuel args rt = Some w →
  NoDup (obj_keys (derivers (graph w)))
  ∧ ∀ dep name,
      name ∈ this_deps w dep
      ↔ ∃ d, obj_get name (derivers (graph w)) = Some d ∧ dep ∈ params d.
Proof. intros Hnew%new_StateGraph_to_ok. by eapply constructor_indexes_dependents_ok. Qed.

(** X2: every truthy entry of [requests] is registered as a request
    deriver, also when [derivers] has an entry of the same name; an entry of
    [derivers] whose name is not among the requests is registered as given
    when it is explicit, and with the reads of the probe as [params] when it
    is a bare function. *)
Theorem constructor_registers_derivers fuel args rt w :
  new_StateGraph fuel args rt = Some w →
  (∀ name a, (name, Some a) ∈ args_requests args →
     ∃ d, obj_get name (derivers (graph w)) = Some d ∧ is_request d = true)
  ∧ (NoDup (args_derivers args).*1 →
     ∀ name a, (name, Some a) ∈ args_derivers args →
       name ∉ (entries (args_requests args)).*1 →
       obj_get name (derivers (graph w))
       = Some match a with
              | Explicit d => d
              | AutoDerived fn =>
                  {| params := probe_reads fn; func := Sync fn; order := None |}
              end).
Proof. intros Hnew%new_StateGraph_to_ok. by eapply constructor_registers_derivers_ok. Qed.

(** X3: [push] writes the returned keys only: a key that is not in the
    returned list, or that is neither in the batch nor written by a
    synchronous deriver, keeps its value, and the derivers, the index, the
    watchers and the default mode are never changed. *)
Theorem push_writes_returned_keys_only fuel newState mode w order w' :
  push fuel newState mode w = Some (order, w') →
  static w' = static w
  ∧ ∀ k,
      k ∉ order
      ∨ ((k ∉ obj_keys newState)
         ∧ ∀ d f, obj_get k (derivers (graph w)) = Some d → func d ≠ Sync f) →
      state (graph w') !! k = state (graph w) !! k.
Proof. intros Hpush%push_to_ok. by eapply push_writes_returned_keys_only_ok. Qed.

(** X4: [push({})] returns the empty list and leaves the graph and the
    runtime as they were, in either mode and whatever the fuel. *)
Theorem push_of_empty_batch fuel mode w : push fuel [] mode w = Some ([], w).
Proof. apply push_Some. split; [apply push_of_empty_batch_ok | constructor]. Qed.

(** X5: a batch of keys that are not names of [Object.prototype], that
    have no deriver and on which nothing depends is plain data: [push]
    writes the values, returns the keys of the batch in their order, and
    calls no deriver, request or watcher; one unit of fuel for each key is
    enough, in either mode. *)
Theorem push_of_plain_keys fuel newState mode w :
  NoDup (obj_keys newState) →
  Forall ordinary (obj_keys newState) →
  (∀ k, k ∈ obj_keys newState →
     obj_get k (derivers (graph w)) = None ∧ this_deps w k = []) →
  length newState ≤ fuel →
  push fuel newState mode w = Some (obj_keys newState, assigned newState w).
Proof.
  intros Hnd Hord Hplain Hfuel. apply push_Some.
  split; [by apply push_of_plain_keys_ok | done].
Qed.

(** [push_fast] on a set of keys in which every key has a dependent in
    the set. *)
Lemma push_fast_cycle (C : StateKey → Prop) newState w :
  (∀ k, C k → ∃ d, d ∈ this_deps w k ∧ C d) →
  (∃ k, k ∈ obj_keys newState ∧ C k) →
  ∀ fuel, push_fast fuel newState w = None.
Proof.
  intros HC Hk fuel.
  destruct (push_fast fuel newState w) as [[visited w'] |] eqn:Hpush; [| done].
  apply push_fast_Some in Hpush as [Hok _].
  by rewrite (push_fast_diverges_on_cycle_ok C newState w HC Hk fuel) in Hok.
Qed.

(** X6: [push_fast] does not return when the batch holds a key of a set in
    which every key has a dependent in the set, such as the keys of a
    dependency cycle or the keys from which one is reached: no fuel is
    enough. *)
Theorem push_fast_diverges_on_cycle (C : StateKey → Prop) newState w :
  (∀ k, C k → ∃ d, d ∈ this_deps w k ∧ C d) →
  (∃ k, k ∈ obj_keys newState ∧ C k) →
  ∀ fuel, push_fast fuel newState w = None.
Proof. apply push_fast_cycle. Qed.

(** [push_fast] on a graph without dependency cycle. *)
Lemma push_fast_returns rank newState w fuel :
  ranked w rank →
  Forall ordinary (obj_keys newState) → ordinary_index w →
  sum_list_with (λ k, weight w (rank k) k) (obj_keys newState) ≤ fuel →
  is_Some (push_fast fuel newState w).
Proof.
  intros Hrank Hkeys Hix Hfuel.
  destruct (push_fast_returns_on_acyclic_graph_ok rank newState w fuel Hrank Hfuel)
    as [[visited w'] Hok].
  exists (visited, w'). apply push_fast_Some. split; [done |].
  apply (push_ok_ordinary fuel newState (Some fast) w visited w' Hkeys Hix).
  by unfold push_ok.
Qed.

(** X7: [push_fast] returns on a graph without dependency cycle, for a
    batch and an index without names of [Object.prototype]: when a rank
    goes down along the index, the weights of the keys of the batch are
    enough fuel. *)
Theorem push_fast_returns_on_acyclic_graph rank newState w fuel :
  ranked w rank →
  Forall ordinary (obj_keys newState) → ordinary_index w →
  sum_list_with (λ k, weight w (rank k) k) (obj_keys newState) ≤ fuel →
  is_Some (push_fast fuel newState w).
Proof. apply push_fast_returns. Qed.

(** X8: when [push_fast] returns, every visited key whose synchronous
    deriver reads nothing but its [params] holds the value of its function
    on the final state, although it may have been computed several times. *)
Theorem push_fast_settles_derived_keys fuel newState w visited w' k d f :
  indexed w →
  push_fast fuel newState w = Some (visited, w') →
  k ∈ visited →
  obj_get k (derivers (graph w)) = Some d → func d = Sync f →
  reads_within (params d) f →
  state (graph w') !! k = Some (apply_fn f (state (graph w'))).
Proof.
  intros Hix%indexed_to_ok [Hok _]%push_fast_Some.
  by eapply push_fast_settles_derived_keys_ok.
Qed.

(** X9: the list that [push_accurate] returns is a first part, in which no
    [params] of a key comes at or after the key, followed by keys that each
    wait for a key of this second part; a key of the first part whose
    synchronous deriver reads nothing but its [params] holds the value of
    its function on the final state. *)
Theorem push_accurate_settles_derived_keys fuel newState w order w' :
  push_accurate fuel newState w = Some (order, w') →
  ∃ stab rest,
    order = stab ++ rest
    ∧ (∀ u, u ∈ rest → canUpdate w rest u = Some false)
    ∧ (∀ l1 k l2 d p, order = l1 ++ k :: l2 → k ∈ stab →
         obj_get k (derivers (graph w)) = Some d → p ∈ params d → p ∉ k :: l2)
    ∧ ∀ k d f, k ∈ stab →
        obj_get k (derivers (graph w)) = Some d → func d = Sync f →
        reads_within (params d) f →
        state (graph w') !! k = Some (apply_fn f (state (graph w'))).
Proof.
  intros [Hok Hord]%push_accurate_Some.
  destruct (push_accurate_settles_derived_keys_ok _ _ _ _ _ Hok)
    as (stab & rest & -> & Hstuck & Htopo & Hval).
  exists stab, rest. split; [done |]. split; [| done].
  intros u Hu. rewrite canUpdate_ordinary; [by rewrite Hstuck |].
  rewrite Forall_forall in Hord. apply Hord, elem_of_app. by right.
Qed.

(** X10: on a graph without dependency cycle [push_accurate] needs no
    fallback: the returned list has each key once, no [params] of a key
    comes at or after the key, and every key whose synchronous deriver
    reads nothing but its [params] holds the value of its function on the
    final state. *)
Theorem push_accurate_topological_on_acyclic_graph fuel newState w rank order w' :
  indexed w → ranked w rank →
  push_accurate fuel newState w = Some (order, w') →
  NoDup order
  ∧ (∀ l1 k l2 d p, order = l1 ++ k :: l2 →
       obj_get k (derivers (graph w)) = Some d → p ∈ params d → p ∉ k :: l2)
  ∧ ∀ k d f, k ∈ order →
      obj_get k (derivers (graph w)) = Some d → func d = Sync f →
      reads_within (params d) f →
      state (graph w') !! k = Some (apply_fn f (state (graph w'))).
Proof.
  intros Hix%indexed_to_ok Hrank [Hok _]%push_accurate_Some.
  by eapply push_accurate_topological_on_acyclic_graph_ok.
Qed.

(** X11: on a graph without dependency cycle whose synchronous derivers
    read nothing but their [params], a fast push and an accurate push of the
    same batch that both return visit the same keys and leave the same
    graph: the same state, derivers, index and watchers. *)
Theorem push_modes_agree_on_acyclic_graph fuel fuel' newState w rank visited wf order wa :
  indexed w → ranked w rank → honest w →
  push_fast fuel newState w = Some (visited, wf) →
  push_accurate fuel' newState w = Some (order, wa) →
  (∀ k, k ∈ visited ↔ k ∈ order) ∧ graph wf = graph wa.
Proof.
  intros Hix%indexed_to_ok Hrank Hhonest [Hf _]%push_fast_Some [Ha _]%push_accurate_Some.
  by eapply push_modes_agree_on_acyclic_graph_ok.
Qed.

(** X12: the watcher calls of a [push] that returns are, for each key of
    the returned list in turn that [update] announces (its deriver is
    synchronous, or a request whose key is in the batch), the watchers of
    the key in the order of registration and then the watchers of all keys;
    a key without deriver is never announced. *)
Theorem push_calls_watchers fuel newState mode w order w' :
  push fuel newState mode w = Some (order, w') →
  notifications (runtime w')
  = notifications (runtime w)
    ++ (order ≫= λ k,
          if announces newState w k
          then (λ watcher, (watcher, k))
                 <$> (default [] (watchers (graph w) !! k) ++ global_watchers (graph w))
          else [])
  ∧ ∀ k, obj_get k (derivers (graph w)) = None → announces newState w k = false.
Proof.
  intros [Hok Hord]%push_Some.
  destruct (push_calls_watchers_ok _ _ _ _ _ _ Hok) as [Hcalls _]. split.
  - rewrite Hcalls. f_equal. apply bind_ext_elem. intros k Hk.
    rewrite announces_ordinary; [done |]. rewrite Forall_forall in Hord. by apply Hord.
  - intros k Hk. unfold announces. by rewrite Hk.
Qed.

(** The calls of one watcher for one key in an accurate push. *)
Lemma push_accurate_calls fuel newState w order w' :
  push_accurate fuel newState w = Some (order, w') →
  ∃ new,
    notifications (runtime w') = notifications (runtime w) ++ new
    ∧ ∀ (x : Watcher) k,
        length (filter (λ n, n = (x, k)) new)
        = if bool_decide (k ∈ order) && announces newState w k
          then length (filter (λ y, y = x) (notified k (graph w))) else 0.
Proof.
  intros [Hok Hord]%push_accurate_Some.
  destruct (push_accurate_calls_each_watcher_once_ok _ _ _ _ _ Hok) as (new & Hnew & Hcount).
  exists new. split; [done |]. intros x k. rewrite Hcount.
  destruct (bool_decide (k ∈ order)) eqn:Hk; [| done]. simpl.
  rewrite announces_ordinary; [done |].
  apply bool_decide_eq_true in Hk. rewrite Forall_forall in Hord. by apply Hord.
Qed.

(** X13: an accurate push calls a watcher for a key as many times as the
    watcher is registered for it (for the key or for all keys) when the key
    is in the returned list and [update] announces it, and not at all
    otherwise. *)
Theorem push_accurate_calls_each_watcher_once fuel newState w order w' :
  push_accurate fuel newState w = Some (order, w') →
  ∃ new,
    notifications (runtime w') = notifications (runtime w) ++ new
    ∧ ∀ (x : Watcher) k,
        length (filter (λ n, n = (x, k)) new)
        = if bool_decide (k ∈ order) && announces newState w k
          then length (filter (λ y, y = x) (notified k (graph w))) else 0.
Proof. apply push_accurate_calls. Qed.

(** X14: on a graph without dependency cycle whose synchronous derivers
    read nothing but their [params], pushing the same batch a second time,
    in either mode, visits the same keys and changes nothing in the graph:
    the state is the one the first push left. *)
Theorem push_twice_same_graph fuel fuel' newState mode mode' w rank order w1 order' w2 :
  indexed w → ranked w rank → honest w →
  push fuel newState mode w = Some (order, w1) →
  push fuel' newState mode' w1 = Some (order', w2) →
  (∀ k, k ∈ order' ↔ k ∈ order) ∧ graph w2 = graph w1.
Proof.
  intros Hix%indexed_to_ok Hrank Hhonest H1%push_to_ok H2%push_to_ok.
  by eapply push_twice_same_graph_ok.
Qed.

Lemma settle_started fuel o r rt w :
  single_flight rt → runtime w = started r rt →
  ∃ w',
    settle fuel (next_promise rt) o w = Some w'
    ∧ graph w' = graph w
    ∧ events (runtime w')
      = events rt ++ [Requested (rid_of r)]
        ++ match o with
           | Resolved _ => []
           | Rejected reason => [UnhandledRejection reason]
           end
    ∧ promises (runtime w') = promises rt
    ∧ ∀ c, c ∈ cells_of r → flag c (runtime w') = false.
Proof.
  intros Hsf Hrt. unfold settle. rewrite Hrt. cbn [promises started].
  rewrite list_find_app_r.
  2:{ apply list_find_None, Forall_forall. intros pr Hpr.
      by apply single_flight_fresh. }
  cbn. rewrite decide_True by done. cbn.
  rewrite <-(app_nil_r (ClearInProgress <$> _)), react_clears. cbn.
  rewrite reverse_involutive.
  assert (Hex : existsb is_deliver ((ClearInProgress <$> reverse (cells_of r)) ++ []) = false).
  { rewrite app_nil_r. by induction (reverse (cells_of r)). }
  unfold report_unhandled. rewrite Hex.
  destruct o as [value | reason].
  - eexists. split; [done |]. cbn. rewrite Hrt.
    rewrite set_flags_events, set_flags_promises. cbn.
    rewrite filter_app, (filter_fresh_promises rt Hsf). cbn.
    rewrite decide_False by (intros Hne; by apply Hne). rewrite !app_nil_r.
    split_and!; [done..|].
    intros c Hc. rewrite flag_set_flags. by rewrite decide_True.
  - eexists. split; [done |]. cbn. rewrite Hrt.
    rewrite set_flags_events, set_flags_promises. cbn.
    rewrite filter_app, (filter_fresh_promises rt Hsf). cbn.
    rewrite decide_False by (intros Hne; by apply Hne). rewrite !app_nil_r.
    split_and!; [done | by rewrite <- app_assoc | done |].
    intros c Hc.
    change (flag c (set_flags (cells_of r) false
                      (remove_promise (next_promise rt) (started r rt))) = false).
    rewrite flag_set_flags. by rewrite decide_True.
Qed.

(** X16: [ExtractDeriver] really calls a bare request function.  When the
    call returns a promise, every [ThrottleRequest] closure around the
    function is in flight from then on: [update] of a key with this request
    does nothing while the key is not in the batch.  Nothing is attached to
    that promise but the [finally] of the closures: its settlement clears
    the flags and delivers nothing to the graph; a resolution is dropped,
    and a rejection is caught by nobody and is reported to the host as an
    unhandled rejection. *)
Theorem ExtractDeriver_starts_request r rt :
  single_flight rt →
  (∀ c, c ∈ cells_of r → flag c rt = false) →
  (invoke PropGetReporter (body_of r) []).1 = true →
  ExtractDeriver (Async r) rt
  = ({| params := probe_reads (body_of r); func := Async r; order := None |},
     started r rt)
  ∧ (∀ c, c ∈ cells_of r → flag c (started r rt) = true)
  ∧ (∀ w key newState d c,
       runtime w = started r rt →
       obj_get key (derivers (graph w)) = Some d → func d = Async r →
       in_object key newState = false → c ∈ cells_of r →
       update key newState w = Some w)
  ∧ ∀ w fuel o,
      runtime w = started r rt →
      ∃ w',
        settle fuel (next_promise rt) o w = Some w'
        ∧ graph w' = graph w
        ∧ events (runtime w')
          = events rt ++ [Requested (rid_of r)]
            ++ match o with
               | Resolved _ => []
               | Rejected reason => [UnhandledRejection reason]
               end
        ∧ promises (runtime w') = promises rt
        ∧ ∀ c, c ∈ cells_of r → flag c (runtime w') = false.
Proof.
  intros Hsf Hclear Hbody. split_and!.
  - by apply ExtractDeriver_started.
  - intros c Hc. rewrite flag_started. by rewrite decide_True.
  - intros w key newState d c Hrt Hd Hf Hkey Hc.
    eapply update_request_blocked; [done..|].
    rewrite Hrt, flag_started. by rewrite decide_True.
  - intros w fuel o Hrt. by apply settle_started.
Qed.
(** ** Propagation through derivers *)




(** ** Cycles *)

Lemma push_accurate_terminates newState w :
  Forall ordinary (obj_keys newState) → ordinary_index w →
  ∃ n, ∀ fuel, n ≤ fuel → is_Some (push_accurate fuel newState w).
Proof.
  intros Hkeys Hix.
  destruct (push_accurate_returns newState (Some accurate) w eq_refl Hkeys Hix) as [n Hn].
  exists n. intros fuel Hfuel. exact (Hn fuel Hfuel).
Qed.

(** [push_accurate] returns on every graph over ordinary names, and what
    is still pending when a pass makes no progress is updated once each,
    in sorted order. *)
Lemma push_accurate_cycles newState w :
  Forall ordinary (obj_keys newState) → ordinary_index w →
  ∃ n, ∀ fuel, n ≤ fuel →
    ∃ order w' closure stab,
      let remaining := pending_after closure stab in
      let sorted := array_sort (cycle_compare w) remaining in
      closure_loop fuel w (obj_keys newState) [] = Some closure
      ∧ push_accurate fuel newState w = Some (order, w')
      ∧ (∀ k, k ∈ closure ↔ ∃ k0, k0 ∈ obj_keys newState ∧ reaches w k0 k)
      ∧ NoDup closure ∧ NoDup stab ∧ stab ⊆ closure
      ∧ eligible_in_turn w closure stab
      ∧ (∀ u, u ∈ remaining → canUpdate w remaining u = Some false)
      ∧ order = stab ++ sorted
      ∧ sorted ≡ₚ remaining
      ∧ NoDup sorted
      ∧ ((∀ a b, localeCompare a b = Gt → localeCompare b a ≠ Gt) →
         Sorted (not_after (cycle_compare w)) sorted)
      ∧ NoDup order
      ∧ order ≡ₚ closure
      ∧ updates newState order (assigned newState w) = Some w'
      ∧ ∀ l1 k l2 d f,
          order = l1 ++ k :: l2 →
          obj_get k (derivers (graph w)) = Some d → func d = Sync f →
          ∃ w1, updates newState l1 (assigned newState w) = Some w1
                ∧ state (graph w') !! k = Some (apply_fn f (state (graph w1))).
Proof.
  intros Hkeys Hix.
  destruct (push_accurate_terminates newState w Hkeys Hix) as [n Hn].
  exists n. intros fuel Hfuel. destruct (Hn fuel Hfuel) as [[order w'] Hpush].
  pose proof Hpush as Hspec.
  apply push_accurate_spec in Hspec
    as (closure & stab & Hclosure & Hcnd & Hsnd & Hsub & Helig & Hstuck & Horder
        & Hnd & Hperm & Hord & Hw').
  exists order, w', closure, stab. simpl.
  split; [done |]. split; [done |].
  split; [by apply closure_loop_reaches in Hclosure as (_ & _ & ?) |].
  split; [done |]. split; [done |]. split; [done |].
  split; [done |]. split; [done |]. split; [done |].
  split; [apply array_sort_Permutation |].
  split; [rewrite array_sort_Permutation; by apply pending_after_NoDup |].
  split.
  { intros Hcmp. apply array_sort_Sorted. intros a b. unfold cycle_compare. apply Hcmp. }
  split; [done |]. split; [done |]. split; [done |].
  intros l1 k l2 d f Heq Hd Hf. rewrite Heq in Hnd, Hw'.
  by eapply updates_at_turn.
Qed.

(** The list of an accurate push: the keys updated while passes made
    progress, then the keys of the fallback. *)
Lemma push_accurate_phases fuel newState w order w' :
  push_accurate fuel newState w = Some (order, w') →
  ∃ closure stab,
    let remaining := pending_after closure stab in
    closure_loop fuel w (obj_keys newState) [] = Some closure
    ∧ (∀ k, k ∈ closure ↔ ∃ k0, k0 ∈ obj_keys newState ∧ reaches w k0 k)
    ∧ NoDup stab ∧ stab ⊆ closure
    ∧ order = stab ++ array_sort (cycle_compare w) remaining
    ∧ NoDup order
    ∧ order ≡ₚ closure
    ∧ eligible_in_turn w closure stab
    ∧ (∀ u, u ∈ remaining → canUpdate w remaining u = Some false)
    ∧ ∀ l1 k l2 d p, order = l1 ++ k :: l2 → k ∈ stab →
        obj_get k (derivers (graph w)) = Some d → p ∈ params d → p ∉ k :: l2.
Proof.
  intros Hpush.
  apply push_accurate_spec in Hpush
    as (closure & stab & Hclosure & Hcnd & Hsnd & Hsub & Helig & Hstuck & Horder
        & Hnd & Hperm & Hord & Hw').
  exists closure, stab. simpl.
  split; [done |].
  split; [by apply closure_loop_reaches in Hclosure as (_ & _ & ?) |].
  split; [done |]. split; [done |]. split; [done |]. split; [done |].
  split; [done |]. split; [done |]. split; [done |].
  intros l1 k l2 d p Heq Hk Hd Hp Hin.
  assert (Hcan : canUpdate w (pending_after closure l1) k = Some true).
  { apply list_elem_of_split in Hk as (s1 & s2 & Hs).
    assert (l1 = s1) as ->; [| by apply (Helig s1 k s2)].
    remember (array_sort (cycle_compare w) (pending_after closure stab)) as sorted
      eqn:Hsorted.
    clear Hsorted.
    rewrite Hs, <- app_assoc in Horder. cbn in Horder. rewrite Heq in Horder.
    rewrite Heq in Hnd.
    assert (Hk1 : k ∉ l1).
    { apply NoDup_app in Hnd as (_ & Hd1 & _). intros Hin1.
      eapply Hd1; [done | left]. }
    assert (Hk2 : k ∉ s1).
    { rewrite Hs in Hsnd. apply NoDup_app in Hsnd as (_ & Hd1 & _). intros Hin1.
      eapply Hd1; [done | left]. }
    clear -Horder Hk1 Hk2. revert s1 Horder Hk2.
    induction l1 as [| a l1 IH]; intros [| b s1] Heq Hk2; simpl in *.
    - done.
    - injection Heq as -> _. exfalso. apply Hk2. by left.
    - injection Heq as -> _. exfalso. apply Hk1. by left.
    - injection Heq as -> Heq. f_equal. apply IH.
      + intros ?. apply Hk1. by right.
      + exact Heq.
      + intros ?. apply Hk2. by right. }
  apply canUpdate_Some in Hcan. symmetry in Hcan.
  rewrite canUpdate_true_ok in Hcan. apply (Hcan d Hd p Hp).
  apply elem_of_pending. split.
  - rewrite <- Hperm, Heq. apply elem_of_app. by right.
  - intros Hin1. rewrite Heq in Hnd. apply NoDup_app in Hnd as (_ & Hd1 & _).
    by eapply Hd1.
Qed.
(** ** Unsubscribing *)

Lemma dispatch_change_calls key w w' :
  dispatch_change key w = Some w' →
  graph w' = graph w
  ∧ notifications (runtime w')
    = notifications (runtime w) ++ ((λ watcher, (watcher, key)) <$> notified key (graph w)).
Proof.
  intros Hd.
  assert (Hk : ordinary key).
  { destruct (ordinary_dec key) as [? | Hi]; [done |].
    by rewrite (dispatch_change_inherited _ _ Hi) in Hd. }
  rewrite (dispatch_change_ordinary _ _ Hk) in Hd. injection Hd as <-.
  split; [done |]. unfold dispatch_change_ok, with_runtime. cbn [runtime].
  rewrite notifications_emit. f_equal.
  induction (notified key (graph w)) as [| x l IH]; [done |]. cbn. by rewrite IH.
Qed.

(** C9: the closure returned by [watch(name, watcher)] removes [watcher]
    from [watchers[name]] without an error, a second call leaves the graph
    as the first call left it, and no call removes another callback or adds
    one; the same for [watch_all].  A call of [watch] that returns has put
    [watcher] at the end of the list of [name], and the list is there in
    every later state [w'] of the graph, whatever was pushed, settled,
    watched or unwatched in between: the closure may be called at any
    time.  [watch] returns under every name that [Object.prototype] does not
    have. *)
Theorem unsubscribe_idempotent name watcher w w0 :
  watch name watcher w = Some w0 →
  watchers (graph w0) !! name = Some (default [] (watchers (graph w) !! name) ++ [watcher])
  ∧ (∀ p w', later p w0 w' →
      ∃ a w1,
        watchers (graph w') !! name = Some a
        ∧ unwatch name watcher w' = Some w1
        ∧ unwatch name watcher w1 = Some w1
        ∧ watchers (graph w1) !! name = Some (filter (λ x, x ≠ watcher) a)
        ∧ (watcher ∉ filter (λ x, x ≠ watcher) a)
        ∧ (∀ other, other ≠ watcher →
             filter (λ x, x = other) (filter (λ x, x ≠ watcher) a)
             = filter (λ x, x = other) a)
        ∧ (∀ name', name' ≠ name →
             watchers (graph w1) !! name' = watchers (graph w') !! name')
        ∧ global_watchers (graph w1) = global_watchers (graph w')
        ∧ state (graph w1) = state (graph w')
        ∧ derivers (graph w1) = derivers (graph w')
        ∧ deps (graph w1) = deps (graph w')
        ∧ runtime w1 = runtime w')
  ∧ (∀ w',
      let w1 := unwatch_all watcher w' in
      (unwatch_all watcher w1 = w1
       ∧ (watcher ∉ global_watchers (graph w1))
       ∧ (∀ other, other ≠ watcher →
            filter (λ x, x = other) (global_watchers (graph w1))
            = filter (λ x, x = other) (global_watchers (graph w')))
       ∧ watchers (graph w1) = watchers (graph w')
       ∧ state (graph w1) = state (graph w')
       ∧ derivers (graph w1) = derivers (graph w')
       ∧ deps (graph w1) = deps (graph w')
       ∧ runtime w1 = runtime w'))
  ∧ (∀ name' w', ordinary name' → is_Some (watch name' watcher w')).
Proof.
  intros Hwatch. split; [by apply watch_registers |].
  pose proof Hwatch as [Hname _]%watch_Some.
  split; [| split].
  - intros p w' Hlater.
    destruct (later_watchers p w0 w' name) as [a Ha]; [| done |].
    { rewrite (watch_registers _ _ _ _ Hwatch). eauto. }
    exists a. eexists. split; [done |].
    split; [by apply unwatch_registered |].
    split; [eapply unwatch_twice; by apply unwatch_registered |].
    simpl. split; [by rewrite lookup_insert_eq |].
    split; [apply not_elem_of_filter_ne |].
    split; [intros other Hne; by apply filter_eq_filter_ne |].
    split; [| done].
    intros name' Hne. by rewrite lookup_insert_ne.
  - intros w'. simpl. split; [apply unwatch_all_twice |].
    split; [apply not_elem_of_filter_ne |].
    split; [| done]. intros other Hne. by apply filter_eq_filter_ne.
  - intros name' w' Hn. by apply watch_ordinary.
Qed.

(** C10 (amended): when [watcher] is registered twice for [name], one call
    of the closure returned by either registration (both are [unwatch name
    watcher]) takes both occurrences out of [watchers[name]].  From then on
    a change of [name] calls [watcher] no more on account of these
    registrations: [dispatch_change(name)], and with it every accurate
    push that announces [name], calls it as many times as it is registered
    with [watch_all], so not at all when it is not.  Two registrations with
    [watch_all] are removed together in the same way, and [watcher] is then
    called for a key as many times as it is registered for that key. *)
Theorem duplicate_registration_removed_at_once name watcher w w1 w2 :
  watch name watcher w = Some w1 → watch name watcher w1 = Some w2 →
  watchers (graph w2) !! name
  = Some (default [] (watchers (graph w) !! name) ++ [watcher; watcher])
  ∧ (∃ w3,
       unwatch name watcher w2 = Some w3
       ∧ watchers (graph w3) !! name
         = Some (filter (λ x, x ≠ watcher) (default [] (watchers (graph w) !! name)))
       ∧ (watcher ∉ default [] (watchers (graph w3) !! name))
       ∧ filter (λ x, x = watcher) (notified name (graph w3))
         = filter (λ x, x = watcher) (global_watchers (graph w))
       ∧ (∃ w4, dispatch_change name w3 = Some w4
            ∧ notifications (runtime w4)
              = notifications (runtime w3)
                ++ ((λ x, (x, name)) <$> notified name (graph w3)))
       ∧ (∀ fuel newState order w',
            push_accurate fuel newState w3 = Some (order, w') →
            ∃ new,
              notifications (runtime w') = notifications (runtime w3) ++ new
              ∧ length (filter (λ n, n = (watcher, name)) new)
                = if bool_decide (name ∈ order) && announces newState w3 name
                  then length (filter (λ x, x = watcher) (global_watchers (graph w)))
                  else 0))
  ∧ (let w3 := unwatch_all watcher (watch_all watcher (watch_all watcher w)) in
     (watcher ∉ global_watchers (graph w3))
     ∧ (∀ key, filter (λ x, x = watcher) (notified key (graph w3))
               = filter (λ x, x = watcher) (default [] (watchers (graph w) !! key)))
     ∧ ∀ fuel newState order w',
         push_accurate fuel newState w3 = Some (order, w') →
         ∃ new,
           notifications (runtime w') = notifications (runtime w3) ++ new
           ∧ ∀ key,
               length (filter (λ n, n = (watcher, key)) new)
               = if bool_decide (key ∈ order) && announces newState w3 key
                 then length (filter (λ x, x = watcher)
                                (default [] (watchers (graph w) !! key)))
                 else 0).
Proof.
  intros H1 H2.
  pose proof H1 as [Hname _]%watch_Some.
  assert (Hreg : watchers (graph w2) !! name
                 = Some (default [] (watchers (graph w) !! name) ++ [watcher; watcher])).
  { rewrite (watch_registers _ _ _ _ H2), (watch_registers _ _ _ _ H1). simpl.
    by rewrite <- app_assoc. }
  assert (Hg : global_watchers (graph w2) = global_watchers (graph w)).
  { apply watch_Some in H1 as [_ ->]. by apply watch_Some in H2 as [_ ->]. }
  split; [done |]. split.
  - eexists. split; [by apply unwatch_registered |].
    assert (Hfilter : filter (λ x, x ≠ watcher)
                        (default [] (watchers (graph w) !! name) ++ [watcher; watcher])
                      = filter (λ x, x ≠ watcher) (default [] (watchers (graph w) !! name))).
    { rewrite filter_app.
      rewrite (filter_cons_False (λ x, x ≠ watcher)) by (intros Hne; by apply Hne).
      rewrite (filter_cons_False (λ x, x ≠ watcher)) by (intros Hne; by apply Hne).
      by rewrite filter_nil, app_nil_r. }
    assert (Hcount : filter (λ x, x = watcher)
      (notified name (graph (with_watchers (λ ws, <[name :=
         filter (λ x, x ≠ watcher)
           (default [] (watchers (graph w) !! name) ++ [watcher; watcher])]> ws) w2)))
      = filter (λ x, x = watcher) (global_watchers (graph w))).
    { rewrite count_notified. simpl. rewrite lookup_insert_eq. simpl.
      by rewrite filter_eq_of_filter_ne, Hg. }
    simpl. rewrite lookup_insert_eq. simpl.
    split; [by rewrite Hfilter |].
    split; [apply not_elem_of_filter_ne |].
    split; [exact Hcount |].
    split.
    + destruct (dispatch_change name
                  (with_watchers (λ ws, <[name :=
                     filter (λ x, x ≠ watcher)
                       (default [] (watchers (graph w) !! name) ++ [watcher; watcher])]> ws)
                     w2)) as [w4 |] eqn:Hd.
      * exists w4. split; [done |]. by apply dispatch_change_calls in Hd as [_ ?].
      * by rewrite (dispatch_change_ordinary _ _ Hname) in Hd.
    + intros fuel newState order w' Hpush.
      destruct (push_accurate_calls _ _ _ _ _ Hpush) as (new & Hnew & Hcalls).
      exists new. split; [done |]. rewrite Hcalls.
      destruct (bool_decide (name ∈ order) && _); [| done]. by rewrite Hcount.
  - simpl.
    assert (Hcount : ∀ key,
      filter (λ x, x = watcher)
        (notified key (graph (unwatch_all watcher (watch_all watcher (watch_all watcher w)))))
      = filter (λ x, x = watcher) (default [] (watchers (graph w) !! key))).
    { intros key. rewrite count_notified. simpl.
      by rewrite filter_eq_of_filter_ne, app_nil_r. }
    split; [apply not_elem_of_filter_ne |]. split; [exact Hcount |].
    intros fuel newState order w' Hpush.
    destruct (push_accurate_calls _ _ _ _ _ Hpush) as (new & Hnew & Hcalls).
    exists new. split; [done |]. intros key. rewrite Hcalls.
    destruct (bool_decide (key ∈ order) && _); [| done]. by rewrite Hcount.
Qed.
(** ** Requests through a run *)

(** The delivery that [update] attached to a promise, at the settlement of
    the promise in any later state of the graph. *)
Lemma later_delivery fuel o w w' pr cells key :
  single_flight (runtime w) → pr ∈ promises (runtime w) →
  reactions pr = (ClearInProgress <$> cells) ++ [Deliver key] →
  later (pid pr) w w' →
  let w_mid :=
    with_runtime (λ rt, set_flags (reverse cells) false (remove_promise (pid pr) rt)) w' in
  pr ∈ promises (runtime w')
  ∧ single_flight (runtime w')
  ∧ graph w_mid = graph w'
  ∧ events (runtime w_mid) = events (runtime w')
  ∧ (∀ c, flag c (runtime w_mid)
          = if decide (c ∈ cells) then false else flag c (runtime w'))
  ∧ (∀ pr', pr' ∈ promises (runtime w_mid) ↔ pr' ∈ promises (runtime w') ∧ pr' ≠ pr)
  ∧ settle fuel (pid pr) o w'
    = match o with
      | Resolved value => snd <$> push fuel [(key, value)] None w_mid
      | Rejected reason => Some (with_runtime (emit [ConsoleError reason]) w_mid)
      end.
Proof.
  intros Hsf Hpr Hr Hlater. simpl.
  destruct (later_pending _ _ _ _ Hsf Hpr eq_refl Hlater) as [Hsf' Hpr'].
  split; [done |]. split; [done |]. split; [done |].
  split; [by rewrite set_flags_events |].
  split.
  { intros c. rewrite flag_set_flags.
    destruct (decide (c ∈ cells)) as [Hc | Hc].
    - by rewrite decide_True by (by rewrite elem_of_reverse).
    - by rewrite decide_False by (by rewrite elem_of_reverse). }
  split.
  { intros pr''. cbn [runtime with_runtime]. rewrite set_flags_promises.
    cbn [promises remove_promise]. rewrite list_elem_of_filter.
    pose proof Hsf' as (_ & Hnd & _). split.
    - intros [Hne Hin]. split; [done |]. by intros ->.
    - intros [Hin Hne]. split; [| done]. intros Hpid. apply Hne.
      by eapply promise_by_pid. }
  by apply settle_delivery.
Qed.



(** A rejection: the graph is as it was, and the only new events are the
    calls of [console.error], or the report of a rejection that nobody
    caught. *)
Lemma settle_rejected fuel p reason w :
  single_flight (runtime w) →
  ∃ w' errors,
    settle fuel p (Rejected reason) w = Some w'
    ∧ graph w' = graph w
    ∧ events (runtime w') = events (runtime w) ++ errors
    ∧ Forall (λ e, e = ConsoleError reason ∨ e = UnhandledRejection reason) errors.
Proof.
  intros Hsf.
  destruct (decide (Exists (λ pr, pid pr = p) (promises (runtime w)))) as [Hex | Hnone].
  - apply Exists_exists in Hex as (pr & Hpr & <-).
    destruct (settle_spec fuel (Rejected reason) w pr Hsf Hpr)
      as (cells & keys & _ & _ & ->).
    rewrite react_rejected. cbn [fmap option_fmap option_map].
    unfold report_unhandled. destruct (existsb is_deliver (reactions pr)).
    + eexists _, _. split; [done |]. split; [done |].
      cbn [runtime with_runtime events emit]. rewrite set_flags_events.
      split; [done |]. apply Forall_forall. intros e (k & -> & _)%list_elem_of_fmap.
      by left.
    + eexists _, (((λ _, ConsoleError reason) <$> keys) ++ [UnhandledRejection reason]).
      split; [done |]. split; [done |].
      cbn [runtime with_runtime events emit]. rewrite set_flags_events.
      split; [by rewrite app_assoc |]. apply Forall_app. split.
      * apply Forall_forall. intros e (k & -> & _)%list_elem_of_fmap. by left.
      * constructor; [by right | constructor].
  - exists w, []. rewrite settle_not_pending.
    + split; [done |]. split; [done |]. by rewrite app_nil_r.
    + intros pr Hpr Hpid. apply Hnone, Exists_exists. by exists pr.
Qed.

(** While the promise that is to clear [cell] is pending, the cell is set
    and the wrapper of the cell returns [null], in every later state. *)
Lemma later_in_flight w w' pr cell :
  single_flight (runtime w) → pr ∈ promises (runtime w) →
  ClearInProgress cell ∈ reactions pr →
  later (pid pr) w w' →
  single_flight (runtime w')
  ∧ pr ∈ promises (runtime w')
  ∧ flag cell (runtime w') = true.
Proof.
  intros Hsf Hpr Hc Hlater.
  destruct (later_pending _ _ _ _ Hsf Hpr eq_refl Hlater) as [Hsf' Hpr'].
  split; [done |]. split; [done |]. by eapply pending_flag.
Qed.

End Engine.

(** * Properties of the handles *)

Section Handles.

Context {V : Type} `{!Host V} `{!HostObject V}.
Implicit Types (w : World V) (p base : Property V).


Lemma set_then_get fuel p v w w' :
  (∀ obj key value, get_member (spread_with obj key value) key = Some value) →
  lawful p →
  (∀ d, obj_get (root p) (derivers (graph w)) = Some d → is_request d = true) →
  set_value fuel p v w = Some w' →
  get_value p w' = Some v.
Proof.
  intros Hhost. revert v.
  induction p as [n|base IH getter setter|base IH k]; intros v Hlaw Hroot Hset; cbn in *.
  - destruct (push fuel [(n, v)] None w) as [[order w'']|] eqn:Hpush; [|done].
    injection Hset as <-. unfold state_get.
    erewrite push_keeps_raw_values; [done| |left| |done]; [|done].
    apply NoDup_singleton.
  - destruct Hlaw as [Hlaw Hinv].
    rewrite (IH _ Hlaw Hroot Hset). cbn. by rewrite Hinv.
  - destruct (get_value base w) as [obj|]; [|done]. cbn in Hset.
    rewrite (IH _ Hlaw Hroot Hset). cbn. apply Hhost.
Qed.


(** X18: a value written through a handle is the value read back through
    it, for a handle built by [prop], [wrapped] and [navigate] in any
    nesting, when each [getter] undoes its [setter], a member just set in a
    copy is read back from the copy, and the key of the graph under the
    handle is not written by a synchronous deriver. *)
Theorem property_set_then_get fuel p v w w' :
  (∀ obj key value, get_member (spread_with obj key value) key = Some value) →
  lawful p →
  (∀ d, obj_get (root p) (derivers (graph w)) = Some d → is_request d = true) →
  set_value fuel p v w = Some w' →
  get_value p w' = Some v.
Proof. apply set_then_get. Qed.

(** X19: writing the member [key] through [navigate(key)] leaves every
    other member of the object as it was: a member [key'] that could be
    read before the write is read with the same value after it.  This
    holds for a handle under which every [getter] undoes its [setter] and
    the key of the graph is not written by a synchronous deriver, on a host
    where a member just set in a copy is read back from the copy and the
    other members that could be read are read from the copy as from the
    object. *)
Theorem navigate_keeps_other_members fuel base key key' v x w w' :
  (∀ obj k value, get_member (spread_with obj k value) k = Some value) →
  (∀ obj k value k' y, k ≠ k' → get_member obj k' = Some y →
     get_member (spread_with obj k value) k' = Some y) →
  lawful base →
  (∀ d, obj_get (root base) (derivers (graph w)) = Some d → is_request d = true) →
  key ≠ key' →
  get_value (navigate key' base) w = Some x →
  set_value fuel (navigate key base) v w = Some w' →
  get_value (navigate key base) w' = Some v
  ∧ get_value (navigate key' base) w' = Some x.
Proof.
  intros Hhost Hframe Hlaw Hroot Hne Hget Hset. split.
  - by eapply (set_then_get fuel (navigate key base)).
  - cbn in *. destruct (get_value base w) as [obj|]; [|done]. cbn in *.
    rewrite (set_then_get _ _ _ _ _ Hhost Hlaw Hroot Hset). cbn.
    by apply Hframe.
Qed.


End Handles.

(** * Properties of [ObjectProperty] *)

Section ObjectPropertyFacts.

Context {V : Type} `{!Host V}.
Implicit Types (p q : ObjectProperty.t) (h : ObjectProperty.Heap V).




End ObjectPropertyFacts.

(** * The claims on the example graphs *)

(** C4, as stated, fails: [state => state.A + state.A] is registered with
    [params = ["A"; "A"]]. *)
Lemma ExtractDeriver_keeps_duplicates :
  ¬ NoDup (params (ExtractDeriver (Sync A_plus_A) empty_runtime).1).
Proof.
  vm_compute. intros Hnd. apply NoDup_cons in Hnd as [Hnotin _].
  apply Hnotin. by left.
Qed.







(** The collation of the examples is consistent. *)
Lemma compare_weights_antisym a b :
  compare_weights b a = CompOpp (compare_weights a b).
Proof.
  revert b. induction a as [| x a IH]; intros [| y b]; simpl; try done.
  rewrite (Nat.compare_antisym x y). destruct (x ?= y)%nat; simpl; [apply IH | done | done].
Qed.

Lemma locale_compare_consistent (a b : string) :
  locale_compare a b = Gt → locale_compare b a ≠ Gt.
Proof.
  unfold locale_compare.
  rewrite (compare_weights_antisym (primary_weight <$> char_codes a)).
  rewrite (compare_weights_antisym (case_weight <$> char_codes a)).
  destruct (compare_weights (primary_weight <$> char_codes a) _); simpl; try done.
  by destruct (compare_weights (case_weight <$> char_codes a) _).
Qed.

(** C3, as stated, fails.  The keys of the fallback are not sorted
    lexicographically but by [localeCompare]: with
    [derivers: {a: s => s.B + 1, B: s => s.a + 1}], [push({a: 1})] returns
    [["a"; "B"]], where the order of the character codes puts ["B"] first.
    A tie-break string that is provided and empty is not used: with the
    empty string for [X] and ["W"] for [Y] on the cycle of [X] and [Y],
    [push({X: 1})] returns [["Y"; "X"]], [X] being sorted by its name,
    where the empty string comes first.  And a batch with a key that
    [Object.prototype] has makes the push throw: [push({toString: 1})]
    does not return. *)
Lemma push_accurate_sorts_by_collation :
  order_of [("a", JNum 1)] (Some accurate) mixed_case_graph = Some ["a"; "B"]
  ∧ (∀ u, u ∈ ["a"; "B"] → canUpdate (the mixed_case_graph) ["a"; "B"] u = Some false)
  ∧ String.compare "B" "a" = Lt
  ∧ ¬ Sorted (λ x y, String.compare x y ≠ Gt) ["a"; "B"]
  ∧ order_of [("X", JNum 1)] (Some accurate) empty_order_graph = Some ["Y"; "X"]
  ∧ (∀ u, u ∈ ["X"; "Y"] → canUpdate (the empty_order_graph) ["X"; "Y"] u = Some false)
  ∧ (order <$> obj_get "X" (derivers (graph (the empty_order_graph)))) = Some (Some "")
  ∧ (order <$> obj_get "Y" (derivers (graph (the empty_order_graph)))) = Some (Some "W")
  ∧ locale_compare "" "W" = Lt
  ∧ String.compare "" "W" = Lt
  ∧ ∀ fuel, push_accurate fuel [("toString", JNum 1)] (the cycle_graph) = None.
Proof.
  split; [by vm_compute |].
  split.
  { intros u Hu. apply elem_of_cons in Hu as [-> | Hu]; [by vm_compute |].
    apply list_elem_of_singleton in Hu as ->. by vm_compute. }
  split; [by vm_compute |].
  split.
  { intros Hs. apply Sorted_inv in Hs as [_ Hhd]. apply HdRel_inv in Hhd.
    by apply Hhd. }
  split; [by vm_compute |].
  split.
  { intros u Hu. apply elem_of_cons in Hu as [-> | Hu]; [by vm_compute |].
    apply list_elem_of_singleton in Hu as ->. by vm_compute. }
  split; [by vm_compute |].
  split; [by vm_compute |].
  split; [by vm_compute |].
  split; [by vm_compute |].
  intros fuel.
  apply (push_inherited_key fuel [("toString", JNum 1)] (Some accurate) (the cycle_graph)
           "toString"); [by left | by vm_compute].
Qed.

(** C3 (amended): an accurate push returns on every graph, cyclic or not,
    when neither the batch nor the index holds a name of
    [Object.prototype].  It collects the keys reached from the batch, and
    the keys still pending when a pass makes no progress (each has a
    parameter among them) are updated once each after the others, in the
    order of the stable sort by [localeCompare] of the tie-break string of
    the deriver, the key itself when there is none or it is empty; every
    key with a synchronous deriver then holds the value of its function on
    the state of its turn.  With [X] depending on [Y] and [Y] on [X], both
    [1 + Y] and [1 + X], [push({X: 1})] after [push({Y: 1})] returns
    [["X"; "Y"]], leaves [X = 4] and [Y = 5] and calls the watcher of [X]
    and then the watcher of [Y]; with tie-break strings ["b"] for [X] and
    ["a"] for [Y] it returns [["Y"; "X"]], leaves [Y = 2] and [X = 3] and
    calls the watchers in that order. *)
Theorem push_accurate_terminates_on_cycles :
  (∀ (V : Type) (H : Host V) (newState : Batch V) (w : World V),
     Forall ordinary (obj_keys newState) → ordinary_index w →
     ∃ n, ∀ fuel, n ≤ fuel →
       ∃ order w' closure stab,
         let remaining := pending_after closure stab in
         let sorted := array_sort (cycle_compare w) remaining in
         closure_loop fuel w (obj_keys newState) [] = Some closure
         ∧ push_accurate fuel newState w = Some (order, w')
         ∧ (∀ k, k ∈ closure ↔ ∃ k0, k0 ∈ obj_keys newState ∧ reaches w k0 k)
         ∧ NoDup closure ∧ NoDup stab ∧ stab ⊆ closure
         ∧ eligible_in_turn w closure stab
         ∧ (∀ u, u ∈ remaining → canUpdate w remaining u = Some false)
         ∧ order = stab ++ sorted
         ∧ sorted ≡ₚ remaining
         ∧ NoDup sorted
         ∧ ((∀ a b, localeCompare a b = Gt → localeCompare b a ≠ Gt) →
            Sorted (not_after (cycle_compare w)) sorted)
         ∧ NoDup order
         ∧ order ≡ₚ closure
         ∧ updates newState order (assigned newState w) = Some w'
         ∧ ∀ l1 k l2 d f,
             order = l1 ++ k :: l2 →
             obj_get k (derivers (graph w)) = Some d → func d = Sync f →
             ∃ w1, updates newState l1 (assigned newState w) = Some w1
                   ∧ state (graph w') !! k = Some (apply_fn f (state (graph w1))))
  ∧ (∀ (V : Type) (H : Host V) (w : World V) (a b : StateKey),
       cycle_compare w a b = localeCompare (tie_break w a) (tie_break w b)
       ∧ tie_break w a
         = match obj_get a (derivers (graph w)) with
           | Some d =>
               match order d with
               | Some o => if decide (o = "") then a else o
               | None => a
               end
           | None => a
           end)
  ∧ (∀ a b, localeCompare (V := JsValue) a b = Gt → localeCompare (V := JsValue) b a ≠ Gt)
  ∧ (let w := then_push [("Y", JNum 1)] None watched_cycle in
     value_at "X" w = Some (JNum 2) ∧ value_at "Y" w = Some (JNum 3)
     ∧ order_of [("X", JNum 1)] (Some accurate) w = Some ["X"; "Y"]
     ∧ value_at "X" (then_push [("X", JNum 1)] (Some accurate) w) = Some (JNum 4)
     ∧ value_at "Y" (then_push [("X", JNum 1)] (Some accurate) w) = Some (JNum 5)
     ∧ events_of (then_push [("X", JNum 1)] (Some accurate) w)
       = (λ es, es ++ [Notified 0 "X"; Notified 1 "Y"]) <$> events_of w)
  ∧ (let w := then_push [("Y", JNum 1)] None watched_ordered_cycle in
     value_at "Y" w = Some JNaN ∧ value_at "X" w = Some JNaN
     ∧ order_of [("X", JNum 1)] (Some accurate) w = Some ["Y"; "X"]
     ∧ value_at "Y" (then_push [("X", JNum 1)] (Some accurate) w) = Some (JNum 2)
     ∧ value_at "X" (then_push [("X", JNum 1)] (Some accurate) w) = Some (JNum 3)
     ∧ events_of (then_push [("X", JNum 1)] (Some accurate) w)
       = (λ es, es ++ [Notified 1 "Y"; Notified 0 "X"]) <$> events_of w)
  ∧ order_of [("a", JNum 1)] (Some accurate) mixed_case_graph = Some ["a"; "B"].
Proof.
  split; [intros; by apply push_accurate_cycles |].
  split; [by intros |].
  split; [exact locale_compare_consistent |].
  repeat split; by vm_compute.
Qed.

(** C3 on the cycle of the example, with the collation of the examples. *)
Lemma push_accurate_terminates_on_cycles_witness :
  Forall (ordinary (V := JsValue)) (obj_keys [("X", JNum 1)])
  ∧ ordinary_index (the cycle_graph)
  ∧ ∃ n, ∀ fuel, n ≤ fuel →
      ∃ order w' closure,
        closure_loop fuel (the cycle_graph) ["X"] [] = Some closure
        ∧ push_accurate fuel [("X", JNum 1)] (the cycle_graph) = Some (order, w')
        ∧ NoDup order
        ∧ order ≡ₚ closure.
Proof.
  assert (Hkeys : Forall (ordinary (V := JsValue)) (obj_keys [("X", JNum 1)])).
  { constructor; [reflexivity | constructor]. }
  assert (Hix : ordinary_index (the cycle_graph)).
  { apply indexed_ordinary_index; [reflexivity |].
    repeat constructor. }
  split; [exact Hkeys |]. split; [exact Hix |].
  destruct (proj1 push_accurate_terminates_on_cycles JsValue js_host
              [("X", JNum 1)] (the cycle_graph) Hkeys Hix) as [n Hn].
  exists n. intros fuel Hfuel.
  destruct (Hn fuel Hfuel)
    as (order & w' & closure & stab & Hc & Hpush & _ & _ & _ & _ & _ & _ & _ & _ & _ & _
        & Hnd & Hperm & _).
  exists order, w', closure.
  split; [exact Hc |]. split; [exact Hpush |]. split; [exact Hnd | exact Hperm].
Defined.
(** A fast push of [{X: 1}] on the graph where [X] and [Y] depend on each
    other: no fuel is enough. *)
Lemma cycle_graph_fast_diverges fuel :
  order_of_with fuel [("X", JNum 1)] (Some fast) cycle_graph = None.
Proof.
  unfold order_of_with.
  assert (Hgraph : cycle_graph = Some (the cycle_graph)) by (by vm_compute).
  rewrite Hgraph. cbn [mbind option_bind]. unfold push. cbn [default].
  rewrite (push_fast_cycle (λ k, k = "X" ∨ k = "Y") [("X", JNum 1)] (the cycle_graph)).
  - done.
  - intros k [-> | ->].
    + exists "Y". split; [by vm_compute; left | by right].
    + exists "X". split; [by vm_compute; left | by left].
  - exists "X". split; [by left | by left].
Qed.

(** C8 (amended): a call [push(batch, mode)] that returns has assigned the
    raw values of the batch to the state and returns the keys it handed to
    [update], in the order of the calls: every key of the batch and every
    key reached from them through the dependency index, whether or not the
    key has a deriver that recomputes it.  The state it leaves is the one
    these calls of [update] produce from the assigned state, and a batch key
    that no synchronous deriver writes keeps its raw value.  In accurate
    mode the list holds the keys reached from the batch, each once: first
    the keys updated while passes made progress, each eligible in its turn
    so that none of its [params] comes at or after it, then the keys of the
    cycle fallback, each waiting for another of them, in sorted order.
    When neither the batch nor the index holds a name of
    [Object.prototype], the call returns in accurate mode on every graph
    and in fast mode on a graph without dependency cycle; in fast mode it
    does not return when the batch reaches a cycle. *)
Theorem push_returns_updated_keys :
  (∀ (V : Type) (H : Host V) (fuel : nat) (newState : Batch V) (mode : option Mode)
     (w : World V) (order : list StateKey) (w' : World V),
     push fuel newState mode w = Some (order, w') →
     updates newState order (assigned newState w) = Some w'
     ∧ state (graph (assigned newState w)) = obj_assign (state (graph w)) newState
     ∧ (∀ k v, NoDup (obj_keys newState) → (k, v) ∈ newState →
          (∀ d, obj_get k (derivers (graph w)) = Some d → is_request d = true) →
          state (graph w') !! k = Some v)
     ∧ obj_keys newState ⊆ order
     ∧ (∀ k d, k ∈ order → d ∈ this_deps w k → d ∈ order)
     ∧ (∀ k, k ∈ order →
          k ∈ obj_keys newState ∨ ∃ k', k' ∈ order ∧ k ∈ this_deps w k')
     ∧ (default (push_default_mode (graph w)) mode = accurate →
        ∃ closure stab,
          let remaining := pending_after closure stab in
          closure_loop fuel w (obj_keys newState) [] = Some closure
          ∧ (∀ k, k ∈ closure ↔ ∃ k0, k0 ∈ obj_keys newState ∧ reaches w k0 k)
          ∧ NoDup stab ∧ stab ⊆ closure
          ∧ order = stab ++ array_sort (cycle_compare w) remaining
          ∧ NoDup order
          ∧ order ≡ₚ closure
          ∧ eligible_in_turn w closure stab
          ∧ (∀ u, u ∈ remaining → canUpdate w remaining u = Some false)
          ∧ ∀ l1 k l2 d p, order = l1 ++ k :: l2 → k ∈ stab →
              obj_get k (derivers (graph w)) = Some d → p ∈ params d → p ∉ k :: l2))
  ∧ (∀ (V : Type) (H : Host V) (newState : Batch V) (mode : option Mode) (w : World V),
       default (push_default_mode (graph w)) mode = accurate →
       Forall ordinary (obj_keys newState) → ordinary_index w →
       ∃ n, ∀ fuel, n ≤ fuel → is_Some (push fuel newState mode w))
  ∧ (∀ (V : Type) (H : Host V) (rank : StateKey → nat) (newState : Batch V)
       (mode : option Mode) (w : World V) (fuel : nat),
       default (push_default_mode (graph w)) mode = fast →
       ranked w rank →
       Forall ordinary (obj_keys newState) → ordinary_index w →
       sum_list_with (λ k, weight w (rank k) k) (obj_keys newState) ≤ fuel →
       is_Some (push fuel newState mode w))
  ∧ (∀ (V : Type) (H : Host V) (C : StateKey → Prop) (newState : Batch V)
       (mode : option Mode) (w : World V),
       default (push_default_mode (graph w)) mode = fast →
       (∀ k, C k → ∃ d, d ∈ this_deps w k ∧ C d) →
       (∃ k, k ∈ obj_keys newState ∧ C k) →
       ∀ fuel, push fuel newState mode w = None)
  ∧ (∀ mode,
       order_of [("A", JNum 10)] mode example_graph = Some ["A"; "B"]
       ∧ value_at "A" (then_push [("A", JNum 10)] mode example_graph) = Some (JNum 10)
       ∧ value_at "B" (then_push [("A", JNum 10)] mode example_graph) = Some (JNum 15))
  ∧ order_of [("src", JNum 10)] (Some accurate) side_cycle_graph
    = Some ["leaf"; "mid"; "peer"; "src"]
  ∧ ∀ fuel, order_of_with fuel [("X", JNum 1)] (Some fast) cycle_graph = None.
Proof.
  split.
  { intros V H fuel newState mode w order w' Hpush.
    pose proof (push_spec _ _ _ _ _ _ Hpush) as (Hw' & Hkeys & Hclosed & Hreach).
    split; [done |]. split; [done |].
    split; [intros k v Hnd Hin Hk; by eapply push_keeps_raw_values |].
    split; [done |]. split; [done |]. split; [done |].
    intros Hmode. unfold push in Hpush. rewrite Hmode in Hpush.
    exact (push_accurate_phases _ _ _ _ _ Hpush). }
  split; [intros; by apply push_accurate_returns |].
  split.
  { intros V H rank newState mode w fuel Hmode Hrank Hkeys Hix Hfuel.
    unfold push. rewrite Hmode. by eapply push_fast_returns. }
  split.
  { intros V H C newState mode w Hmode HC Hk fuel.
    unfold push. rewrite Hmode. by eapply push_fast_cycle. }
  split; [intros [[|] |]; by vm_compute |].
  split; [by vm_compute |].
  exact cycle_graph_fast_diverges.
Qed.

(** C8 on the example graph: [push({A: 10})] returns [["A"; "B"]]. *)
Lemma push_returns_updated_keys_witness :
  ∃ order w',
    push 5 [("A", JNum 10)] None (the example_graph) = Some (order, w')
    ∧ updates [("A", JNum 10)] order (assigned [("A", JNum 10)] (the example_graph))
      = Some w'
    ∧ obj_keys [("A", JNum 10)] ⊆ order.
Proof.
  destruct (push 5 [("A", JNum 10)] None (the example_graph)) as [[order w'] |] eqn:Hpush;
    [| by vm_compute in Hpush].
  exists order, w'. split; [reflexivity |].
  destruct (proj1 push_returns_updated_keys JsValue js_host 5 [("A", JNum 10)] None
              (the example_graph) order w' Hpush) as (Hw' & _ & _ & Hkeys & _).
  split; [exact Hw' | exact Hkeys].
Defined.

(** C8, as stated, fails on the example graph: [push({A: 10})] returns
    [["A"; "B"]] in either mode, and [A] was not computed: it has no
    deriver, and [update("A", ..)] leaves everything as it is.  Nor does
    every call return a list: a fast push that reaches a cycle does not
    return, and [push({toString: 1})] throws in either mode. *)
Lemma push_returns_plain_batch_key :
  obj_get "A" (derivers (graph (the example_graph))) = None
  ∧ (∀ newState w, derivers (graph w) = derivers (graph (the example_graph)) →
       update "A" newState w = Some w)
  ∧ (∀ mode, order_of [("A", JNum 10)] mode example_graph = Some ["A"; "B"])
  ∧ (∀ fuel, order_of_with fuel [("X", JNum 1)] (Some fast) cycle_graph = None)
  ∧ ∀ fuel mode, push fuel [("toString", JNum 1)] mode (the example_graph) = None.
Proof.
  split; [by vm_compute |]. split.
  { intros newState w Hders. unfold update, member. rewrite Hders. by vm_compute. }
  split; [intros [[|] |]; by vm_compute |].
  split; [exact cycle_graph_fast_diverges |].
  intros fuel mode.
  apply (push_inherited_key fuel [("toString", JNum 1)] mode (the example_graph)
           "toString"); [by left | by vm_compute].
Qed.

(** The runtime of the request graph after its first push is one of the
    engine. *)
Lemma first_request_single_flight : single_flight (runtime (the first_request)).
Proof.
  split; [| split; [| split]].
  - intros pr Hpr. vm_compute in Hpr. apply list_elem_of_singleton in Hpr.
    rewrite Hpr. vm_compute. constructor.
  - vm_compute. apply NoDup_singleton.
  - intros pr Hpr. vm_compute in Hpr. apply list_elem_of_singleton in Hpr.
    rewrite Hpr. exists [], ["R"]. reflexivity.
  - intros cell. reflexivity.
Qed.

(** The second push of the request graph is a step of a run in which
    promise [0] does not settle. *)
Lemma two_requests_later : later 0 (the first_request) (the two_requests).
Proof.
  apply rtc_once.
  eapply (step_push 0 _ _ 5 [("A", JNum 2)] None ["A"; "R"]). by vm_compute.
Qed.


(** C6: the wrapper built by [ThrottleRequest].  In every runtime reached
    from the empty one by [ThrottleRequest], construction, [push] and
    settlement ([single_flight]), at most one pending promise is to clear a
    given cell.  While such a promise is pending the cell is set, and a call
    of the wrapper returns [null] and changes nothing: the wrapped request
    is not called.  A call with the cell clear calls the wrapped request,
    and sets the cell when a promise comes back.  The settlement of that
    promise, resolved or rejected, clears the cell before anything else
    happens.  Nothing but its settlement takes the promise away: through
    any pushes and settlements of other promises the cell stays set, and
    [update] of a request deriver throttled by it, with its key not in the
    batch, changes nothing.  On the graph with a throttled request, two
    pushes before the settlement make one call of the request, where the
    unwrapped request is called twice; after the settlement the next push
    calls it again. *)
Theorem throttle_single_flight :
  (∀ (V : Type) (H : Host V) (rt : Runtime V) (cell : nat),
     single_flight rt →
     length (outstanding cell rt) ≤ 1
     ∧ ∀ pr, pr ∈ promises rt → ClearInProgress cell ∈ reactions pr →
         flag cell rt = true
         ∧ ∀ (S : Type) (getter : StateKey → S → V * S) (request : RequestFn V) (s : S),
             call_request getter (Throttled cell request) s rt = (None, s, rt))
  ∧ (∀ (V : Type) (H : Host V) (S : Type) (getter : StateKey → S → V * S)
       (cell : nat) (request : RequestFn V) (s : S) (rt : Runtime V),
       flag cell rt = false →
       match call_request getter request s rt with
       | (Some p, s', rt') =>
           call_request getter (Throttled cell request) s rt
           = (Some p, s', add_reaction p (ClearInProgress cell) (set_flag cell true rt'))
           ∧ flag cell (add_reaction p (ClearInProgress cell) (set_flag cell true rt'))
             = true
       | (None, s', rt') =>
           call_request getter (Throttled cell request) s rt = (None, s', rt')
       end)
  ∧ (∀ (V : Type) (H : Host V) (fuel : nat) (o : Outcome V) (w : World V)
       (pr : Promise) (cell : nat),
       single_flight (runtime w) → pr ∈ promises (runtime w) →
       ClearInProgress cell ∈ reactions pr →
       ∃ (keys : list StateKey) (w_mid : World V),
         graph w_mid = graph w
         ∧ flag cell (runtime w_mid) = false
         ∧ single_flight (runtime w_mid)
         ∧ settle fuel (pid pr) o w
           = report_unhandled o (reactions pr) <$> react fuel o (Deliver <$> keys) w_mid)
  ∧ (∀ (V : Type) (H : Host V) (fuel : nat) (newState : Batch V) (mode : option Mode)
       (w : World V) (order : list StateKey) (w' : World V) (pr : Promise) (cell : nat),
       single_flight (runtime w) → pr ∈ promises (runtime w) →
       ClearInProgress cell ∈ reactions pr →
       push fuel newState mode w = Some (order, w') →
       flag cell (runtime w') = true
       ∧ ∃ pr', pr' ∈ promises (runtime w') ∧ pid pr' = pid pr
                ∧ ClearInProgress cell ∈ reactions pr')
  ∧ (∀ (V : Type) (H : Host V) (w w' : World V) (pr : Promise) (cell : nat),
       single_flight (runtime w) → pr ∈ promises (runtime w) →
       ClearInProgress cell ∈ reactions pr →
       later (pid pr) w w' →
       single_flight (runtime w')
       ∧ pr ∈ promises (runtime w')
       ∧ flag cell (runtime w') = true)
  ∧ (∀ (V : Type) (H : Host V) (key : StateKey) (newState : Batch V) (w : World V)
       (d : ExplicitlyDerived V) (r : RequestFn V) (cell : nat),
       obj_get key (derivers (graph w)) = Some d → func d = Async r →
       in_object key newState = false →
       cell ∈ cells_of r → flag cell (runtime w) = true →
       update key newState w = Some w)
  ∧ (∀ (V : Type) (H : Host V),
       single_flight
         ({| in_progress := ∅; promises := []; next_promise := 0; events := [] |}
          : Runtime V)
       ∧ (∀ (request : RequestFn V) (rt : Runtime V),
            single_flight rt → single_flight (ThrottleRequest request rt).2)
       ∧ (∀ fuel args (rt : Runtime V) (w : World V),
            single_flight rt → new_StateGraph fuel args rt = Some w →
            single_flight (runtime w))
       ∧ (∀ fuel newState mode (w : World V) order (w' : World V),
            single_flight (runtime w) →
            push fuel newState mode w = Some (order, w') → single_flight (runtime w'))
       ∧ (∀ fuel p o (w w' : World V),
            single_flight (runtime w) →
            settle fuel p o w = Some w' → single_flight (runtime w')))
  ∧ events_of (then_push [("A", JNum 2)] None
                 (then_push [("A", JNum 1)] None throttled_graph))
    = Some [Requested 0]
  ∧ events_of (then_push [("A", JNum 2)] None
                 (then_push [("A", JNum 1)] None request_graph))
    = Some [Requested 0; Requested 0]
  ∧ (∀ o,
       events_of (then_push [("A", JNum 3)] None
                    (then_settle 0 o
                       (then_push [("A", JNum 2)] None
                          (then_push [("A", JNum 1)] None throttled_graph))))
       = Some (match o with
               | Resolved _ => [Requested 0; Requested 0]
               | Rejected reason => [Requested 0; ConsoleError reason; Requested 0]
               end)).
Proof.
  split.
  { intros V H rt cell Hsf. split; [by apply single_flight_at_most_one |].
    intros pr Hpr Hcell.
    assert (Hflag : flag cell rt = true) by by eapply pending_flag.
    split; [done |]. intros S getter request s. simpl. by rewrite Hflag. }
  split.
  { intros V H S getter cell request s rt Hflag.
    rewrite call_request_throttled by done.
    destruct (call_request getter request s rt) as [[[p |] s'] rt']; [| done].
    split; [done | apply flag_add_reaction_set]. }
  split; [intros; by apply settle_clears_flag |].
  split; [intros; by eapply push_keeps_in_flight |].
  split; [intros; by eapply later_in_flight |].
  split; [intros; by eapply update_request_blocked |].
  split.
  { intros V H. split; [apply single_flight_empty |].
    split; [intros; by apply ThrottleRequest_single_flight |].
    split; [intros; by eapply new_StateGraph_single_flight |].
    split; [intros; by eapply push_single_flight |].
    intros; by eapply settle_single_flight. }
  split; [by vm_compute |]. split; [by vm_compute |].
  intros [value | reason]; by vm_compute.
Qed.

(** The runtime of the throttled graph after the first push is one of the
    engine. *)
Lemma in_flight_single_flight : single_flight (runtime in_flight_world).
Proof.
  split; [| split; [| split]].
  - intros pr Hpr. vm_compute in Hpr. apply list_elem_of_singleton in Hpr.
    rewrite Hpr. vm_compute. constructor.
  - vm_compute. apply NoDup_singleton.
  - intros pr Hpr. vm_compute in Hpr. apply list_elem_of_singleton in Hpr.
    rewrite Hpr. exists [0], ["R"]. reflexivity.
  - intros cell. unfold outstanding, flag.
    change (promises (runtime in_flight_world)) with [in_flight_promise].
    change (in_progress (runtime in_flight_world)) with ({[0 := true]} : gmap nat bool).
    destruct (decide (cell = 0)) as [-> | Hne]; [reflexivity |].
    rewrite lookup_singleton_ne by done. simpl.
    rewrite filter_cons_False; [done |].
    intros Hin. cbn in Hin. apply elem_of_cons in Hin as [Heq | Hin].
    + injection Heq as ->. by apply Hne.
    + apply list_elem_of_singleton in Hin. discriminate Hin.
Qed.

(** C6 on the throttled graph after the first push: promise [0] is
    pending and is to clear cell [0], also after a second push. *)
Lemma throttle_single_flight_witness :
  single_flight (runtime in_flight_world)
  ∧ in_flight_promise ∈ promises (runtime in_flight_world)
  ∧ ClearInProgress 0 ∈ reactions in_flight_promise
  ∧ flag 0 (runtime in_flight_world) = true
  ∧ (∀ (request : RequestFn JsValue) s,
       call_request (plain_getter (state (graph in_flight_world))) (Throttled 0 request)
         s (runtime in_flight_world)
       = (None, s, runtime in_flight_world))
  ∧ (∀ fuel o, ∃ (keys : list StateKey) w_mid,
       flag 0 (runtime w_mid) = false
       ∧ settle fuel 0 o in_flight_world
         = report_unhandled o (reactions in_flight_promise)
             <$> react fuel o (Deliver <$> keys) w_mid)
  ∧ later 0 in_flight_world (the (then_push [("A", JNum 2)] None (Some in_flight_world)))
  ∧ flag 0 (runtime (the (then_push [("A", JNum 2)] None (Some in_flight_world)))) = true.
Proof.
  set (w := in_flight_world). set (pr := in_flight_promise).
  assert (Hsf : single_flight (runtime w)) by exact in_flight_single_flight.
  assert (Hpr : pr ∈ promises (runtime w)) by (vm_compute; by left).
  assert (Hcell : ClearInProgress 0 ∈ reactions pr) by (by left).
  split; [exact Hsf |]. split; [exact Hpr |]. split; [exact Hcell |].
  destruct (proj1 throttle_single_flight JsValue js_host (runtime w) 0 Hsf)
    as [_ Hblocked].
  destruct (Hblocked pr Hpr Hcell) as [Hflag Hnull].
  split; [exact Hflag |]. split; [intros request s; apply Hnull |].
  split.
  { intros fuel o.
    destruct (proj1 (proj2 (proj2 throttle_single_flight)) JsValue js_host fuel o w pr 0
                Hsf Hpr Hcell) as (keys & w_mid & _ & Hclear & _ & Hsettle).
    exists keys, w_mid. split; [exact Hclear | exact Hsettle]. }
  assert (Hlater : later 0 w (the (then_push [("A", JNum 2)] None (Some w)))).
  { apply rtc_once.
    eapply (step_push 0 _ _ 5 [("A", JNum 2)] None ["A"; "R"]). by vm_compute. }
  split; [exact Hlater |].
  exact (proj2 (proj2 (proj1 (proj2 (proj2 (proj2 (proj2 throttle_single_flight))))
                         JsValue js_host w _ pr 0 Hsf Hpr Hcell Hlater))).
Defined.

(** C7: the rejection of a pending promise is caught and logged.  For the
    promise that [update] got from the request of [key], the settlement
    with a rejection, in whatever state the graph is by then, returns
    normally, whatever the fuel, leaves the graph as it was (no value is
    written, the key keeps the value it had), clears the flags of the
    throttle closures and adds one event: the call of [console.error] with
    the reason; no watcher is notified.  The [update] that made the request,
    and with it the push that called it, had returned before.  In every
    runtime of the engine ([single_flight]) the rejection of any promise
    returns, leaves the graph as it was and adds no event but calls of
    [console.error] or the report of a rejection that nobody caught.  On
    the request graph, with [R = 42] from a first request, the rejection of
    the second leaves [R = 42] and logs the reason. *)
Theorem rejected_request_is_logged :
  (∀ (V : Type) (H : Host V) (fuel : nat) (reason : V) (w w' : World V)
     (pr : Promise) (cells : list nat) (key : StateKey),
     single_flight (runtime w) → pr ∈ promises (runtime w) →
     reactions pr = (ClearInProgress <$> cells) ++ [Deliver key] →
     later (pid pr) w w' →
     ∃ w'',
       settle fuel (pid pr) (Rejected reason) w' = Some w''
       ∧ graph w'' = graph w'
       ∧ events (runtime w'') = events (runtime w') ++ [ConsoleError reason]
       ∧ (∀ c, flag c (runtime w'')
               = if decide (c ∈ cells) then false else flag c (runtime w'))
       ∧ (∀ pr', pr' ∈ promises (runtime w'') ↔ pr' ∈ promises (runtime w') ∧ pr' ≠ pr))
  ∧ (∀ (V : Type) (H : Host V) (key : StateKey) (newState : Batch V) (w : World V)
       (d : ExplicitlyDerived V) (r : RequestFn V),
       single_flight (runtime w) →
       obj_get key (derivers (graph w)) = Some d → func d = Async r →
       in_object key newState = false →
       (∀ c, c ∈ cells_of r → flag c (runtime w) = false) →
       apply_fn (body_of r) (state (graph w)) = true →
       ∃ w1,
         update key newState w = Some w1
         ∧ graph w1 = graph w
         ∧ single_flight (runtime w1)
         ∧ {| pid := next_promise (runtime w);
              reactions := (ClearInProgress <$> reverse (cells_of r)) ++ [Deliver key] |}
           ∈ promises (runtime w1))
  ∧ (∀ (V : Type) (H : Host V) (fuel p : nat) (reason : V) (w : World V),
       single_flight (runtime w) →
       ∃ (w' : World V) (errors : list (Event V)),
         settle fuel p (Rejected reason) w = Some w'
         ∧ graph w' = graph w
         ∧ events (runtime w') = events (runtime w) ++ errors
         ∧ Forall (λ e, e = ConsoleError reason ∨ e = UnhandledRejection reason) errors)
  ∧ order_of [("A", JNum 2)] None
      (then_settle 0 (Resolved (JNum 42)) (then_push [("A", JNum 1)] None request_graph))
    = Some ["A"; "R"]
  ∧ value_at "R" second_request = Some (JNum 42)
  ∧ events_of second_request = Some [Requested 0; Notified 0 "R"; Requested 0]
  ∧ value_at "R" (then_settle 1 (Rejected (JNum 13)) second_request) = Some (JNum 42)
  ∧ events_of (then_settle 1 (Rejected (JNum 13)) second_request)
    = Some [Requested 0; Notified 0 "R"; Requested 0; ConsoleError (JNum 13)]
  ∧ value_at "R" (then_settle 0 (Rejected (JNum 13)) two_requests) = None
  ∧ events_of (then_settle 0 (Rejected (JNum 13)) two_requests)
    = Some [Requested 0; Requested 0; ConsoleError (JNum 13)].
Proof.
  split.
  { intros V H fuel reason w w' pr cells key Hsf Hpr Hr Hlater.
    destruct (later_delivery fuel (Rejected reason) w w' pr cells key Hsf Hpr Hr Hlater)
      as (_ & _ & H2 & H3 & H4 & H5 & H6).
    eexists. split; [exact H6 |]. split; [done |].
    split; [cbn [runtime with_runtime events emit] in *; by rewrite H3 |].
    split; [done | done]. }
  split.
  { intros V H key newState w d r Hsf Hd Hf Hin Hflags Hbody.
    destruct (update_request_started key newState w d r Hsf Hd Hf Hin Hflags Hbody)
      as (w1 & H1 & H2 & _ & H4 & _ & H6).
    exists w1. split; [done |]. split; [done |]. split; [done |].
    rewrite H4. apply elem_of_app. right. by left. }
  split; [intros; by apply settle_rejected |].
  repeat split; by vm_compute.
Qed.

(** C7 on the request graph: the first promise, rejected after a second
    push. *)
Lemma rejected_request_is_logged_witness :
  single_flight (runtime (the first_request))
  ∧ first_promise ∈ promises (runtime (the first_request))
  ∧ later 0 (the first_request) (the two_requests)
  ∧ ∃ w'',
      settle 0 0 (Rejected (JNum 13)) (the two_requests) = Some w''
      ∧ graph w'' = graph (the two_requests)
      ∧ events (runtime w'')
        = events (runtime (the two_requests)) ++ [ConsoleError (JNum 13)].
Proof.
  assert (Hpr : first_promise ∈ promises (runtime (the first_request)))
    by (vm_compute; by left).
  split; [exact first_request_single_flight |]. split; [exact Hpr |].
  split; [exact two_requests_later |].
  destruct (proj1 rejected_request_is_logged JsValue js_host 0 (JNum 13)
              (the first_request) (the two_requests) first_promise [] "R"
              first_request_single_flight Hpr eq_refl two_requests_later)
    as (w'' & Hsettle & Hgraph & Hevents & _).
  exists w''. split; [exact Hsettle |]. split; [exact Hgraph | exact Hevents].
Defined.
(** The first push of the request graph is a step of a run. *)
Lemma first_request_later p : later p (the request_graph) (the first_request).
Proof.
  apply rtc_once.
  eapply (step_push p _ _ 5 [("A", JNum 1)] None ["A"; "R"]). by vm_compute.
Qed.

(** The closure of [watch("R", 0)] called twice on the request graph,
    after a push. *)
Lemma unsubscribe_idempotent_witness :
  watch "R" 0 (the unwatched_request_graph) = Some (the request_graph)
  ∧ later 7 (the request_graph) (the first_request)
  ∧ ∃ w1, unwatch "R" 0 (the first_request) = Some w1
      ∧ unwatch "R" 0 w1 = Some w1
      ∧ watchers (graph w1) !! "R" = Some [].
Proof.
  assert (Hwatch : watch "R" 0 (the unwatched_request_graph) = Some (the request_graph))
    by (by vm_compute).
  split; [exact Hwatch |]. split; [exact (first_request_later 7) |].
  destruct (proj1 (proj2 (unsubscribe_idempotent (V := JsValue) "R" 0
                            (the unwatched_request_graph) (the request_graph) Hwatch))
              7 (the first_request) (first_request_later 7))
    as (a & w1 & Ha & H1 & H2 & H3 & _).
  exists w1. split; [exact H1 |]. split; [exact H2 |].
  vm_compute in Ha. injection Ha as <-. exact H3.
Defined.

(** C10, as stated, fails for a callback that is also registered for all
    keys: with watcher [0] registered by [watch_all] and twice by
    [watch("B", ..)] on the example graph, one call of a closure that
    [watch] returned empties the list of [B], and the next
    [push({A: 10})], which changes [B], calls the watcher for [B]. *)
Lemma unsubscribed_callback_still_called :
  (w ← then_watch "B" 0 (then_watch "B" 0 (watch_all 0 <$> example_graph));
   watchers (graph w) !! "B") = Some [0; 0]
  ∧ (w ← resubscribed_graph; watchers (graph w) !! "B") = Some []
  ∧ events_of resubscribed_graph = Some []
  ∧ value_at "B" resubscribed_graph = Some (JNum 5)
  ∧ value_at "B" (then_push [("A", JNum 10)] None resubscribed_graph) = Some (JNum 15)
  ∧ events_of (then_push [("A", JNum 10)] None resubscribed_graph)
    = Some [Notified 0 "B"].
Proof. repeat split; by vm_compute. Qed.

(** Watcher [0] registered twice for ["B"] on the example graph. *)
Lemma duplicate_registration_removed_at_once_witness :
  ∃ w1 w2 w3,
    watch "B" 0 (the example_graph) = Some w1
    ∧ watch "B" 0 w1 = Some w2
    ∧ watchers (graph w2) !! "B" = Some [0; 0]
    ∧ unwatch "B" 0 w2 = Some w3
    ∧ watchers (graph w3) !! "B" = Some []
    ∧ filter (λ x, x = 0) (notified "B" (graph w3)) = [].
Proof.
  destruct (watch "B" 0 (the example_graph)) as [w1 |] eqn:H1; [| by vm_compute in H1].
  destruct (watch "B" 0 w1) as [w2 |] eqn:H2.
  2:{ vm_compute in H1. injection H1 as <-. by vm_compute in H2. }
  destruct (duplicate_registration_removed_at_once (V := JsValue) "B" 0
              (the example_graph) w1 w2 H1 H2)
    as (Hreg & (w3 & H3 & Hlist & _ & Hcount & _) & _).
  exists w1, w2, w3. split; [reflexivity |]. split; [exact H2 |].
  split; [exact Hreg |]. split; [exact H3 |]. split; [exact Hlist | exact Hcount].
Defined.

(** * The further properties on the examples *)

Lemma chain_graph_derivers :
  derivers (graph (the chain_graph))
  = [("C", {| params := ["B"]; func := Sync (plus_1 "B"); order := None |});
     ("B", {| params := ["A"]; func := Sync B_plus_5; order := None |})].
Proof. by vm_compute. Qed.

Lemma chain_graph_indexed : indexed (the chain_graph).
Proof. by vm_compute. Qed.

Lemma chain_graph_ranked : ranked (the chain_graph) chain_rank.
Proof.
  intros k d Hd. unfold this_deps in Hd.
  rewrite (indexed_to_ok _ chain_graph_indexed) in Hd.
  apply build_deps_elem_ok in Hd as (dd & Hin & Hp).
  rewrite chain_graph_derivers in Hin.
  apply elem_of_cons in Hin as [Heq|Hin]; [|apply list_elem_of_singleton in Hin as Heq];
    injection Heq as -> ->; cbn in Hp; apply list_elem_of_singleton in Hp as ->;
    vm_compute; lia.
Qed.

Lemma plus_1_uniform name : uniform (plus_1 name).
Proof. by intros v. Qed.

Lemma chain_graph_honest : honest (the chain_graph).
Proof.
  intros k d f Hd Hf. apply obj_get_elem in Hd. rewrite chain_graph_derivers in Hd.
  apply elem_of_cons in Hd as [Heq|Hin]; [|apply list_elem_of_singleton in Hin as Heq];
    injection Heq as -> ->; cbn in Hf; injection Hf as <-.
  - apply (uniform_reads_within (plus_1 "B")), plus_1_uniform.
  - apply (uniform_reads_within B_plus_5). by intros v.
Qed.

Lemma constructor_indexes_dependents_witness :
  ∃ w, new_StateGraph 5 chain_args empty_runtime = Some w
       ∧ NoDup (obj_keys (derivers (graph w)))
       ∧ ("C" ∈ this_deps w "B"
          ↔ ∃ d, obj_get "C" (derivers (graph w)) = Some d ∧ "B" ∈ params d).
Proof.
  destruct (new_StateGraph 5 chain_args empty_runtime) as [w|] eqn:Hnew;
    [|by vm_compute in Hnew].
  exists w. split; [reflexivity|].
  destruct (constructor_indexes_dependents 5 chain_args empty_runtime w Hnew)
    as [Hnd Hindex].
  split; [exact Hnd|exact (Hindex "B" "C")].
Defined.

Lemma constructor_registers_derivers_witness :
  ∃ w, new_StateGraph 5 override_args empty_runtime = Some w
       ∧ (∃ d, obj_get "R" (derivers (graph w)) = Some d ∧ is_request d = true)
       ∧ obj_get "B" (derivers (graph w))
         = Some {| params := ["A"]; func := Sync B_plus_5; order := None |}.
Proof.
  destruct (new_StateGraph 5 override_args empty_runtime) as [w|] eqn:Hnew;
    [|by vm_compute in Hnew].
  exists w. split; [reflexivity|].
  destruct (constructor_registers_derivers 5 override_args empty_runtime w Hnew)
    as [Hreq Hder].
  split.
  - apply (Hreq "R" (ExplicitRequest ["A"] (Plain 0 (Return true)) None)). left.
  - apply (Hder ltac:(vm_compute; by repeat constructor; set_solver) "B"
             (Explicit {| params := ["A"]; func := Sync B_plus_5; order := None |})).
    + right. left.
    + vm_compute. by intros ?%list_elem_of_singleton.
Defined.

Lemma push_writes_returned_keys_only_witness :
  ∃ order w',
    push 5 [("A", JNum 1)] None (the chain_graph) = Some (order, w')
    ∧ static w' = static (the chain_graph)
    ∧ state (graph w') !! "Z" = state (graph (the chain_graph)) !! "Z".
Proof.
  destruct (push 5 [("A", JNum 1)] None (the chain_graph)) as [[order w']|] eqn:Hpush;
    [|by vm_compute in Hpush].
  exists order, w'. split; [reflexivity|].
  destruct (push_writes_returned_keys_only 5 [("A", JNum 1)] None (the chain_graph)
              order w' Hpush) as [Hstatic Hframe].
  split; [exact Hstatic|]. apply Hframe. right. split.
  - vm_compute. by intros ?%list_elem_of_singleton.
  - intros d f Hd. by vm_compute in Hd.
Defined.

Lemma push_of_plain_keys_witness :
  NoDup (obj_keys [("Y", JNum 1); ("Z", JNum 2)])
  ∧ Forall (ordinary (V := JsValue)) (obj_keys [("Y", JNum 1); ("Z", JNum 2)])
  ∧ (∀ k, k ∈ obj_keys [("Y", JNum 1); ("Z", JNum 2)] →
       obj_get k (derivers (graph (the chain_graph))) = None
       ∧ this_deps (the chain_graph) k = [])
  ∧ push 2 [("Y", JNum 1); ("Z", JNum 2)] (Some fast) (the chain_graph)
    = Some (["Y"; "Z"], assigned [("Y", JNum 1); ("Z", JNum 2)] (the chain_graph)).
Proof.
  assert (Hnd : NoDup (obj_keys [("Y", JNum 1); ("Z", JNum 2)]))
    by (apply (bool_decide_unpack _); by vm_compute).
  assert (Hplain : ∀ k, k ∈ obj_keys [("Y", JNum 1); ("Z", JNum 2)] →
            obj_get k (derivers (graph (the chain_graph))) = None
            ∧ this_deps (the chain_graph) k = []).
  { intros k Hk. vm_compute in Hk.
    apply elem_of_cons in Hk as [->|Hk]; [by vm_compute|].
    apply list_elem_of_singleton in Hk as ->. by vm_compute. }
  assert (Hord : Forall (ordinary (V := JsValue))
                    (obj_keys [("Y", JNum 1); ("Z", JNum 2)]))
    by (repeat constructor).
  split; [exact Hnd|]. split; [exact Hord|]. split; [exact Hplain|].
  apply (push_of_plain_keys 2 [("Y", JNum 1); ("Z", JNum 2)] (Some fast) (the chain_graph)
           Hnd Hord Hplain).
  vm_compute. lia.
Defined.

Lemma push_fast_diverges_on_cycle_witness :
  (∀ k, k = "X" ∨ k = "Y" →
     ∃ d, d ∈ this_deps (the cycle_graph) k ∧ (d = "X" ∨ d = "Y"))
  ∧ (∃ k, k ∈ obj_keys [("X", JNum 1)] ∧ (k = "X" ∨ k = "Y"))
  ∧ ∀ fuel, push_fast fuel [("X", JNum 1)] (the cycle_graph) = None.
Proof.
  assert (Hcyc : ∀ k, k = "X" ∨ k = "Y" →
            ∃ d, d ∈ this_deps (the cycle_graph) k ∧ (d = "X" ∨ d = "Y")).
  { intros k [->| ->]; [exists "Y"|exists "X"]; (split; [vm_compute; left|auto]). }
  assert (Hin : ∃ k, k ∈ obj_keys [("X", JNum 1)] ∧ (k = "X" ∨ k = "Y")).
  { exists "X". split; [left|by left]. }
  split; [exact Hcyc|]. split; [exact Hin|].
  exact (push_fast_diverges_on_cycle (λ k, k = "X" ∨ k = "Y") [("X", JNum 1)]
           (the cycle_graph) Hcyc Hin).
Defined.

Lemma chain_graph_ordinary_index : ordinary_index (the chain_graph).
Proof.
  apply indexed_ordinary_index; [exact chain_graph_indexed |].
  rewrite chain_graph_derivers. repeat constructor.
Qed.

Lemma push_fast_returns_on_acyclic_graph_witness :
  ranked (the chain_graph) chain_rank
  ∧ Forall (ordinary (V := JsValue)) (obj_keys [("A", JNum 1)])
  ∧ ordinary_index (the chain_graph)
  ∧ sum_list_with (λ k, weight (the chain_graph) (chain_rank k) k)
      (obj_keys [("A", JNum 1)]) ≤ 3
  ∧ is_Some (push_fast 3 [("A", JNum 1)] (the chain_graph)).
Proof.
  assert (Hfuel : sum_list_with (λ k, weight (the chain_graph) (chain_rank k) k)
                    (obj_keys [("A", JNum 1)]) ≤ 3) by (vm_compute; lia).
  assert (Hord : Forall (ordinary (V := JsValue)) (obj_keys [("A", JNum 1)]))
    by (repeat constructor).
  split; [exact chain_graph_ranked|]. split; [exact Hord|].
  split; [exact chain_graph_ordinary_index|]. split; [exact Hfuel|].
  exact (push_fast_returns_on_acyclic_graph chain_rank [("A", JNum 1)] (the chain_graph) 3
           chain_graph_ranked Hord chain_graph_ordinary_index Hfuel).
Defined.

Lemma push_fast_settles_derived_keys_witness :
  indexed (the chain_graph)
  ∧ reads_within ["B"] (plus_1 "B")
  ∧ ∃ visited w',
      push_fast 5 [("A", JNum 1)] (the chain_graph) = Some (visited, w')
      ∧ "C" ∈ visited
      ∧ state (graph w') !! "C" = Some (apply_fn (plus_1 "B") (state (graph w'))).
Proof.
  assert (Hreads : reads_within ["B"] (plus_1 "B"))
    by apply (uniform_reads_within (plus_1 "B")), plus_1_uniform.
  split; [exact chain_graph_indexed|]. split; [exact Hreads|].
  destruct (push_fast 5 [("A", JNum 1)] (the chain_graph)) as [[visited w']|] eqn:Hpush;
    [|by vm_compute in Hpush].
  assert (Hin : "C" ∈ visited).
  { vm_compute in Hpush. injection Hpush as <- _. right. right. left. }
  exists visited, w'. split; [reflexivity|]. split; [exact Hin|].
  exact (push_fast_settles_derived_keys 5 [("A", JNum 1)] (the chain_graph) visited w' "C"
           {| params := ["B"]; func := Sync (plus_1 "B"); order := None |} (plus_1 "B")
           chain_graph_indexed Hpush Hin eq_refl eq_refl Hreads).
Defined.

Lemma push_accurate_settles_derived_keys_witness :
  ∃ order w' stab rest,
    push_accurate 5 [("src", JNum 1)] (the side_cycle_graph) = Some (order, w')
    ∧ order = stab ++ rest
    ∧ ∀ u, u ∈ rest → canUpdate (the side_cycle_graph) rest u = Some false.
Proof.
  destruct (push_accurate 5 [("src", JNum 1)] (the side_cycle_graph))
    as [[order w']|] eqn:Hpush; [|by vm_compute in Hpush].
  destruct (push_accurate_settles_derived_keys 5 [("src", JNum 1)] (the side_cycle_graph)
              order w' Hpush) as (stab & rest & Horder & Hstuck & _).
  exists order, w', stab, rest. split; [reflexivity|]. split; [exact Horder|exact Hstuck].
Defined.

Lemma push_accurate_topological_on_acyclic_graph_witness :
  indexed (the chain_graph)
  ∧ ranked (the chain_graph) chain_rank
  ∧ ∃ order w',
      push_accurate 5 [("A", JNum 1)] (the chain_graph) = Some (order, w')
      ∧ NoDup order
      ∧ ∀ l1 k l2 d p, order = l1 ++ k :: l2 →
          obj_get k (derivers (graph (the chain_graph))) = Some d →
          p ∈ params d → p ∉ k :: l2.
Proof.
  split; [exact chain_graph_indexed|]. split; [exact chain_graph_ranked|].
  destruct (push_accurate 5 [("A", JNum 1)] (the chain_graph)) as [[order w']|] eqn:Hpush;
    [|by vm_compute in Hpush].
  destruct (push_accurate_topological_on_acyclic_graph 5 [("A", JNum 1)] (the chain_graph)
              chain_rank order w' chain_graph_indexed chain_graph_ranked Hpush)
    as (Hnd & Htopo & _).
  exists order, w'. split; [reflexivity|]. split; [exact Hnd|exact Htopo].
Defined.

Lemma push_modes_agree_on_acyclic_graph_witness :
  indexed (the chain_graph)
  ∧ ranked (the chain_graph) chain_rank
  ∧ honest (the chain_graph)
  ∧ ∃ visited wf order wa,
      push_fast 5 [("A", JNum 1)] (the chain_graph) = Some (visited, wf)
      ∧ push_accurate 5 [("A", JNum 1)] (the chain_graph) = Some (order, wa)
      ∧ (∀ k, k ∈ visited ↔ k ∈ order)
      ∧ graph wf = graph wa.
Proof.
  split; [exact chain_graph_indexed|]. split; [exact chain_graph_ranked|].
  split; [exact chain_graph_honest|].
  destruct (push_fast 5 [("A", JNum 1)] (the chain_graph)) as [[visited wf]|] eqn:Hfast;
    [|by vm_compute in Hfast].
  destruct (push_accurate 5 [("A", JNum 1)] (the chain_graph)) as [[order wa]|] eqn:Hacc;
    [|by vm_compute in Hacc].
  exists visited, wf, order, wa. split; [reflexivity|]. split; [reflexivity|].
  exact (push_modes_agree_on_acyclic_graph 5 5 [("A", JNum 1)] (the chain_graph) chain_rank
           visited wf order wa chain_graph_indexed chain_graph_ranked chain_graph_honest
           Hfast Hacc).
Defined.

Lemma push_calls_watchers_witness :
  ∃ order w',
    push 5 [("A", JNum 1)] None watched_chain = Some (order, w')
    ∧ notifications (runtime w')
      = notifications (runtime watched_chain)
        ++ (order ≫= λ k,
              if announces [("A", JNum 1)] watched_chain k
              then (λ watcher, (watcher, k))
                     <$> (default [] (watchers (graph watched_chain) !! k)
                          ++ global_watchers (graph watched_chain))
              else []).
Proof.
  destruct (push 5 [("A", JNum 1)] None watched_chain) as [[order w']|] eqn:Hpush;
    [|by vm_compute in Hpush].
  exists order, w'. split; [reflexivity|].
  exact (proj1 (push_calls_watchers 5 [("A", JNum 1)] None watched_chain order w' Hpush)).
Defined.

Lemma push_accurate_calls_each_watcher_once_witness :
  ∃ order w' new,
    push_accurate 5 [("A", JNum 1)] watched_chain = Some (order, w')
    ∧ notifications (runtime w') = notifications (runtime watched_chain) ++ new
    ∧ length (filter (λ n, n = (0, "B")) new) = 1
    ∧ length (filter (λ n, n = (0, "A")) new) = 0.
Proof.
  destruct (push_accurate 5 [("A", JNum 1)] watched_chain) as [[order w']|] eqn:Hpush;
    [|by vm_compute in Hpush].
  destruct (push_accurate_calls_each_watcher_once 5 [("A", JNum 1)] watched_chain order w'
              Hpush) as (new & Hnew & Hcount).
  exists order, w', new. split; [reflexivity|]. split; [exact Hnew|].
  rewrite !Hcount. vm_compute in Hpush. injection Hpush as <- _. by vm_compute.
Defined.

Lemma push_twice_same_graph_witness :
  indexed (the chain_graph)
  ∧ ranked (the chain_graph) chain_rank
  ∧ honest (the chain_graph)
  ∧ ∃ order w1 order' w2,
      push 5 [("A", JNum 1)] (Some fast) (the chain_graph) = Some (order, w1)
      ∧ push 5 [("A", JNum 1)] (Some accurate) w1 = Some (order', w2)
      ∧ graph w2 = graph w1.
Proof.
  split; [exact chain_graph_indexed|]. split; [exact chain_graph_ranked|].
  split; [exact chain_graph_honest|].
  destruct (push 5 [("A", JNum 1)] (Some fast) (the chain_graph)) as [[order w1]|] eqn:Hpush1;
    [|by vm_compute in Hpush1].
  destruct (push 5 [("A", JNum 1)] (Some accurate) w1) as [[order' w2]|] eqn:Hpush2.
  2:{ vm_compute in Hpush1. injection Hpush1 as <- <-. by vm_compute in Hpush2. }
  exists order, w1, order', w2. split; [reflexivity|]. split; [exact Hpush2|].
  exact (proj2 (push_twice_same_graph 5 5 [("A", JNum 1)] (Some fast) (Some accurate)
                  (the chain_graph) chain_rank order w1 order' w2
                  chain_graph_indexed chain_graph_ranked chain_graph_honest Hpush1 Hpush2)).
Defined.

Lemma throttle_runtime_single_flight : single_flight throttle_runtime.
Proof.
  apply (ThrottleRequest_single_flight (Plain 0 (Return true)) empty_runtime).
  apply single_flight_empty.
Qed.

Lemma throttles_are_independent_witness :
  single_flight empty_runtime
  ∧ (invoke (plain_getter (∅ : gmap string JsValue)) (Return true) ()).1 = true
  ∧ ∃ c1 c2 rt3,
      c1 ≠ c2
      ∧ (∀ s, call_request (plain_getter ∅) (Throttled c1 (Plain 1 (Return true))) s rt3
              = (None, s, rt3))
      ∧ events (call_request (plain_getter ∅) (Throttled c2 (Plain 2 (Return true))) () rt3).2
        = events empty_runtime ++ [Requested 1; Requested 2].
Proof.
  split; [exact single_flight_empty|]. split; [reflexivity|].
  destruct (throttles_are_independent (plain_getter (∅ : gmap string JsValue))
              1 (Return true) 2 (Return true) () () empty_runtime
              single_flight_empty eq_refl)
    as (c1 & c2 & rt2 & rt3 & s1' & _ & _ & Hne & _ & Hblocked & Hevents).
  exists c1, c2, rt3. split; [exact Hne|]. split; [exact Hblocked|exact Hevents].
Defined.

Lemma ExtractDeriver_starts_request_witness :
  single_flight throttle_runtime
  ∧ (∀ c, c ∈ cells_of throttled_request → flag c throttle_runtime = false)
  ∧ (invoke PropGetReporter (body_of throttled_request) []).1 = true
  ∧ ExtractDeriver (Async throttled_request) throttle_runtime
    = ({| params := []; func := Async throttled_request; order := None |},
       started throttled_request throttle_runtime)
  ∧ flag 0 (started throttled_request throttle_runtime) = true
  ∧ ∃ w',
      settle 0 0 (Rejected (JNum 13))
        {| graph := graph empty_world;
           runtime := started throttled_request throttle_runtime |}
      = Some w'
      ∧ events (runtime w') = [Requested 0; UnhandledRejection (JNum 13)].
Proof.
  assert (Hclear : ∀ c, c ∈ cells_of throttled_request → flag c throttle_runtime = false).
  { intros c Hc. vm_compute in Hc. by apply list_elem_of_singleton in Hc as ->. }
  split; [exact throttle_runtime_single_flight|]. split; [exact Hclear|].
  split; [reflexivity|].
  destruct (ExtractDeriver_starts_request throttled_request throttle_runtime
              throttle_runtime_single_flight Hclear eq_refl)
    as (Hprobe & Hflags & _ & Hsettle).
  split; [exact Hprobe|]. split; [apply Hflags; left|].
  destruct (Hsettle {| graph := graph empty_world;
                       runtime := started throttled_request throttle_runtime |}
              0 (Rejected (JNum 13)) eq_refl) as (w' & Hw' & _ & Hevents & _).
  exists w'. split; [exact Hw' | exact Hevents].
Defined.

Lemma ExtractDeriver_params_cover_uniform_reads_witness :
  uniform B_plus_5
  ∧ reads_within (params (ExtractDeriver (Sync B_plus_5) empty_runtime).1) B_plus_5.
Proof.
  assert (Hu : uniform B_plus_5) by (by intros v).
  split; [exact Hu|].
  exact (ExtractDeriver_params_cover_uniform_reads B_plus_5 empty_runtime Hu).
Defined.

Lemma data_member_set (obj : JsData) key value :
  get_member (spread_with obj key value) key = Some value.
Proof.
  destruct obj as [| |members|]; cbn; try by rewrite decide_True.
  by rewrite obj_get_obj_set, decide_True.
Qed.

Lemma data_member_frame (obj : JsData) k value k' y :
  k ≠ k' → get_member obj k' = Some y →
  get_member (spread_with obj k value) k' = Some y.
Proof.
  intros Hne. destruct obj as [| |members|]; cbn; [done| | |done].
  - case_bool_decide as Hnames; [done |]. intros [= <-].
    rewrite decide_False by done. unfold Object_prototype; cbn.
    rewrite bool_decide_eq_false_2; [done |].
    intros Hin. apply Hnames. by do 7 right.
  - intros [= <-]. by rewrite obj_get_obj_set, decide_False.
Qed.

Lemma property_set_then_get_witness :
  (∀ (obj : JsData) key value, get_member (spread_with obj key value) key = Some value)
  ∧ lawful user_name
  ∧ (∀ d, obj_get (root user_name) (derivers (graph profile_graph)) = Some d →
       is_request d = true)
  ∧ ∃ w', set_value 5 user_name (DNum 7) profile_graph = Some w'
          ∧ get_value user_name w' = Some (DNum 7).
Proof.
  assert (Hlaw : lawful user_name) by exact I.
  assert (Hroot : ∀ d, obj_get (root user_name) (derivers (graph profile_graph)) = Some d →
            is_request d = true) by (intros d Hd; by vm_compute in Hd).
  split; [exact data_member_set|]. split; [exact Hlaw|]. split; [exact Hroot|].
  destruct (set_value 5 user_name (DNum 7) profile_graph) as [w'|] eqn:Hset;
    [|by vm_compute in Hset].
  exists w'. split; [reflexivity|].
  exact (property_set_then_get 5 user_name (DNum 7) profile_graph w'
           data_member_set Hlaw Hroot Hset).
Defined.

Lemma navigate_keeps_other_members_witness :
  "name" ≠ "age"
  ∧ get_value user_age profile_graph = Some (DNum 2)
  ∧ ∃ w', set_value 5 user_name (DNum 7) profile_graph = Some w'
          ∧ get_value user_name w' = Some (DNum 7)
          ∧ get_value user_age w' = Some (DNum 2).
Proof.
  assert (Hne : "name" ≠ "age") by done.
  assert (Hage : get_value user_age profile_graph = Some (DNum 2))
    by (by vm_compute).
  assert (Hroot : ∀ d, obj_get (root user_prop) (derivers (graph profile_graph)) = Some d →
            is_request d = true) by (intros d Hd; by vm_compute in Hd).
  split; [exact Hne|]. split; [exact Hage|].
  destruct (set_value 5 user_name (DNum 7) profile_graph)
    as [w'|] eqn:Hset; [|by vm_compute in Hset].
  exists w'. split; [reflexivity|].
  exact (navigate_keeps_other_members 5 user_prop "name" "age" (DNum 7) (DNum 2)
           profile_graph w' data_member_set data_member_frame I Hroot Hne Hage Hset).
Defined.



